(** * Bulk image uploader: filename parsing, pattern analysis, upload queue

    A shallow embedding of
    - the declarations of [app/types]   (module [Types]),
    - [app/utils/fileParser.ts]         (module [FileParser]),
    - [app/utils/patternAnalyzer.ts]    (module [PatternAnalyzer]),
    - [app/utils/imageQueue.server.ts]  (module [ImageQueue]),
    - [queryProductsBySKUs] of [app/utils/shopifyMedia.server.ts]
      (module [ShopifyMedia]),
    - the [action] of [app/routes/app._index.tsx], with [maxPosition],
      [canProcess] and [handleProcess] of its page component
      (module [Route]),
    - [app/utils/csvExport.ts]          (module [CsvExport]),
    - [handleAltTextChange] and the positions shown by
      [app/components/SettingsCard.tsx] (module [SettingsCard]),
    together with the pieces of the JavaScript runtime these functions rely
    on (module [Js]).

    Conventions of the embedding.
    - File names and SKUs are [string]s whose characters are read as ASCII.
    - JavaScript numbers that hold sort positions and counts are exact
      integers ([Z], [nat]), as they are in the runtime below [2^53];
      [NaN] is the [None] of an [option].
    - A [throw] is the [Raise] of a [Result], and so is the rejection of
      an awaited promise.
    - The remote media API is an oracle that answers each call knowing the
      calls answered so far, and that decides which of the calls in flight
      is answered next. The limiter [pLimit(MAX_CONCURRENT)] is a queue
      with a set of tasks in flight, stepped by these answers. *)

From Stdlib Require Import ZArith Lia Ascii String DecimalString.
From Stdlib Require DecimalPos.
From stdpp Require Import base option list sorting gmap strings.

Local Open Scope Z_scope.

(** Result of a computation that may [throw]. *)
Inductive Result (E A : Type) : Type :=
| Return (a : A)
| Raise (e : E).
Arguments Return {E A} a.
Arguments Raise {E A} e.

(** ** The JavaScript runtime functions used by the sources *)
Module Js.

(** White space as removed by [String.prototype.trim] and skipped by
    [parseInt] (TAB, LF, VT, FF, CR, SP). *)
Definition isWhiteSpace (c : ascii) : bool :=
  let n := N_of_ascii c in
  (((9 <=? n) && (n <=? 13)) || (n =? 32))%N.

Definition isDigit (c : ascii) : bool :=
  let n := N_of_ascii c in ((48 <=? n) && (n <=? 57))%N.

Definition digitValue (c : ascii) : Z := Z.of_N (N_of_ascii c) - 48.

Fixpoint trimStart (s : string) : string :=
  match s with
  | String c s' => if isWhiteSpace c then trimStart s' else s
  | EmptyString => EmptyString
  end.

Definition trimEnd (s : string) : string :=
  String.rev (trimStart (String.rev s)).

(** [s.trim()] *)
Definition trim (s : string) : string := trimEnd (trimStart s).

Definition upperChar (c : ascii) : ascii :=
  let n := N_of_ascii c in
  if ((97 <=? n) && (n <=? 122))%N then ascii_of_N (n - 32) else c.

(** [s.toUpperCase()] *)
Fixpoint toUpperCase (s : string) : string :=
  match s with
  | String c s' => String (upperChar c) (toUpperCase s')
  | EmptyString => EmptyString
  end.

(** [s.lastIndexOf(c)] for a one-character pattern; [-1] when absent. *)
Fixpoint lastIndexOf (c : ascii) (s : string) : Z :=
  match s with
  | EmptyString => -1
  | String c' s' =>
      let r := lastIndexOf c s' in
      if 0 <=? r then r + 1
      else if Ascii.eqb c' c then 0 else -1
  end.

(** [s.substring(from, to)] for [0 <= from <= to]. *)
Definition substring (from to : Z) (s : string) : string :=
  String.substring (Z.to_nat from) (Z.to_nat (to - from)) s.

(** [s.substring(from)] *)
Definition substringFrom (from : Z) (s : string) : string :=
  String.substring (Z.to_nat from) (String.length s - Z.to_nat from) s.

(** Does the character occur in the string? *)
Fixpoint occurs (c : ascii) (s : string) : bool :=
  match s with
  | EmptyString => false
  | String c' s' => Ascii.eqb c' c || occurs c s'
  end.

(** Value of the longest prefix of decimal digits, most significant
    digit first. *)
Fixpoint digitsValue (acc : Z) (s : string) : Z :=
  match s with
  | String c s' =>
      if isDigit c then digitsValue (10 * acc + digitValue c) s' else acc
  | EmptyString => acc
  end.

(** [parseInt(s, 10)]: skip leading white space, read an optional sign,
    then the longest run of decimal digits; [NaN] ([None]) when that run
    is empty. Characters after the run are ignored. *)
Definition parseInt (s : string) : option Z :=
  let S := trimStart s in
  let '(sign, Z) :=
    match S with
    | String "-"%char r => (-1, r)
    | String "+"%char r => (1, r)
    | _ => (1, S)
    end in
  match Z with
  | String c _ => if isDigit c then Some (sign * digitsValue 0 Z) else None
  | EmptyString => None
  end.

(** The double-quote character. *)
Definition quote : ascii := ascii_of_N 34.

(** [String(n)] for an integer [n]. *)
Definition toString (n : Z) : string :=
  NilZero.string_of_int (Z.to_int n).

Fixpoint repeat (c : ascii) (n : nat) : string :=
  match n with
  | O => EmptyString
  | S n' => String c (repeat c n')
  end.

(** [s.padStart(width, c)] for a one-character filler. *)
Definition padStart (width : nat) (c : ascii) (s : string) : string :=
  repeat c (width - String.length s) +:+ s.

(** [array.sort(compare)]: the stable sort by a comparator that returns
    a negative number, zero or a positive number. *)
Section Sort.
Context {A : Type} (compare : A → A → Z).

Fixpoint insertSorted (x : A) (l : list A) : list A :=
  match l with
  | [] => [x]
  | y :: l' =>
      if compare x y <=? 0 then x :: l else y :: insertSorted x l'
  end.

Definition sort (l : list A) : list A := foldr insertSorted [] l.
End Sort.

(** Names that every plain object inherits from [Object.prototype]:
    reading them on an object literal yields a function (or the
    prototype itself), never [undefined]. *)
Definition objectPrototypeKeys : list string :=
  [ "constructor"; "__defineGetter__"; "__defineSetter__";
    "hasOwnProperty"; "__lookupGetter__"; "__lookupSetter__";
    "isPrototypeOf"; "propertyIsEnumerable"; "toString"; "valueOf";
    "__proto__"; "toLocaleString" ].

Definition isInherited (k : string) : bool :=
  bool_decide (k ∈ objectPrototypeKeys).

(** A property name is an array index when it is the canonical decimal
    form of an integer below [2^32 - 1]. *)
Fixpoint allDigits (s : string) : bool :=
  match s with
  | EmptyString => true
  | String c s' => isDigit c && allDigits s'
  end.

Definition arrayIndex (k : string) : option Z :=
  match k with
  | EmptyString => None
  | String c rest =>
      if allDigits k && (negb (Ascii.eqb c "0") || bool_decide (rest = ""))
      then let v := digitsValue 0 k in
           if v <? 4294967295 then Some v else None
      else None
  end.

(** An object used as a dictionary: its own properties in creation
    order. *)
Abbreviation Dict V := (list (string * V)).

Definition own {V} (k : string) (o : Dict V) : option V :=
  snd <$> List.find (λ kv, bool_decide (kv.1 = k)) o.

Fixpoint update {V} (k : string) (f : option V → V) (o : Dict V) : Dict V :=
  match o with
  | [] => [(k, f None)]
  | (k', v) :: o' =>
      if bool_decide (k' = k) then (k', f (Some v)) :: o'
      else (k', v) :: update k f o'
  end.

(** [Object.entries(o)]: array-index names first, in ascending numeric
    order, then the other names in creation order. *)
Definition entries {V} (o : Dict V) : list (string * V) :=
  let idx := omap (λ kv, (λ i, (i, kv)) <$> arrayIndex kv.1) o in
  let others := filter (λ kv, arrayIndex kv.1 = None) o in
  (snd <$> sort (λ a b, a.1 - b.1) idx) ++ others.

(** [Object.keys(o)] *)
Definition keys {V} (o : Dict V) : list string := fst <$> entries o.

(** [parts.join(separator)] *)
Fixpoint join (separator : string) (parts : list string) : string :=
  match parts with
  | [] => EmptyString
  | [part] => part
  | part :: rest => part +:+ separator +:+ join separator rest
  end.

(** The line feed character. *)
Definition lineFeed : ascii := ascii_of_N 10.

(** [(num / den).toFixed(2)] for a quotient [num / den >= 0] that the
    division computes exactly (as a division by a power of two does):
    the nearest multiple of [1/100], the larger one in a tie, printed
    with two decimals. *)
Definition toFixed2 (num den : Z) : string :=
  let n := (2 * 100 * num + den) / (2 * den) in
  toString (n / 100) +:+ "." +:+ padStart 2 "0" (toString (n mod 100)).

End Js.

(** ** The shared declarations of [app/types] *)
Module Types.

(** A browser [File]: only its name, declared type and size matter. *)
Record File : Type := { name : string; type : string; size : Z }.

Record ParsedFile : Type := {
  pf_originalFilename : string;
  pf_sku : string;
  pf_sortOrder : Z;
  pf_file : File;
  pf_isValid : bool;
  pf_error : option string
}.

Record ParsedFileData : Type := {
  originalFilename : string;
  sku : string;
  sortOrder : Z;
  fileData : list Byte.byte;
  fileType : string;
  fileSize : Z;
  isValid : bool;
  error : option string
}.

Inductive UploadStrategy : Type := Replace | Prepend | Append.

(** [altTextByPosition] is read through [?.], so it may be missing. *)
Record UploadSettings : Type := {
  dryRun : bool;
  uploadStrategy : UploadStrategy;
  seoOptimization : bool;
  altTextByPosition : option (gmap Z string)
}.

Record ProductData : Type := {
  id : string;
  title : string;
  mediaIds : list string
}.

Inductive Status : Type := Skipped | Success | Error | DryRun.

Record ProcessingResult : Type := {
  filename : string;
  detectedSku : string;
  productFound : bool;
  productTitle : option string;
  productId : option string;
  status : Status;
  errorDetails : option string
}.

Record StagedUploadTarget : Type := {
  url : string;
  resourceUrl : string;
  parameters : list (string * string)
}.

(** The [summary] of an [ActionResponse]; [dryRun] is only written by
    [generateSummary]. *)
Record Summary : Type := {
  total : nat;
  successful : nat;
  failed : nat;
  skipped : nat;
  dryRunCount : option nat
}.

Record ActionResponse : Type := {
  success : bool;
  results : list ProcessingResult;
  summary : Summary
}.

#[global] Instance UploadStrategy_eq_dec : EqDecision UploadStrategy.
Proof. solve_decision. Defined.

#[global] Instance Status_eq_dec : EqDecision Status.
Proof. solve_decision. Defined.

End Types.

(** ** [app/utils/fileParser.ts] *)
Module FileParser.

(** The four [throw] sites of [parseFilename]. *)
Inductive ParseError : Type :=
| NoSeparator
| EmptySku
| InvalidSortNumber (sortStr : string)
| NegativeSortNumber.

(** The message of the [Error] thrown. *)
Definition message (e : ParseError) : string :=
  match e with
  | NoSeparator => "No hyphen found - cannot determine sort order"
  | EmptySku => "SKU cannot be empty"
  | InvalidSortNumber sortStr =>
      "Invalid sort number: " +:+ String Js.quote (sortStr +:+ String Js.quote "")
  | NegativeSortNumber => "Sort number cannot be negative"
  end.

Record ParseResult : Type := { sku : string; sortOrder : Z }.

(** Does the whole of [s] match [[^/.]+]: at least one character, none of
    them a slash or a dot? *)
Fixpoint isExtension (s : string) : bool :=
  match s with
  | EmptyString => false
  | String c rest =>
      negb (Ascii.eqb c "/") && negb (Ascii.eqb c ".")
      && (bool_decide (rest = "") || isExtension rest)
  end.

(** [filename.replace(/\.[^/.]+$/, "")]: the first position, from the
    left, where a dot is followed by an extension up to the end of the
    name; the name is cut there. *)
Fixpoint removeExtension (filename : string) : string :=
  match filename with
  | EmptyString => EmptyString
  | String c rest =>
      if Ascii.eqb c "." && isExtension rest then EmptyString
      else String c (removeExtension rest)
  end.

Definition parseFilename (filename : string) : Result ParseError ParseResult :=
  let nameWithoutExt := removeExtension filename in
  let lastHyphenIndex := Js.lastIndexOf "-" nameWithoutExt in
  if lastHyphenIndex =? -1 then Raise NoSeparator
  else if lastHyphenIndex =? 0 then Raise EmptySku
  else
    let sku := Js.trim (Js.substring 0 lastHyphenIndex nameWithoutExt) in
    let sortStr := Js.trim (Js.substringFrom (lastHyphenIndex + 1) nameWithoutExt) in
    if bool_decide (sku = "") then Raise EmptySku
    else
      match Js.parseInt sortStr with
      | None => Raise (InvalidSortNumber sortStr)
      | Some sortOrder =>
          if sortOrder <? 0 then Raise NegativeSortNumber
          else Return {| sku := Js.toUpperCase sku; sortOrder := sortOrder |}
      end.

Definition compareSortOrder (a b : Types.ParsedFileData) : Z :=
  Types.sortOrder a - Types.sortOrder b.

(** The first loop of [groupFilesBySku]. As in the pattern analyzer, a
    SKU that names a property inherited from [Object.prototype] makes
    the [push] throw a [TypeError]. *)
Definition pushFile (acc : Result string (Js.Dict (list Types.ParsedFileData)))
    (file : Types.ParsedFileData)
    : Result string (Js.Dict (list Types.ParsedFileData)) :=
  match acc with
  | Raise e => Raise e
  | Return grouped =>
      if negb (Types.isValid file) then Return grouped
      else if Js.isInherited (Types.sku file)
      then Raise "grouped[file.sku].push is not a function"
      else Return (Js.update (Types.sku file) (λ o, default [] o ++ [file]) grouped)
  end.

(** [groupFilesBySku]: group, then sort every group by [sortOrder]. *)
Definition groupFilesBySku (files : list Types.ParsedFileData)
    : Result string (Js.Dict (list Types.ParsedFileData)) :=
  match fold_left pushFile files (Return []) with
  | Raise e => Raise e
  | Return grouped =>
      Return ((λ g, (g.1, Js.sort compareSortOrder g.2)) <$> grouped)
  end.

(** [getUniqueSKUs]: a [Set] keeps the order of first insertion. *)
Definition getUniqueSKUs (files : list Types.ParsedFileData) : list string :=
  fold_left (λ skus file,
               if Types.isValid file && negb (bool_decide (Types.sku file = ""))
               then if bool_decide (Types.sku file ∈ skus) then skus
                    else skus ++ [Types.sku file]
               else skus)
            files [].


Definition ALLOWED_TYPES : list string :=
  [ "image/jpeg"; "image/png"; "image/gif"; "image/webp"; "image/jpg" ].

Definition MAX_SIZE : Z := 20 * 1024 * 1024.

(** The object [{ valid, error? }] returned by [validateFile]. *)
Record Validation : Type := { valid : bool; error : option string }.

(** [validateFile]: the type is checked first, then the upper limit of
    the size, then the empty file. *)
Definition validateFile (file : Types.File) : Validation :=
  if negb (bool_decide (Types.type file ∈ ALLOWED_TYPES))
  then {| valid := false;
          error :=
            Some ("Invalid file type: "
                  +:+ (if bool_decide (Types.type file = "") then "unknown"
                       else Types.type file)
                  +:+ ". Allowed: JPEG, PNG, GIF, WebP") |}
  else if MAX_SIZE <? Types.size file
  then {| valid := false;
          error :=
            Some ("File exceeds 20MB limit ("
                  +:+ Js.toFixed2 (Types.size file) (1024 * 1024) +:+ "MB)") |}
  else if Types.size file =? 0
  then {| valid := false; error := Some "File is empty" |}
  else {| valid := true; error := None |}.

(** [parseAndValidateFile]: the file is validated, then its name is
    parsed; what [parseFilename] throws is an [Error], whose message is
    kept. *)
Definition parseAndValidateFile (file : Types.File) : Types.ParsedFile :=
  let validation := validateFile file in
  if negb (valid validation)
  then {| Types.pf_originalFilename := Types.name file;
          Types.pf_sku := "";
          Types.pf_sortOrder := 0;
          Types.pf_file := file;
          Types.pf_isValid := false;
          Types.pf_error := error validation |}
  else
    match parseFilename (Types.name file) with
    | Return r =>
        {| Types.pf_originalFilename := Types.name file;
           Types.pf_sku := sku r;
           Types.pf_sortOrder := sortOrder r;
           Types.pf_file := file;
           Types.pf_isValid := true;
           Types.pf_error := None |}
    | Raise e =>
        {| Types.pf_originalFilename := Types.name file;
           Types.pf_sku := "";
           Types.pf_sortOrder := 0;
           Types.pf_file := file;
           Types.pf_isValid := false;
           Types.pf_error := Some (message e) |}
    end.

(** [parseFiles] *)
Definition parseFiles (files : list Types.File) : list Types.ParsedFile :=
  parseAndValidateFile <$> files.

End FileParser.

(** ** [app/utils/patternAnalyzer.ts] *)
Module PatternAnalyzer.

Record MissingImageWarning : Type := {
  sku : string;
  expectedCount : nat;
  actualCount : nat;
  missingNumbers : list Z;
  hasGaps : bool
}.

Record PatternAnalysis : Type := {
  mostCommonCount : nat;
  totalSkus : nat;
  skusWithExpectedCount : nat;
  warnings : list MissingImageWarning;
  isConsistentPattern : bool
}.

(** The grouping loop. Reading [skuGroups[file.sku]] for a name inherited
    from [Object.prototype] is truthy, no array is created, and the
    [push] that follows throws a [TypeError]. *)
Definition pushSortOrder (acc : Result string (Js.Dict (list Z)))
    (file : Types.ParsedFile) : Result string (Js.Dict (list Z)) :=
  match acc with
  | Raise e => Raise e
  | Return skuGroups =>
      if Js.isInherited (Types.pf_sku file)
      then Raise "skuGroups[file.sku].push is not a function"
      else Return (Js.update (Types.pf_sku file)
                     (λ o, default [] o ++ [Types.pf_sortOrder file]) skuGroups)
  end.

Definition groupSortOrders (validFiles : list Types.ParsedFile)
    : Result string (Js.Dict (list Z)) :=
  fold_left pushSortOrder validFiles (Return []).

(** [countFrequency[count] = (countFrequency[count] || 0) + 1] *)
Definition countGroup (countFrequency : gmap nat nat) (g : string * list Z)
    : gmap nat nat :=
  let count := length g.2 in
  <[count := (default 0 (countFrequency !! count) + 1)%nat]> countFrequency.

Definition countFrequency (groups : list (string * list Z)) : gmap nat nat :=
  fold_left countGroup groups ∅.

(** [Object.entries(countFrequency)]: every key is a count, hence an
    array index, and the runtime lists such keys in ascending numeric
    order; [parseInt(count)] turns the key back into the number. *)
Definition frequencyEntries (m : gmap nat nat) : list (nat * nat) :=
  Js.sort (λ a b, Z.of_nat a.1 - Z.of_nat b.1) (map_to_list m).

(** The loop that finds the most common count: the pair
    [(mostCommonCount, maxFrequency)]. *)
Definition keepMoreFrequent (best entry : nat * nat) : nat * nat :=
  let '(mostCommonCount, maxFrequency) := best in
  let '(count, frequency) := entry in
  if (maxFrequency <? frequency)%nat
  then (count, frequency)
  else (mostCommonCount, maxFrequency).

Definition mostCommon (entries : list (nat * nat)) : nat * nat :=
  fold_left keepMoreFrequent entries (O, O).

(** [Math.min(...l)] and [Math.max(...l)] of a non-empty array. *)
Definition minOf (x : Z) (l : list Z) : Z := foldr Z.min x l.
Definition maxOf (x : Z) (l : list Z) : Z := foldr Z.max x l.

(** The gap loop [for (i = minSort; i <= maxSort; i++)], which keeps
    the [i] with [!sortOrders.includes(i)]. *)
Definition gaps (sortOrders : list Z) : list Z :=
  match sortOrders with
  | [] => []
  | x :: l =>
      let minSort := minOf x l in
      let maxSort := maxOf x l in
      filter (λ i, i ∉ sortOrders) (seqZ minSort (maxSort - minSort + 1))
  end.

(** The numbers appended after the last one when images are missing at
    the end: [lastNumber + 1 .. lastNumber + (mostCommonCount - actualCount)]. *)
Definition trailing (sortOrders : list Z) (deficit : Z) : list Z :=
  match sortOrders with
  | [] => []
  | x :: l => seqZ (maxOf x l + 1) deficit
  end.

(** One turn of the warning loop, for one SKU. *)
Definition analyzeSku (mostCommonCount : nat) (isConsistentPattern : bool)
    (sku : string) (orders : list Z) : option MissingImageWarning :=
  let sortOrders := Js.sort (λ a b, a - b) orders in
  let actualCount := length sortOrders in
  let found := gaps sortOrders in
  let hasFewerThanExpected :=
    isConsistentPattern && (actualCount <? mostCommonCount)%nat in
  let hasGaps := negb (length found =? 0)%nat in
  let missingNumbers :=
    if hasFewerThanExpected && negb hasGaps
    then found ++ trailing sortOrders
                    (Z.of_nat mostCommonCount - Z.of_nat actualCount)
    else found in
  if hasGaps || hasFewerThanExpected
  then Some {| sku := sku;
               expectedCount := mostCommonCount;
               actualCount := actualCount;
               missingNumbers := missingNumbers;
               hasGaps := hasGaps |}
  else None.

Section Analyze.
(** [a.localeCompare(b)] of the host: negative, zero or positive. *)
Context (localeCompare : string → string → Z).

Definition analyzeImagePattern (files : list Types.ParsedFile)
    : Result string (option PatternAnalysis) :=
  let validFiles := filter (λ f, Types.pf_isValid f) files in
  if (length validFiles =? 0)%nat then Return None
  else
    match groupSortOrders validFiles with
    | Raise e => Raise e
    | Return skuGroups =>
        let skus := Js.keys skuGroups in
        (* the loops [for (const sku of skus)] read [skuGroups[sku]] *)
        let groups := Js.entries skuGroups in
        if (length skus =? 0)%nat then Return None
        else
          let '(mostCommonCount, maxFrequency) :=
            mostCommon (frequencyEntries (countFrequency groups)) in
          if (length skus <? 2)%nat then Return None
          else
            let isConsistentPattern :=
              (length skus <=? 2 * maxFrequency)%nat in
            let warnings :=
              omap (λ g, analyzeSku mostCommonCount isConsistentPattern g.1 g.2)
                   groups in
            Return (Some {|
              mostCommonCount := mostCommonCount;
              totalSkus := length skus;
              skusWithExpectedCount := maxFrequency;
              warnings :=
                Js.sort (λ a b, localeCompare (sku a) (sku b)) warnings;
              isConsistentPattern := isConsistentPattern |})
    end.
End Analyze.


(** [String(n).padStart(2, "0")] *)
Definition twoDigits (n : Z) : string := Js.padStart 2 "0" (Js.toString n).

(** The text pushed for the run of numbers from [start] to [end_]. *)
Definition formatRun (start end_ : Z) : string :=
  if start =? end_ then twoDigits start
  else twoDigits start +:+ "-" +:+ twoDigits end_.

(** The loop of [formatMissingNumbers] from index [i] on: [rest] holds
    the numbers from that index, and at its end ([i = numbers.length])
    the last run is pushed. *)
Fixpoint formatLoop (start end_ : Z) (rest : list Z) (groups : list string)
    : list string :=
  match rest with
  | [] => groups ++ [formatRun start end_]
  | n :: rest' =>
      if n =? end_ + 1 then formatLoop start n rest' groups
      else formatLoop n n rest' (groups ++ [formatRun start end_])
  end.

(** [formatMissingNumbers] *)
Definition formatMissingNumbers (numbers : list Z) : string :=
  match numbers with
  | [] => ""
  | [n] => twoDigits n
  | n :: rest => Js.join ", " (formatLoop n n rest [])
  end.

End PatternAnalyzer.

(** ** [app/utils/imageQueue.server.ts] *)
Module ImageQueue.
Import Types.

(** Maximum concurrent uploads. *)
Definition MAX_CONCURRENT : nat := 5.

(** What a rejected call throws: an [Error] with its message, or some
    other value. *)
Inductive Thrown : Type :=
| ErrorObject (message : string)
| OtherValue.

(** The calls of [shopifyMedia.server] made by the queue. *)
Inductive Call : Type :=
| CreateStagedUpload (file : ParsedFileData)
| UploadToStagedTarget (target : StagedUploadTarget) (file : ParsedFileData)
| CreateProductMedia (productId resourceUrl : string) (altText : option string)
| DeleteProductMedia (productId : string) (mediaIds : list string)
| ReorderProductMedia (productId : string) (newImagesCount : nat).

(** What happens during a run, in the order it happens: a call is
    answered ([failure] is what it threw, if it did), the pool starts the
    task submitted at some position, the promise of a task settles and
    its slot in the pool is free again. *)
Inductive Event : Type :=
| Answered (call : Call) (failure : option Thrown)
| Started (index : nat)
| Settled (index : nat).

(** The calls answered so far. *)
Definition calls (log : list Event) : list Call :=
  omap (λ e, match e with Answered call _ => Some call | _ => None end) log.

Definition thrown {A} (r : Result Thrown A) : option Thrown :=
  match r with Return _ => None | Raise e => Some e end.

(** The remote side. Every answer may depend on the calls answered so
    far. [nextToSettle] stands for the event loop and the network: it
    picks which of the calls in flight is answered next. *)
Record Remote : Type := {
  createStagedUpload :
    list Call → ParsedFileData → Result Thrown StagedUploadTarget;
  uploadToStagedTarget :
    list Call → StagedUploadTarget → ParsedFileData → Result Thrown unit;
  createProductMedia :
    list Call → string → string → option string → Result Thrown string;
  deleteProductMedia :
    list Call → string → list string → Result Thrown unit;
  reorderProductMedia :
    list Call → string → nat → Result Thrown unit;
  nextToSettle : list Call → nat
}.

Record UploadTask : Type := {
  file : ParsedFileData;
  product : ProductData;
  settings : UploadSettings
}.

(** [customText || fallback]: the empty string is falsy. *)
Definition orElse (customText : option string) (fallback : string) : string :=
  match customText with
  | Some text => if bool_decide (text = "") then fallback else text
  | None => fallback
  end.

(** The alt text computed at the head of [processOneUpload]. *)
Definition altTextOf (task : UploadTask) : option string :=
  if seoOptimization (settings task) then
    let customText :=
      altTextByPosition (settings task) ≫= (λ m, m !! sortOrder (file task)) in
    let suffix :=
      orElse customText
        ("View " +:+ Js.padStart 2 "0" (Js.toString (sortOrder (file task)))) in
    Some (title (product task) +:+ " - " +:+ suffix)
  else None.

Definition successResult (task : UploadTask) : ProcessingResult :=
  {| filename := originalFilename (file task);
     detectedSku := sku (file task);
     productFound := true;
     productTitle := Some (title (product task));
     productId := Some (id (product task));
     status := Success;
     errorDetails := None |}.

Definition errorResult (task : UploadTask) (e : Thrown) : ProcessingResult :=
  {| filename := originalFilename (file task);
     detectedSku := sku (file task);
     productFound := true;
     productTitle := Some (title (product task));
     productId := Some (id (product task));
     status := Error;
     errorDetails :=
       Some match e with
            | ErrorObject message => message
            | OtherValue => "Unknown upload error"
            end |}.

(** [processOneUpload] run on its own: the three awaited steps inside
    one [try]. *)
Definition processOneUpload (remote : Remote) (log : list Event)
    (task : UploadTask) : ProcessingResult * list Event :=
  let altText := altTextOf task in
  let c1 := CreateStagedUpload (file task) in
  match createStagedUpload remote (calls log) (file task) with
  | Raise e => (errorResult task e, log ++ [Answered c1 (Some e)])
  | Return stagedTarget =>
      let log1 := log ++ [Answered c1 None] in
      let c2 := UploadToStagedTarget stagedTarget (file task) in
      match uploadToStagedTarget remote (calls log1) stagedTarget (file task) with
      | Raise e =>
          (errorResult task e, log1 ++ [Answered c2 (Some e)])
      | Return _ =>
          let log2 := log1 ++ [Answered c2 None] in
          let c3 := CreateProductMedia (id (product task))
                      (resourceUrl stagedTarget) altText in
          match createProductMedia remote (calls log2) (id (product task))
                  (resourceUrl stagedTarget) altText with
          | Raise e =>
              (errorResult task e, log2 ++ [Answered c3 (Some e)])
          | Return _ =>
              (successResult task, log2 ++ [Answered c3 None])
          end
      end
  end.

(** *** The pool of [pLimit(MAX_CONCURRENT)]

    A task started by the pool is in flight until its promise settles.
    Between two awaits it is at one of these stages. *)
Inductive Stage : Type :=
| Requested
| StagedTargetReady (target : StagedUploadTarget)
| BytesUploaded (target : StagedUploadTarget).

Record InFlight : Type := { index : nat; task : UploadTask; stage : Stage }.

(** The awaited call of a task in flight is answered: the task moves to
    its next await, or settles with its result. *)
Definition advance (remote : Remote) (log : list Event) (r : InFlight)
    : list Event * (InFlight + ProcessingResult) :=
  let t := task r in
  match stage r with
  | Requested =>
      let c := CreateStagedUpload (file t) in
      match createStagedUpload remote (calls log) (file t) with
      | Raise e => (log ++ [Answered c (Some e)], inr (errorResult t e))
      | Return target =>
          (log ++ [Answered c None],
           inl {| index := index r; task := t; stage := StagedTargetReady target |})
      end
  | StagedTargetReady target =>
      let c := UploadToStagedTarget target (file t) in
      match uploadToStagedTarget remote (calls log) target (file t) with
      | Raise e => (log ++ [Answered c (Some e)], inr (errorResult t e))
      | Return _ =>
          (log ++ [Answered c None],
           inl {| index := index r; task := t; stage := BytesUploaded target |})
      end
  | BytesUploaded target =>
      let c := CreateProductMedia (id (product t)) (resourceUrl target) (altTextOf t) in
      match createProductMedia remote (calls log) (id (product t))
              (resourceUrl target) (altTextOf t) with
      | Raise e => (log ++ [Answered c (Some e)], inr (errorResult t e))
      | Return _ => (log ++ [Answered c None], inr (successResult t))
      end
  end.

(** The state of the pool: the tasks waiting in its queue (first in,
    first out), the tasks in flight, the results of the settled ones by
    position, and the log. *)
Record Pool : Type := {
  queue : list (nat * UploadTask);
  active : list InFlight;
  settled : gmap nat ProcessingResult;
  log : list Event
}.

(** The pool starts the task at the head of its queue when fewer than
    [MAX_CONCURRENT] tasks are in flight. *)
Definition startNext (p : Pool) : Pool :=
  match queue p with
  | [] => p
  | (i, t) :: q =>
      if (length (active p) <? MAX_CONCURRENT)%nat
      then {| queue := q;
              active := active p ++ [{| index := i; task := t; stage := Requested |}];
              settled := settled p;
              log := log p ++ [Started i] |}
      else p
  end.

(** [sortedFiles.map((file) => limit(() => processOneUpload(..)))]:
    every task is put in the queue, and the pool is asked once per task
    to start one. *)
Definition dispatch (tasks : list UploadTask) (log : list Event) : Pool :=
  Nat.iter (length tasks) startNext
    {| queue := imap pair tasks; active := []; settled := ∅; log := log |}.

(** One answer arrives. When it settles its task, the slot is released
    and the pool starts the next queued task. *)
Definition poolStep (remote : Remote) (p : Pool) : Pool :=
  match active p with
  | [] => p
  | _ :: _ =>
      let k := (nextToSettle remote (calls (log p)) `mod` length (active p))%nat in
      match active p !! k with
      | None => p
      | Some r =>
          match advance remote (log p) r with
          | (log', inl r') =>
              {| queue := queue p;
                 active := <[k := r']> (active p);
                 settled := settled p;
                 log := log' |}
          | (log', inr result) =>
              startNext {| queue := queue p;
                           active := delete k (active p);
                           settled := <[index r := result]> (settled p);
                           log := log' ++ [Settled (index r)] |}
          end
      end
  end.

(** The pool after [n] answers. *)
Definition poolAfter (remote : Remote) (n : nat) (p : Pool) : Pool :=
  Nat.iter n (poolStep remote) p.

(** [await Promise.all(uploadPromises)]: every task needs at most three
    answers; the results come in the order of submission. *)
Definition awaitAll (remote : Remote) (tasks : list UploadTask)
    (log : list Event) : list ProcessingResult * list Event :=
  let p := poolAfter remote (3 * length tasks) (dispatch tasks log) in
  (omap (λ i, settled p !! i) (seq 0 (length tasks)), ImageQueue.log p).

(** [processProductFiles] *)
Definition processProductFiles (remote : Remote) (files : list ParsedFileData)
    (product : ProductData) (settings : UploadSettings) (log : list Event)
    : list ProcessingResult * list Event :=
  let sortedFiles := Js.sort FileParser.compareSortOrder files in
  let log1 :=
    if bool_decide (uploadStrategy settings = Replace)
    then if (0 <? length (mediaIds product))%nat
         then log ++ [Answered (DeleteProductMedia (id product) (mediaIds product))
                        (thrown (deleteProductMedia remote (calls log)
                                   (id product) (mediaIds product)))]
         else log
    else log in
  let tasks :=
    (λ file, {| file := file; product := product; settings := settings |})
      <$> sortedFiles in
  let '(uploadResults, log2) := awaitAll remote tasks log1 in
  let log3 :=
    if bool_decide (uploadStrategy settings = Prepend)
       && (0 <? length (mediaIds product))%nat
    then
      let successfulUploads :=
        filter (λ r, status r = Success) uploadResults in
      if (0 <? length successfulUploads)%nat
      then log2 ++ [Answered (ReorderProductMedia (id product) (length successfulUploads))
                      (thrown (reorderProductMedia remote (calls log2)
                                 (id product) (length successfulUploads)))]
      else log2
    else log2 in
  (uploadResults, log3).

Definition skippedResult (sku : string) (file : ParsedFileData) : ProcessingResult :=
  {| filename := originalFilename file;
     detectedSku := Types.sku file;
     productFound := false;
     productTitle := None;
     productId := None;
     status := Skipped;
     errorDetails := Some ("No product found with SKU: " +:+ sku) |}.

Definition dryRunResult (product : ProductData) (file : ParsedFileData)
    : ProcessingResult :=
  {| filename := originalFilename file;
     detectedSku := Types.sku file;
     productFound := true;
     productTitle := Some (title product);
     productId := Some (id product);
     status := DryRun;
     errorDetails := None |}.

(** One turn of the loop over the SKU groups. *)
Definition processGroup (remote : Remote) (productMap : gmap string ProductData)
    (settings : UploadSettings) (acc : list ProcessingResult * list Event)
    (group : string * list ParsedFileData) : list ProcessingResult * list Event :=
  let '(allResults, log) := acc in
  let '(sku, files) := group in
  match productMap !! sku with
  | None => (allResults ++ (skippedResult sku <$> files), log)
  | Some product =>
      if dryRun settings
      then (allResults ++ (dryRunResult product <$> files), log)
      else
        let '(productResults, log') :=
          processProductFiles remote files product settings log in
        (allResults ++ productResults, log')
  end.

(** [processUploadQueue] *)
Definition processUploadQueue (remote : Remote)
    (groupedFiles : Js.Dict (list ParsedFileData))
    (productMap : gmap string ProductData) (settings : UploadSettings)
    (log : list Event) : list ProcessingResult * list Event :=
  fold_left (processGroup remote productMap settings)
            (Js.entries groupedFiles) ([], log).

Definition countStatus (s : Status) (results : list ProcessingResult) : nat :=
  length (filter (λ r, status r = s) results).

(** [generateSummary] *)
Definition generateSummary (results : list ProcessingResult) : Summary :=
  {| total := length results;
     successful := countStatus Success results;
     failed := countStatus Error results;
     skipped := countStatus Skipped results;
     dryRunCount := Some (countStatus DryRun results) |}.

End ImageQueue.

(** ** [queryProductsBySKUs] of [app/utils/shopifyMedia.server.ts] *)
Module ShopifyMedia.
Import Types.

(** The catalog answers [queryProductBySKU]: a product, [null], or a
    thrown error. Every SKU is asked once. *)
Definition Catalog : Type :=
  string → Result ImageQueue.Thrown (option ProductData).

Definition queryProductsBySKUs (queryProductBySKU : Catalog)
    (skus : list string) : gmap string ProductData :=
  fold_left (λ (productMap : gmap string ProductData) sku,
               match queryProductBySKU sku with
               | Return (Some product) => <[sku := product]> productMap
               | Return None => productMap
               | Raise _ => productMap
               end)
            skus ∅.

End ShopifyMedia.

(** ** The [action] of [app/routes/app._index.tsx] *)
Module Route.
Import Types.

(** A text field of the submitted form, read with [JSON.parse]. *)
Inductive FormField (A : Type) : Type :=
| Missing
| Malformed (message : string)
| Parsed (value : A).
Arguments Missing {A}.
Arguments Malformed {A} message.
Arguments Parsed {A} value.

Record FileMeta : Type := {
  m_originalFilename : string;
  m_sku : string;
  m_sortOrder : Z;
  m_fileType : string;
  m_fileSize : Z;
  m_isValid : bool;
  m_error : option string
}.

Record FormData : Type := {
  settingsField : FormField UploadSettings;
  filesDataField : FormField (list FileMeta);
  fileBlobs : list (list Byte.byte)
}.

Definition toParsedFileData (fileBlobs : list (list Byte.byte))
    (index : nat) (meta : FileMeta) : ParsedFileData :=
  {| originalFilename := m_originalFilename meta;
     sku := m_sku meta;
     sortOrder := m_sortOrder meta;
     fileData := default [] (fileBlobs !! index);
     fileType := m_fileType meta;
     fileSize := m_fileSize meta;
     isValid := m_isValid meta;
     error := m_error meta |}.

Definition invalidResult (f : ParsedFileData) : ProcessingResult :=
  {| filename := originalFilename f;
     detectedSku := sku f;
     productFound := false;
     productTitle := None;
     productId := None;
     status := Error;
     errorDetails := Some (ImageQueue.orElse (error f) "Invalid file") |}.

(** The body of the [try]: the response and the log of the calls made,
    or what was thrown. *)
Definition attempt (remote : ImageQueue.Remote) (catalog : ShopifyMedia.Catalog)
    (request : Result ImageQueue.Thrown FormData)
    : Result ImageQueue.Thrown (ActionResponse * list ImageQueue.Event) :=
  match request with
  | Raise e => Raise e
  | Return formData =>
      match settingsField formData with
      | Missing => Raise (ImageQueue.ErrorObject "Settings not provided")
      | Malformed message => Raise (ImageQueue.ErrorObject message)
      | Parsed settings =>
          match filesDataField formData with
          | Missing => Raise (ImageQueue.ErrorObject "Files data not provided")
          | Malformed message => Raise (ImageQueue.ErrorObject message)
          | Parsed filesMetadata =>
              let parsedFiles :=
                imap (toParsedFileData (fileBlobs formData)) filesMetadata in
              let validFiles := filter (λ f, isValid f) parsedFiles in
              let invalidResults :=
                invalidResult <$> filter (λ f, ¬ isValid f) parsedFiles in
              if (length validFiles =? 0)%nat
              then Return
                     ({| success := false;
                         results := invalidResults;
                         summary := {| total := length invalidResults;
                                       successful := 0;
                                       failed := length invalidResults;
                                       skipped := 0;
                                       dryRunCount := None |} |}, [])
              else
                match FileParser.groupFilesBySku validFiles with
                | Raise message => Raise (ImageQueue.ErrorObject message)
                | Return groupedFiles =>
                    let uniqueSKUs := FileParser.getUniqueSKUs validFiles in
                    let productMap :=
                      ShopifyMedia.queryProductsBySKUs catalog uniqueSKUs in
                    let '(uploadResults, log) :=
                      ImageQueue.processUploadQueue remote groupedFiles
                        productMap settings [] in
                    let allResults := invalidResults ++ uploadResults in
                    let summary := ImageQueue.generateSummary allResults in
                    Return ({| success := (failed summary =? 0)%nat;
                               results := allResults;
                               summary := summary |}, log)
                end
          end
      end
  end.

(** The response of the [catch]. *)
Definition failureResponse (e : ImageQueue.Thrown) : ActionResponse :=
  {| success := false;
     results :=
       [ {| filename := "Error";
            detectedSku := "";
            productFound := false;
            productTitle := None;
            productId := None;
            status := Error;
            errorDetails :=
              Some match e with
                   | ImageQueue.ErrorObject message => message
                   | ImageQueue.OtherValue => "Unknown error"
                   end |} ];
     summary := {| total := 1; successful := 0; failed := 1; skipped := 0;
                   dryRunCount := None |} |}.

(** [action]: what the caller receives. *)
Definition action (remote : ImageQueue.Remote) (catalog : ShopifyMedia.Catalog)
    (request : Result ImageQueue.Thrown FormData) : ActionResponse :=
  match attempt remote catalog request with
  | Return (response, _) => response
  | Raise e => failureResponse e
  end.


(** *** The page component [Index] *)



(** One element of [filesMetadata] in [handleProcess]. *)
Definition toFileMeta (f : ParsedFile) : FileMeta :=
  {| m_originalFilename := pf_originalFilename f;
     m_sku := pf_sku f;
     m_sortOrder := pf_sortOrder f;
     m_fileType := type (pf_file f);
     m_fileSize := size (pf_file f);
     m_isValid := pf_isValid f;
     m_error := pf_error f |}.


End Route.

(** ** [app/utils/csvExport.ts] *)
Module CsvExport.
Import Types.

(** The [replace] of [escapeCSV]: every double quote is doubled. *)
Fixpoint doubleQuotes (s : string) : string :=
  match s with
  | EmptyString => EmptyString
  | String c rest =>
      if Ascii.eqb c Js.quote
      then String Js.quote (String Js.quote (doubleQuotes rest))
      else String c (doubleQuotes rest)
  end.

(** [escapeCSV] of a string. *)
Definition escapeCSV (value : string) : string :=
  if Js.occurs "," value || Js.occurs Js.lineFeed value || Js.occurs Js.quote value
  then String Js.quote (doubleQuotes value +:+ String Js.quote "")
  else value.

(** [formatStatus] *)
Definition formatStatus (status : Status) : string :=
  match status with
  | Success => "Success"
  | Error => "Error"
  | Skipped => "Skipped"
  | DryRun => "Dry Run (Not Uploaded)"
  end.

Definition headers : list string :=
  [ "Filename"; "Detected SKU"; "Product Found"; "Product Title"; "Status";
    "Error Details" ].

(** The cells of the row of one result. *)
Definition row (result : ProcessingResult) : list string :=
  [ filename result;
    detectedSku result;
    if productFound result then "Yes" else "No";
    ImageQueue.orElse (productTitle result) "";
    formatStatus (status result);
    ImageQueue.orElse (errorDetails result) "" ].

(** [generateCSV] *)
Definition generateCSV (results : list ProcessingResult) : string :=
  Js.join (String Js.lineFeed "")
    ((λ cells, Js.join "," (escapeCSV <$> cells)) <$> (headers :: (row <$> results))).

End CsvExport.

(** ** [handleAltTextChange] of [app/components/SettingsCard.tsx] *)
Module SettingsCard.
Import Types.

(** The settings handed to [onChange] when the text of a position is
    edited. *)
Definition handleAltTextChange (settings : UploadSettings) (position : Z)
    (value : string) : UploadSettings :=
  let newAltTextByPosition := default ∅ (altTextByPosition settings) in
  {| dryRun := dryRun settings;
     uploadStrategy := uploadStrategy settings;
     seoOptimization := seoOptimization settings;
     altTextByPosition :=
       Some (if bool_decide (Js.trim value = "")
             then delete position newAltTextByPosition
             else <[position := Js.trim value]> newAltTextByPosition) |}.



End SettingsCard.

(** * Statements and proofs *)

(** ** Vocabulary of the statements *)

(** *** File names *)

(** The text before and after the last hyphen of the name without its
    extension. *)
Definition splitsAtLastHyphen (filename before after : string) : Prop :=
  FileParser.removeExtension filename = before +:+ String "-" after
  ∧ Js.occurs "-" after = false.

(** *** Sorting *)

(** [x] may stand before [y] in an array sorted with [compare]. *)
Definition notAfter {A : Type} (compare : A → A → Z) (x y : A) : Prop :=
  compare x y ≤ 0.

(** *** Pattern analysis *)

(** The sort orders of the valid files of one SKU, in the order of the
    files. *)
Definition sortOrdersOf (files : list Types.ParsedFile) (sku : string) : list Z :=
  Types.pf_sortOrder
    <$> filter (λ f, Types.pf_sku f = sku ∧ Types.pf_isValid f) files.

(** The sort orders of the files of one SKU, valid or not. *)
Definition ordersIn (files : list Types.ParsedFile) (k : string) : list Z :=
  Types.pf_sortOrder <$> filter (λ f, Types.pf_sku f = k) files.

(** A number strictly between two sort orders of the SKU is not one of
    its sort orders. *)
Definition hasGap (orders : list Z) : Prop :=
  ∃ i lo hi, lo ∈ orders ∧ hi ∈ orders ∧ lo < i < hi ∧ i ∉ orders.

(** The distinct SKUs of the valid files. *)
Definition skusOf (files : list Types.ParsedFile) : list string :=
  remove_dups (Types.pf_sku <$> filter (λ f, Types.pf_isValid f) files).

(** The number of SKUs that have exactly [count] images. *)
Definition skusWithCount (files : list Types.ParsedFile) (count : nat) : nat :=
  length (filter (λ sku, length (sortOrdersOf files sku) = count) (skusOf files)).

(** The number of groups with exactly [count] sort orders. *)
Definition groupsWithCount (groups : list (string * list Z)) (count : nat) : nat :=
  length (filter (λ g, length g.2 = count) groups).

(** *** The pool and the remote side *)

(** The answers a task in flight still waits for, at most. *)
Definition answersLeft (s : ImageQueue.Stage) : nat :=
  match s with
  | ImageQueue.Requested => 3
  | ImageQueue.StagedTargetReady _ => 2
  | ImageQueue.BytesUploaded _ => 1
  end.

Definition workLeft (p : ImageQueue.Pool) : nat :=
  3 * length (ImageQueue.queue p)
  + sum_list_with (λ r, answersLeft (ImageQueue.stage r)) (ImageQueue.active p).

(** Tasks wait in the queue only while the pool is full. *)
Definition saturated (p : ImageQueue.Pool) : Prop :=
  ImageQueue.queue p ≠ [] → length (ImageQueue.active p) = ImageQueue.MAX_CONCURRENT.

(** Every one of the first [n] tasks is queued, in flight or settled. *)
Definition covers (n : nat) (p : ImageQueue.Pool) : Prop :=
  ∀ i, (i < n)%nat →
       i ∈ (ImageQueue.queue p).*1
       ∨ i ∈ ImageQueue.index <$> ImageQueue.active p
       ∨ is_Some (ImageQueue.settled p !! i).

(** The result of a task is decided by its own three calls. *)
Definition resultOf (t : ImageQueue.UploadTask) (result : Types.ProcessingResult) : Prop :=
  result = ImageQueue.successResult t ∨ ∃ e, result = ImageQueue.errorResult t e.

(** Every entry of the pool belongs to the task submitted at its index. *)
Definition wellIndexed (tasks : list ImageQueue.UploadTask) (p : ImageQueue.Pool) : Prop :=
  (∀ i t, (i, t) ∈ ImageQueue.queue p → tasks !! i = Some t)
  ∧ (∀ r, r ∈ ImageQueue.active p → tasks !! ImageQueue.index r = Some (ImageQueue.task r))
  ∧ (∀ i result, ImageQueue.settled p !! i = Some result →
                 ∃ t, tasks !! i = Some t ∧ resultOf t result).

(** The upload tasks of a group, in the order of submission. *)
Definition tasksOf (files : list Types.ParsedFileData) (product : Types.ProductData)
    (settings : Types.UploadSettings) : list ImageQueue.UploadTask :=
  (λ file, {| ImageQueue.file := file;
              ImageQueue.product := product;
              ImageQueue.settings := settings |})
    <$> Js.sort FileParser.compareSortOrder files.

(** The event of the delete call made for a product on the log [log0]. *)
Definition deleteEvent (remote : ImageQueue.Remote) (log0 : list ImageQueue.Event)
    (product : Types.ProductData) : ImageQueue.Event :=
  ImageQueue.Answered
    (ImageQueue.DeleteProductMedia (Types.id product) (Types.mediaIds product))
    (ImageQueue.thrown
       (ImageQueue.deleteProductMedia remote (ImageQueue.calls log0)
          (Types.id product) (Types.mediaIds product))).

(** The calls made by an upload task. *)
Definition isUploadCall (c : ImageQueue.Call) : Prop :=
  match c with
  | ImageQueue.CreateStagedUpload _
  | ImageQueue.UploadToStagedTarget _ _
  | ImageQueue.CreateProductMedia _ _ _ => True
  | ImageQueue.DeleteProductMedia _ _
  | ImageQueue.ReorderProductMedia _ _ => False
  end.

(** The events of the upload phase of a group: the pool starts and
    settles tasks, and calls of upload tasks are answered. *)
Definition isUploadEvent (e : ImageQueue.Event) : Prop :=
  match e with
  | ImageQueue.Answered call _ => isUploadCall call
  | ImageQueue.Started _ | ImageQueue.Settled _ => True
  end.

(** What an event changes in the number of tasks in flight. *)
Definition slotChange (e : ImageQueue.Event) : Z :=
  match e with
  | ImageQueue.Started _ => 1
  | ImageQueue.Settled _ => -1
  | ImageQueue.Answered _ _ => 0
  end.

(** The number of tasks in flight after the events of a log: the tasks
    started and not yet settled. *)
Definition inFlight (log : list ImageQueue.Event) : Z :=
  foldr (λ e n, slotChange e + n) 0 log.

(** The number of tasks in flight after each event of a log. *)
Fixpoint inFlightAfterEach (n : Z) (events : list ImageQueue.Event) : list Z :=
  match events with
  | [] => []
  | e :: rest => (n + slotChange e) :: inFlightAfterEach (n + slotChange e) rest
  end.

(** With [n] tasks in flight at first, the events never leave fewer than
    no task or more than [MAX_CONCURRENT] tasks in flight. *)
Fixpoint withinWidth (n : Z) (events : list ImageQueue.Event) : Prop :=
  match events with
  | [] => True
  | e :: rest =>
      0 ≤ n + slotChange e ≤ Z.of_nat ImageQueue.MAX_CONCURRENT
      ∧ withinWidth (n + slotChange e) rest
  end.

(** The pool [p] has grown from the log [log0]: the events added are
    events of the upload phase, they keep the number of tasks in flight
    within the width of the pool, and the tasks in flight are the tasks
    started and not yet settled. *)
Definition tracks (log0 : list ImageQueue.Event) (p : ImageQueue.Pool) : Prop :=
  ∃ events,
    ImageQueue.log p = log0 ++ events
    ∧ Forall isUploadEvent events
    ∧ withinWidth 0 events
    ∧ inFlight events = Z.of_nat (length (ImageQueue.active p)).

(** Two remote sides that answer the calls of the upload tasks alike. *)
Definition sameUploads (r1 r2 : ImageQueue.Remote) : Prop :=
  ImageQueue.createStagedUpload r1 = ImageQueue.createStagedUpload r2
  ∧ ImageQueue.uploadToStagedTarget r1 = ImageQueue.uploadToStagedTarget r2
  ∧ ImageQueue.createProductMedia r1 = ImageQueue.createProductMedia r2
  ∧ ImageQueue.nextToSettle r1 = ImageQueue.nextToSettle r2.

(** Two pools that differ at most in the failures recorded in their logs. *)
Definition alike (p1 p2 : ImageQueue.Pool) : Prop :=
  ImageQueue.queue p1 = ImageQueue.queue p2
  ∧ ImageQueue.active p1 = ImageQueue.active p2
  ∧ ImageQueue.settled p1 = ImageQueue.settled p2
  ∧ ImageQueue.calls (ImageQueue.log p1) = ImageQueue.calls (ImageQueue.log p2).

(** The remote side with the answer of [deleteProductMedia] fixed. *)
Definition withDelete (reply : Result ImageQueue.Thrown unit)
    (remote : ImageQueue.Remote) : ImageQueue.Remote :=
  {| ImageQueue.createStagedUpload := ImageQueue.createStagedUpload remote;
     ImageQueue.uploadToStagedTarget := ImageQueue.uploadToStagedTarget remote;
     ImageQueue.createProductMedia := ImageQueue.createProductMedia remote;
     ImageQueue.deleteProductMedia := λ _ _ _, reply;
     ImageQueue.reorderProductMedia := ImageQueue.reorderProductMedia remote;
     ImageQueue.nextToSettle := ImageQueue.nextToSettle remote |}.

(** *** Alt text *)

(** ["View "] followed by the sort order padded to two digits. *)
Definition defaultAltSuffix (sortOrder : Z) : string :=
  "View " +:+ Js.padStart 2 "0" (Js.toString sortOrder).

(** [altTextByPosition[sortOrder]], when the key is present. *)
Definition customText (settings : Types.UploadSettings) (sortOrder : Z) : option string :=
  Types.altTextByPosition settings ≫= (λ m, m !! sortOrder).

(** *** Summaries *)

(** The summary has all five counts and they add up. *)
Definition summaryBalanced (s : Types.Summary) : Prop :=
  ∃ d, Types.dryRunCount s = Some d
       ∧ Types.total s
         = (Types.successful s + Types.failed s + Types.skipped s + d)%nat.

(** *** Sample inputs *)

(** Comparison of strings by character codes, a possible [localeCompare]. *)
Definition codeCompare (a b : string) : Z :=
  match String.compare a b with Lt => -1 | Eq => 0 | Gt => 1 end.

Definition sampleFile (sku : string) (sortOrder : Z) : Types.ParsedFile :=
  {| Types.pf_originalFilename :=
       sku +:+ "-" +:+ Js.padStart 2 "0" (Js.toString sortOrder) +:+ ".jpg";
     Types.pf_sku := sku;
     Types.pf_sortOrder := sortOrder;
     Types.pf_file := {| Types.name := sku; Types.type := "image/jpeg"; Types.size := 1024 |};
     Types.pf_isValid := true;
     Types.pf_error := None |}.

(** Five SKUs with 2, 2, 1, 3 and 3 images, none with a gap. *)
Definition unevenFiles : list Types.ParsedFile :=
  [ sampleFile "A" 1; sampleFile "A" 2;
    sampleFile "B" 1; sampleFile "B" 2;
    sampleFile "C" 1;
    sampleFile "D" 1; sampleFile "D" 2; sampleFile "D" 3;
    sampleFile "E" 1; sampleFile "E" 2; sampleFile "E" 3 ].

(** Four SKUs with 3, 3, 3 and 2 images. *)
Definition regularFiles : list Types.ParsedFile :=
  [ sampleFile "A" 1; sampleFile "A" 2; sampleFile "A" 3;
    sampleFile "B" 1; sampleFile "B" 2; sampleFile "B" 3;
    sampleFile "C" 1; sampleFile "C" 2; sampleFile "C" 3;
    sampleFile "D" 1; sampleFile "D" 2 ].

Definition sampleData (sku : string) (sortOrder : Z) : Types.ParsedFileData :=
  {| Types.originalFilename :=
       sku +:+ "-" +:+ Js.padStart 2 "0" (Js.toString sortOrder) +:+ ".jpg";
     Types.sku := sku;
     Types.sortOrder := sortOrder;
     Types.fileData := [];
     Types.fileType := "image/jpeg";
     Types.fileSize := 1024;
     Types.isValid := true;
     Types.error := None |}.

Definition sampleProduct : Types.ProductData :=
  {| Types.id := "gid://shopify/Product/1";
     Types.title := "Dress";
     Types.mediaIds := ["gid://shopify/MediaImage/7"; "gid://shopify/MediaImage/8"] |}.

Definition sampleTarget : Types.StagedUploadTarget :=
  {| Types.url := "https://upload.example/";
     Types.resourceUrl := "https://upload.example/tmp/image";
     Types.parameters := [] |}.

(** A remote side that accepts every call and answers the oldest call
    in flight first. *)
Definition obligingRemote : ImageQueue.Remote :=
  {| ImageQueue.createStagedUpload := λ _ _, Return sampleTarget;
     ImageQueue.uploadToStagedTarget := λ _ _ _, Return ();
     ImageQueue.createProductMedia := λ _ _ _ _, Return "gid://shopify/MediaImage/9";
     ImageQueue.deleteProductMedia := λ _ _ _, Return ();
     ImageQueue.reorderProductMedia := λ _ _ _, Return ();
     ImageQueue.nextToSettle := λ _, O |}.

(** A remote side that answers the calls in flight in turn, and refuses
    to register the image with the alt text ["Dress - View 02"]. *)
Definition pickyRemote : ImageQueue.Remote :=
  {| ImageQueue.createStagedUpload := λ _ file,
       Return {| Types.url := "https://upload.example/";
                 Types.resourceUrl :=
                   "https://upload.example/tmp/" +:+ Types.originalFilename file;
                 Types.parameters := [] |};
     ImageQueue.uploadToStagedTarget := λ _ _ _, Return ();
     ImageQueue.createProductMedia := λ _ _ _ altText,
       if bool_decide (altText = Some "Dress - View 02")
       then Raise (ImageQueue.ErrorObject "Media creation error: Image is invalid")
       else Return "gid://shopify/MediaImage/9";
     ImageQueue.deleteProductMedia := λ _ _ _, Return ();
     ImageQueue.reorderProductMedia := λ _ _ _, Return ();
     ImageQueue.nextToSettle := λ calls, length calls |}.

(** The same remote side, except that deleting media fails. *)
Definition refusingDelete : ImageQueue.Remote :=
  withDelete (Raise (ImageQueue.ErrorObject "Media deletion error: Media does not exist"))
             obligingRemote.

Definition replaceSettings : Types.UploadSettings :=
  {| Types.dryRun := false;
     Types.uploadStrategy := Types.Replace;
     Types.seoOptimization := true;
     Types.altTextByPosition := Some {[ 1 := "Front"; 2 := "" ]} |}.

Definition plainSettings : Types.UploadSettings :=
  {| Types.dryRun := false;
     Types.uploadStrategy := Types.Replace;
     Types.seoOptimization := false;
     Types.altTextByPosition := None |}.

Definition dryRunSettings : Types.UploadSettings :=
  {| Types.dryRun := true;
     Types.uploadStrategy := Types.Replace;
     Types.seoOptimization := false;
     Types.altTextByPosition := None |}.

Definition sampleTask (sortOrder : Z) : ImageQueue.UploadTask :=
  {| ImageQueue.file := sampleData "DRESS" sortOrder;
     ImageQueue.product := sampleProduct;
     ImageQueue.settings := replaceSettings |}.

Definition sevenTasks : list ImageQueue.UploadTask :=
  sampleTask <$> [1; 2; 3; 4; 5; 6; 7].

Definition sevenFiles : list Types.ParsedFileData :=
  sampleData "DRESS" <$> [1; 2; 3; 4; 5; 6; 7].

(** A run of two SKU groups: seven files of a product with media, one
    file of another product. *)
Definition sampleGroups : Js.Dict (list Types.ParsedFileData) :=
  [("DRESS", sevenFiles); ("SHIRT", [sampleData "SHIRT" 1])].

Definition sampleProducts : gmap string Types.ProductData :=
  {[ "DRESS" := sampleProduct;
     "SHIRT" := {| Types.id := "gid://shopify/Product/2";
                   Types.title := "Shirt";
                   Types.mediaIds := [] |} ]}.

Definition invalidMeta : Route.FileMeta :=
  {| Route.m_originalFilename := "notes.txt";
     Route.m_sku := "";
     Route.m_sortOrder := 0;
     Route.m_fileType := "text/plain";
     Route.m_fileSize := 12;
     Route.m_isValid := false;
     Route.m_error := Some "Invalid file type: text/plain. Allowed: JPEG, PNG, GIF, WebP" |}.

Definition validMeta (sku : string) (sortOrder : Z) : Route.FileMeta :=
  {| Route.m_originalFilename :=
       sku +:+ "-" +:+ Js.padStart 2 "0" (Js.toString sortOrder) +:+ ".jpg";
     Route.m_sku := sku;
     Route.m_sortOrder := sortOrder;
     Route.m_fileType := "image/jpeg";
     Route.m_fileSize := 1024;
     Route.m_isValid := true;
     Route.m_error := None |}.

Definition requestOf (settings : Types.UploadSettings) (metas : list Route.FileMeta)
    : Result ImageQueue.Thrown Route.FormData :=
  Return {| Route.settingsField := Route.Parsed settings;
            Route.filesDataField := Route.Parsed metas;
            Route.fileBlobs := [] |}.

(** A catalog that knows the SKU [DRESS] only. *)
Definition sampleCatalog : ShopifyMedia.Catalog :=
  λ sku, if bool_decide (sku = "DRESS") then Return (Some sampleProduct) else Return None.

(** *** Further vocabulary *)

(** An extension as [parseFilename] strips it: a non-empty text without
    dot and without slash. *)
Definition properExtension (ext : string) : Prop :=
  ext ≠ "" ∧ Js.occurs "." ext = false ∧ Js.occurs "/" ext = false.

(** The name ends with a dot followed by an extension. *)
Definition hasExtension (filename : string) : Prop :=
  ∃ base ext, properExtension ext ∧ filename = base +:+ "." +:+ ext.

(** The valid files of one SKU, in the order of the files. *)
Definition validFilesOf (files : list Types.ParsedFileData) (sku : string)
    : list Types.ParsedFileData :=
  filter (λ f, Types.isValid f = true ∧ Types.sku f = sku) files.

(** The files stand in ascending order of their sort orders. *)
Definition ascending (files : list Types.ParsedFileData) : Prop :=
  Sorted (λ a b, Types.sortOrder a ≤ Types.sortOrder b) files.

(** The numbers of the run from [run.1] to [run.2]. *)
Definition expandRun (run : Z * Z) : list Z := seqZ run.1 (run.2 - run.1 + 1).

(** The runs that the loop of [formatMissingNumbers] closes, as pairs of
    their first and last number. *)
Fixpoint runsLoop (start end_ : Z) (rest : list Z) (runs : list (Z * Z))
    : list (Z * Z) :=
  match rest with
  | [] => runs ++ [(start, end_)]
  | n :: rest' =>
      if n =? end_ + 1 then runsLoop start n rest' runs
      else runsLoop n n rest' (runs ++ [(start, end_)])
  end.

(** What the call of an event threw; the pool's own events throw nothing. *)
Definition failureOf (e : ImageQueue.Event) : option ImageQueue.Thrown :=
  match e with
  | ImageQueue.Answered _ failure => failure
  | ImageQueue.Started _ | ImageQueue.Settled _ => None
  end.

(** The report of one file of a group whose uploads were attempted. *)
Definition reportsUpload (product : Types.ProductData) (file : Types.ParsedFileData)
    (result : Types.ProcessingResult) : Prop :=
  Types.filename result = Types.originalFilename file
  ∧ Types.detectedSku result = Types.sku file
  ∧ Types.productFound result = true
  ∧ Types.productTitle result = Some (Types.title product)
  ∧ Types.productId result = Some (Types.id product)
  ∧ (Types.status result = Types.Success ∧ Types.errorDetails result = None
     ∨ Types.status result = Types.Error ∧ is_Some (Types.errorDetails result)).

(** The settings after a sequence of edits of alt texts, each a position
    and the text typed. *)
Definition afterEdits (settings : Types.UploadSettings) (edits : list (Z * string))
    : Types.UploadSettings :=
  foldl (λ s edit, SettingsCard.handleAltTextChange s edit.1 edit.2) settings edits.

(** The text stored for a position, if any. *)
Definition storedText (settings : Types.UploadSettings) (position : Z) : option string :=
  Types.altTextByPosition settings ≫= (λ m, m !! position).

(** Reading a CSV text back, cell by cell: cells are separated by
    commas and rows by line feeds; a cell that opens with a double quote
    runs to the next double quote that is not doubled, and a doubled
    double quote inside it stands for one. [quoted] tells whether the
    reader is inside such a cell, [cell] and [row] hold what was read of
    the current cell and row. *)
Fixpoint readCsv (text : string) (quoted : bool) (cell : string) (row : list string)
    : list (list string) :=
  match text with
  | EmptyString => [row ++ [cell]]
  | String c rest =>
      if quoted then
        if Ascii.eqb c Js.quote then
          match rest with
          | String c' rest' =>
              if Ascii.eqb c' Js.quote
              then readCsv rest' true (cell +:+ String Js.quote "") row
              else readCsv rest false cell row
          | EmptyString => [row ++ [cell]]
          end
        else readCsv rest true (cell +:+ String c "") row
      else if Ascii.eqb c Js.quote then readCsv rest true cell row
      else if Ascii.eqb c "," then readCsv rest false "" (row ++ [cell])
      else if Ascii.eqb c Js.lineFeed then (row ++ [cell]) :: readCsv rest false "" []
      else readCsv rest false (cell +:+ String c "") row
  end.

(** The positions of the tasks started, and of the tasks settled, in
    the order of the events. *)
Definition startsOf (events : list ImageQueue.Event) : list nat :=
  omap (λ e, match e with ImageQueue.Started i => Some i | _ => None end) events.

Definition settlesOf (events : list ImageQueue.Event) : list nat :=
  omap (λ e, match e with ImageQueue.Settled i => Some i | _ => None end) events.

(** No task settles before it was started. *)
Definition startedFirst (events : list ImageQueue.Event) : Prop :=
  ∀ before i after,
    events = before ++ ImageQueue.Settled i :: after → i ∈ startsOf before.

(** The pool [p] has grown from the log [log0] with [n] tasks submitted:
    the first [k] of them were started, in the order of submission, the
    others wait in that order, and the tasks started are those settled
    and those in flight. *)
Definition inOrder (n : nat) (log0 : list ImageQueue.Event) (p : ImageQueue.Pool)
    : Prop :=
  ∃ events k,
    ImageQueue.log p = log0 ++ events
    ∧ (k ≤ n)%nat
    ∧ startsOf events = seq 0 k
    ∧ (ImageQueue.queue p).*1 = seq k (n - k)
    ∧ settlesOf events ++ (ImageQueue.index <$> ImageQueue.active p) ≡ₚ seq 0 k
    ∧ startedFirst events.

(** ** Strings *)

Lemma append_cons c s t : String c s +:+ t = String c (s +:+ t).
Proof. reflexivity. Qed.

Lemma append_empty t : "" +:+ t = t.
Proof. reflexivity. Qed.

Lemma substring_all s : String.substring 0 (String.length s) s = s.
Proof. induction s as [|c s IH]; simpl; [done | by rewrite IH]. Qed.

Lemma substring_prefix b x :
  String.substring 0 (String.length b) (b +:+ x) = b.
Proof.
  induction b as [|c b IH].
  - by destruct x.
  - rewrite append_cons. simpl. by rewrite IH.
Qed.

Lemma substring_skip n m b x :
  String.substring (String.length b + n) m (b +:+ x) = String.substring n m x.
Proof. induction b as [|c b IH]; [done | rewrite append_cons; simpl; by rewrite IH]. Qed.

Lemma length_append b x :
  String.length (b +:+ x) = (String.length b + String.length x)%nat.
Proof. induction b as [|c b IH]; [done | rewrite append_cons; simpl; by rewrite IH]. Qed.

Lemma lastIndexOf_lower c s : -1 ≤ Js.lastIndexOf c s.
Proof.
  induction s as [|c' s IH]; simpl; [lia|].
  destruct (0 <=? Js.lastIndexOf c s) eqn:E; [lia|].
  destruct (Ascii.eqb c' c); lia.
Qed.

Lemma lastIndexOf_absent c s :
  Js.lastIndexOf c s = -1 ↔ Js.occurs c s = false.
Proof.
  induction s as [|c' s IH]; simpl; [done|].
  pose proof (lastIndexOf_lower c s).
  destruct (0 <=? Js.lastIndexOf c s) eqn:E.
  - apply Z.leb_le in E. split; [lia|].
    intros [_ Hs]%orb_false_iff. apply IH in Hs. lia.
  - apply Z.leb_gt in E. assert (Js.lastIndexOf c s = -1) as Hs by lia.
    apply IH in Hs. rewrite Hs, orb_false_r.
    destruct (Ascii.eqb c' c); split; (done || lia).
Qed.

(** The index found by [lastIndexOf] cuts the string at the last
    occurrence of the character. *)
Lemma lastIndexOf_split c s :
  0 ≤ Js.lastIndexOf c s →
  s = Js.substring 0 (Js.lastIndexOf c s) s
        +:+ String c (Js.substringFrom (Js.lastIndexOf c s + 1) s)
  ∧ Js.occurs c (Js.substringFrom (Js.lastIndexOf c s + 1) s) = false.
Proof.
  unfold Js.substring, Js.substringFrom.
  induction s as [|c' s IH]; simpl; [lia|].
  pose proof (lastIndexOf_lower c s).
  destruct (0 <=? Js.lastIndexOf c s) eqn:E.
  - apply Z.leb_le in E. intros _. destruct (IH E) as [IH1 IH2].
    replace (Z.to_nat (Js.lastIndexOf c s + 1 - 0))
      with (S (Z.to_nat (Js.lastIndexOf c s - 0))) by lia.
    replace (Z.to_nat (Js.lastIndexOf c s + 1 + 1))
      with (S (Z.to_nat (Js.lastIndexOf c s + 1))) by lia.
    simpl. rewrite append_cons. change (Z.to_nat 0) with O in IH1.
    by rewrite <- IH1.
  - apply Z.leb_gt in E. assert (Js.lastIndexOf c s = -1) as Hs by lia.
    destruct (Ascii.eqb_spec c' c) as [->|]; [|lia]. intros _. simpl.
    rewrite Nat.sub_0_r, substring_all. split; [done|].
    by apply lastIndexOf_absent.
Qed.

Lemma lastIndexOf_append c before after :
  Js.occurs c after = false →
  Js.lastIndexOf c (before +:+ String c after) = Z.of_nat (String.length before).
Proof.
  intros Hafter. induction before as [|c' b IH].
  - rewrite append_empty. simpl. apply lastIndexOf_absent in Hafter.
    rewrite Hafter. simpl. by rewrite Ascii.eqb_refl.
  - rewrite append_cons. simpl. rewrite IH.
    destruct (0 <=? Z.of_nat (String.length b)) eqn:E; [lia|].
    apply Z.leb_gt in E. lia.
Qed.

Lemma substring_before c before after :
  Js.substring 0 (Z.of_nat (String.length before)) (before +:+ String c after) = before.
Proof.
  unfold Js.substring. rewrite Z.sub_0_r, Nat2Z.id. apply substring_prefix.
Qed.

Lemma substring_after c before after :
  Js.substringFrom (Z.of_nat (String.length before) + 1) (before +:+ String c after) = after.
Proof.
  unfold Js.substringFrom.
  replace (Z.to_nat (Z.of_nat (String.length before) + 1))
    with (String.length before + 1)%nat by lia.
  rewrite substring_skip, length_append. simpl.
  replace (String.length before + S (String.length after) - (String.length before + 1))%nat
    with (String.length after) by lia.
  apply substring_all.
Qed.

(** ** [parseFilename] *)

Lemma splitsAtLastHyphen_index filename before after :
  splitsAtLastHyphen filename before after →
  Js.lastIndexOf "-" (FileParser.removeExtension filename)
  = Z.of_nat (String.length before)
  ∧ Js.substring 0 (Z.of_nat (String.length before))
      (FileParser.removeExtension filename) = before
  ∧ Js.substringFrom (Z.of_nat (String.length before) + 1)
      (FileParser.removeExtension filename) = after.
Proof.
  intros [-> Hafter].
  auto using lastIndexOf_append, substring_before, substring_after.
Qed.

Lemma splitsAtLastHyphen_found filename :
  0 ≤ Js.lastIndexOf "-" (FileParser.removeExtension filename) →
  let i := Js.lastIndexOf "-" (FileParser.removeExtension filename) in
  splitsAtLastHyphen filename
    (Js.substring 0 i (FileParser.removeExtension filename))
    (Js.substringFrom (i + 1) (FileParser.removeExtension filename)).
Proof. intros H. by apply lastIndexOf_split. Qed.

Lemma trim_empty : Js.trim "" = "".
Proof. reflexivity. Qed.

(** C4. When [parseFilename] succeeds, the SKU it returns is the
    upper-cased, trimmed text that precedes the last hyphen of the name
    without its extension, and the sort order is the non-negative integer
    read from the (trimmed) text after that hyphen. *)
Theorem parseFilename_returns filename r :
  FileParser.parseFilename filename = Return r →
  ∃ before after,
    splitsAtLastHyphen filename before after
    ∧ FileParser.sku r = Js.toUpperCase (Js.trim before)
    ∧ Js.parseInt (Js.trim after) = Some (FileParser.sortOrder r)
    ∧ 0 ≤ FileParser.sortOrder r.
Proof.
  unfold FileParser.parseFilename.
  set (name := FileParser.removeExtension filename).
  set (i := Js.lastIndexOf "-" name).
  pose proof (lastIndexOf_lower "-" name) as Hlow. fold i in Hlow.
  destruct (i =? -1) eqn:E1; [done|]. apply Z.eqb_neq in E1.
  destruct (i =? 0) eqn:E0; [done|].
  case_bool_decide as Hsku; [done|].
  destruct (Js.parseInt _) as [n|] eqn:Hparse; [|done].
  destruct (n <? 0) eqn:Hneg; [done|]. apply Z.ltb_ge in Hneg.
  intros [= <-]. simpl.
  exists (Js.substring 0 i name), (Js.substringFrom (i + 1) name).
  split; [apply splitsAtLastHyphen_found; fold name; fold i; lia|done].
Qed.

(** C4 at ["summer-dress-red-01.jpg"]. *)
Lemma parseFilename_returns_witness :
  ∃ before after,
    splitsAtLastHyphen "summer-dress-red-01.jpg" before after
    ∧ "SUMMER-DRESS-RED" = Js.toUpperCase (Js.trim before)
    ∧ Js.parseInt (Js.trim after) = Some 1
    ∧ 0 ≤ 1.
Proof.
  apply (parseFilename_returns "summer-dress-red-01.jpg"
           {| FileParser.sku := "SUMMER-DRESS-RED"; FileParser.sortOrder := 1 |}).
  reflexivity.
Defined.

(** C3, amended. [parseFilename] fails with [InvalidSortNumber]
    exactly on the names that, without extension, have their last hyphen
    at a position other than 0, a text before it that is not blank, and a
    text after it that [parseInt] cannot read as an integer. *)
Theorem parseFilename_invalid_sort_number filename :
  (∃ sortStr,
     FileParser.parseFilename filename
     = Raise (FileParser.InvalidSortNumber sortStr))
  ↔ ∃ before after,
      splitsAtLastHyphen filename before after
      ∧ before ≠ ""
      ∧ Js.trim before ≠ ""
      ∧ Js.parseInt (Js.trim after) = None.
Proof.
  unfold FileParser.parseFilename. split.
  - intros [sortStr H]. revert H.
    set (name := FileParser.removeExtension filename).
    set (i := Js.lastIndexOf "-" name).
    pose proof (lastIndexOf_lower "-" name) as Hlow. fold i in Hlow.
    destruct (i =? -1) eqn:E1; [done|]. apply Z.eqb_neq in E1.
    destruct (i =? 0) eqn:E0; [done|].
    case_bool_decide as Hsku; [done|].
    destruct (Js.parseInt _) as [n|] eqn:Hparse.
    { by destruct (n <? 0). }
    intros _.
    exists (Js.substring 0 i name), (Js.substringFrom (i + 1) name).
    split; [apply splitsAtLastHyphen_found; fold name; fold i; lia|].
    split; [|done]. intros Hb. by rewrite Hb in Hsku.
  - intros (before & after & Hsplit & Hne & Htrim & Hparse).
    destruct (splitsAtLastHyphen_index _ _ _ Hsplit) as (-> & -> & ->).
    destruct before as [|c before]; [done|].
    replace (Z.of_nat (String.length (String c before)) =? -1) with false
      by (symmetry; apply Z.eqb_neq; simpl; lia).
    replace (Z.of_nat (String.length (String c before)) =? 0) with false
      by (symmetry; apply Z.eqb_neq; simpl; lia).
    rewrite bool_decide_false by done.
    rewrite Hparse. eauto.
Qed.

(** C3 as stated fails: in [" -xx.jpg"] the last hyphen is at position
    1 and ["xx"] is no integer, yet the blank text before the hyphen makes
    [parseFilename] fail with [EmptySku]. *)
Lemma parseFilename_blank_prefix_counterexample :
  ¬ ((∃ before after,
        splitsAtLastHyphen " -xx.jpg" before after
        ∧ before ≠ ""
        ∧ Js.parseInt (Js.trim after) = None)
     → ∃ sortStr,
         FileParser.parseFilename " -xx.jpg"
         = Raise (FileParser.InvalidSortNumber sortStr)).
Proof.
  intros H. destruct H as [sortStr H].
  - exists " ", "xx". repeat split; done.
  - vm_compute in H. discriminate H.
Qed.

(** The examples of the specification. *)
Example parse_summer_dress :
  FileParser.parseFilename "SUMMER-DRESS-RED-01.jpg"
  = Return {| FileParser.sku := "SUMMER-DRESS-RED"; FileParser.sortOrder := 1 |}.
Proof. reflexivity. Qed.

Example parse_no_separator :
  FileParser.parseFilename "01.jpg" = Raise FileParser.NoSeparator.
Proof. reflexivity. Qed.

Example parse_empty_sku :
  FileParser.parseFilename "-01.jpg" = Raise FileParser.EmptySku.
Proof. reflexivity. Qed.

Example parse_invalid_sort :
  FileParser.parseFilename "ABC-xx.jpg" = Raise (FileParser.InvalidSortNumber "xx").
Proof. reflexivity. Qed.

Example parse_lowercase :
  FileParser.parseFilename "abc-12b.backup.png"
  = Return {| FileParser.sku := "ABC"; FileParser.sortOrder := 12 |}.
Proof. reflexivity. Qed.

Example removeExtension_samples :
  FileParser.removeExtension "a.b.c" = "a.b"
  ∧ FileParser.removeExtension "a.b." = "a.b."
  ∧ FileParser.removeExtension "dir.x/abc-1" = "dir.x/abc-1"
  ∧ FileParser.removeExtension ".hidden" = ""
  ∧ FileParser.removeExtension "abc-01" = "abc-01".
Proof. repeat split. Qed.

(** ** [Array.prototype.sort] *)
Section SortFacts.
Context {A : Type} (compare : A → A → Z).

Lemma insertSorted_perm x l : Js.insertSorted compare x l ≡ₚ x :: l.
Proof.
  induction l as [|y l IH]; simpl; [done|].
  destruct (compare x y <=? 0); [done|].
  rewrite IH. apply Permutation_swap.
Qed.

Lemma sort_perm l : Js.sort compare l ≡ₚ l.
Proof.
  induction l as [|x l IH]; simpl; [done|].
  by rewrite insertSorted_perm, IH.
Qed.

Lemma sort_elem_of x l : x ∈ Js.sort compare l ↔ x ∈ l.
Proof. by rewrite sort_perm. Qed.

Lemma sort_length l : length (Js.sort compare l) = length l.
Proof. by rewrite sort_perm. Qed.

Hypothesis compare_total : ∀ x y, compare x y ≤ 0 ∨ compare y x ≤ 0.

Lemma insertSorted_sorted x l :
  Sorted (notAfter compare) l → Sorted (notAfter compare) (Js.insertSorted compare x l).
Proof.
  induction l as [|y l IH]; simpl; intros Hl.
  - by repeat constructor.
  - destruct (compare x y <=? 0) eqn:E.
    + constructor; [done|]. constructor. by apply Z.leb_le.
    + apply Z.leb_gt in E.
      apply Sorted_inv in Hl as [Hl Hhd].
      constructor; [by apply IH|].
      destruct l as [|z l]; simpl.
      * constructor. destruct (compare_total x y); [lia|done].
      * destruct (compare x z <=? 0).
        -- constructor. destruct (compare_total x y); [lia|done].
        -- constructor. by apply HdRel_inv in Hhd.
Qed.

Lemma sort_sorted l : Sorted (notAfter compare) (Js.sort compare l).
Proof.
  induction l as [|x l IH]; simpl; [constructor|].
  by apply insertSorted_sorted.
Qed.
End SortFacts.

(** ** Objects used as dictionaries *)
Section DictFacts.
Context {V : Type}.
Implicit Types (o : Js.Dict V) (k : string).

Lemma own_update k k' f o :
  Js.own k' (Js.update k f o)
  = if decide (k = k') then Some (f (Js.own k o)) else Js.own k' o.
Proof.
  unfold Js.own. induction o as [|[k0 v] o IH]; simpl.
  - case_decide; subst; simpl;
      [by rewrite bool_decide_true | by rewrite bool_decide_false].
  - destruct (decide (k0 = k)) as [->|Hne]; destruct (decide (k = k')) as [->|Hne'];
      simpl; rewrite ?bool_decide_true, ?bool_decide_false by done; simpl;
      rewrite ?bool_decide_true, ?bool_decide_false by done; simpl; try done.
    all: case_bool_decide; simplify_eq/=; done.
Qed.

Lemma update_keys k f o :
  (Js.update k f o).*1 = if decide (k ∈ o.*1) then o.*1 else o.*1 ++ [k].
Proof.
  induction o as [|[k0 v] o IH]; cbn [Js.update].
  - rewrite decide_False; [done|]. apply not_elem_of_nil.
  - case_bool_decide as Hk; rewrite !fmap_cons; cbn [fst].
    + subst. by rewrite decide_True by left.
    + rewrite IH. case_decide as Hin.
      * by rewrite decide_True by (by right).
      * rewrite decide_False; [done|].
        intros [?|?]%elem_of_cons; congruence.
Qed.

Lemma update_NoDup k f o : NoDup o.*1 → NoDup (Js.update k f o).*1.
Proof.
  intros Hnd. rewrite update_keys. case_decide as Hin; [done|].
  apply NoDup_app. split_and!; [done| |apply NoDup_singleton].
  intros x Hx ->%list_elem_of_singleton. done.
Qed.

Lemma own_Some_elem_of k v o : Js.own k o = Some v → (k, v) ∈ o.
Proof.
  unfold Js.own. induction o as [|[k0 v0] o IH]; simpl; [done|].
  case_bool_decide as Hk; simpl in *.
  - intros [= ->]. subst. left.
  - intros H. right. by apply IH.
Qed.

Lemma own_None k o : Js.own k o = None ↔ k ∉ o.*1.
Proof.
  unfold Js.own. induction o as [|[k0 v0] o IH]; simpl.
  - split; [intros _; apply not_elem_of_nil|done].
  - case_bool_decide as Hk; simpl in *.
    + subst. split; [done|]. intros H. destruct H. left.
      
    + rewrite IH, not_elem_of_cons. split; [done|]. by intros [_ ?].
Qed.

Lemma elem_of_own k v o : NoDup o.*1 → (k, v) ∈ o → Js.own k o = Some v.
Proof.
  unfold Js.own. induction o as [|[k0 v0] o IH]; simpl.
  - intros _ H. by apply elem_of_nil in H.
  - intros [Hk0 Hnd]%NoDup_cons [[= -> ->]|Hin]%elem_of_cons.
    + by rewrite bool_decide_true.
    + rewrite bool_decide_false; [by apply IH|].
      intros ->. apply Hk0. apply list_elem_of_fmap. by exists (k, v).
Qed.

Lemma entries_perm o : Js.entries o ≡ₚ o.
Proof.
  unfold Js.entries.
  rewrite sort_perm.
  induction o as [|[k v] o IH]; [done|].
  csimpl. destruct (Js.arrayIndex k) as [i|] eqn:E; csimpl.
  - rewrite filter_cons_False by (simpl; congruence). by rewrite IH.
  - rewrite filter_cons_True by done.
    rewrite <- Permutation_middle. by rewrite IH.
Qed.

Lemma entries_elem_of kv o : kv ∈ Js.entries o ↔ kv ∈ o.
Proof. by rewrite entries_perm. Qed.

Lemma entries_NoDup o : NoDup o.*1 → NoDup (Js.entries o).*1.
Proof. intros H. by rewrite entries_perm. Qed.
End DictFacts.

(** ** The grouping loop of the pattern analyzer *)

Lemma ordersIn_valid files k :
  ordersIn (filter (λ f, Types.pf_isValid f) files) k = sortOrdersOf files k.
Proof.
  unfold ordersIn, sortOrdersOf. by rewrite list_filter_filter.
Qed.

Lemma fold_pushSortOrder_raise files e :
  fold_left PatternAnalyzer.pushSortOrder files (Raise e) = Raise e.
Proof. induction files as [|f files IH]; simpl; [done|apply IH]. Qed.

Lemma fold_pushSortOrder files g g' :
  fold_left PatternAnalyzer.pushSortOrder files (Return g) = Return g' →
  NoDup g.*1 →
  NoDup g'.*1
  ∧ ∀ k, Js.own k g'
         = match Js.own k g with
           | Some v => Some (v ++ ordersIn files k)
           | None => match ordersIn files k with
                     | [] => None
                     | v => Some v
                     end
           end.
Proof.
  revert g. induction files as [|f files IH]; intros g; simpl.
  - intros [= <-] Hnd. split; [done|]. intros k.
    destruct (Js.own k g); [by rewrite app_nil_r|done].
  - destruct (Js.isInherited (Types.pf_sku f)).
    { by rewrite fold_pushSortOrder_raise. }
    intros Hfold Hnd.
    destruct (IH _ Hfold (update_NoDup _ _ _ Hnd)) as [Hnd' Hown].
    split; [done|]. intros k. rewrite Hown, own_update.
    unfold ordersIn. case_decide as Hk.
    + rewrite filter_cons_True by done. csimpl. subst k.
      destruct (Js.own (Types.pf_sku f) g); simpl; [by rewrite <- app_assoc|done].
    + rewrite filter_cons_False by done.
      by destruct (Js.own k g).
Qed.

(** The groups are the non-empty sort-order lists of the SKUs. *)
Lemma groupSortOrders_own files g k :
  PatternAnalyzer.groupSortOrders files = Return g →
  NoDup g.*1
  ∧ Js.own k g = match ordersIn files k with [] => None | v => Some v end.
Proof.
  intros H. destruct (fold_pushSortOrder files [] g H) as [Hnd Hown].
  { constructor. }
  split; [done|]. by rewrite Hown.
Qed.

Lemma groupSortOrders_elem_of files g k v :
  PatternAnalyzer.groupSortOrders files = Return g →
  (k, v) ∈ Js.entries g ↔ v = ordersIn files k ∧ v ≠ [].
Proof.
  intros H. destruct (groupSortOrders_own files g k H) as [Hnd Hown].
  rewrite entries_elem_of. split.
  - intros Hin. apply (elem_of_own _ _ _ Hnd) in Hin. rewrite Hin in Hown.
    destruct (ordersIn files k); by simplify_eq.
  - intros [-> Hne]. apply own_Some_elem_of. rewrite Hown.
    by destruct (ordersIn files k).
Qed.

(** ** Gaps and missing numbers *)

Lemma minOf_spec x l :
  PatternAnalyzer.minOf x l ∈ x :: l
  ∧ ∀ y, y ∈ x :: l → PatternAnalyzer.minOf x l ≤ y.
Proof.
  unfold PatternAnalyzer.minOf. induction l as [|a l [IHin IHle]]; simpl.
  - split; [left|]. intros y ->%list_elem_of_singleton. lia.
  - split.
    + destruct (Z.min_spec a (foldr Z.min x l)) as [[_ ->]|[_ ->]].
      * right; left.
      * apply elem_of_cons in IHin as [->|?]; [left|by do 2 right].
    + intros y Hy. assert (y = a ∨ y ∈ x :: l) as [->|Hy'].
      { rewrite !elem_of_cons in Hy. rewrite elem_of_cons. tauto. }
      * lia.
      * specialize (IHle y Hy'). lia.
Qed.

Lemma maxOf_spec x l :
  PatternAnalyzer.maxOf x l ∈ x :: l
  ∧ ∀ y, y ∈ x :: l → y ≤ PatternAnalyzer.maxOf x l.
Proof.
  unfold PatternAnalyzer.maxOf. induction l as [|a l [IHin IHle]]; simpl.
  - split; [left|]. intros y ->%list_elem_of_singleton. lia.
  - split.
    + destruct (Z.max_spec a (foldr Z.max x l)) as [[_ ->]|[_ ->]].
      * apply elem_of_cons in IHin as [->|?]; [left|by do 2 right].
      * right; left.
    + intros y Hy. assert (y = a ∨ y ∈ x :: l) as [->|Hy'].
      { rewrite !elem_of_cons in Hy. rewrite elem_of_cons. tauto. }
      * lia.
      * specialize (IHle y Hy'). lia.
Qed.

Lemma gaps_elem_of l i :
  i ∈ PatternAnalyzer.gaps l
  ↔ (∃ lo hi, lo ∈ l ∧ hi ∈ l ∧ lo < i < hi) ∧ i ∉ l.
Proof.
  unfold PatternAnalyzer.gaps. destruct l as [|x l].
  { split; [by intros ?%elem_of_nil|]. intros [(lo & _ & ?%elem_of_nil & _) _]. done. }
  destruct (minOf_spec x l) as [Hmin Hminle].
  destruct (maxOf_spec x l) as [Hmax Hmaxle].
  rewrite list_elem_of_filter, elem_of_seqZ. split.
  - intros [Hnot Hrange]. split; [|done].
    exists (PatternAnalyzer.minOf x l), (PatternAnalyzer.maxOf x l).
    split_and!; [done|done| |].
    + destruct (decide (i = PatternAnalyzer.minOf x l)) as [->|]; [done|lia].
    + destruct (decide (i = PatternAnalyzer.maxOf x l)) as [->|]; [done|lia].
  - intros [(lo & hi & Hlo & Hhi & Hi) Hnot]. split; [done|].
    specialize (Hminle lo Hlo). specialize (Hmaxle hi Hhi). lia.
Qed.

Lemma gaps_hasGap l : PatternAnalyzer.gaps l ≠ [] ↔ hasGap l.
Proof.
  unfold hasGap. split.
  - destruct (PatternAnalyzer.gaps l) as [|i g] eqn:E; [done|]. intros _.
    assert (i ∈ PatternAnalyzer.gaps l) as Hi by (rewrite E; left).
    apply gaps_elem_of in Hi as [(lo & hi & ?) ?]. exists i, lo, hi. tauto.
  - intros (i & lo & hi & Hlo & Hhi & Hi & Hnot) E.
    assert (i ∈ PatternAnalyzer.gaps l) as Hin.
    { apply gaps_elem_of. split; [|done]. by exists lo, hi. }
    rewrite E in Hin. by apply elem_of_nil in Hin.
Qed.

Lemma hasGap_perm l l' : l ≡ₚ l' → hasGap l → hasGap l'.
Proof.
  intros Hp (i & lo & hi & Hlo & Hhi & Hi & Hnot). exists i, lo, hi.
  by rewrite <- Hp.
Qed.

Lemma seqZ_ascending m n : StronglySorted Z.lt (seqZ m n).
Proof.
  destruct (decide (n ≤ 0)) as [Hn|Hn]; [rewrite seqZ_nil by done; constructor|].
  rewrite <- (Z2Nat.id n) by lia. generalize (Z.to_nat n) as k. clear. intros k.
  revert m. induction k as [|k IH]; intros m.
  - rewrite seqZ_nil by done. constructor.
  - rewrite seqZ_cons by lia. constructor.
    + replace (Z.pred (Z.of_nat (S k))) with (Z.of_nat k) by lia. apply IH.
    + apply Forall_forall. intros y Hy%elem_of_seqZ. lia.
Qed.

Lemma filter_ascending (P : Z → Prop) `{∀ x, Decision (P x)} l :
  StronglySorted Z.lt l → StronglySorted Z.lt (filter P l).
Proof.
  induction 1 as [|x l Hl IH Hx]; [constructor|].
  destruct (decide (P x)).
  - rewrite filter_cons_True by done. constructor; [done|].
    apply Forall_forall. intros y [_ Hy]%list_elem_of_filter.
    by eapply Forall_forall in Hx.
  - by rewrite filter_cons_False.
Qed.

Lemma gaps_ascending l : StronglySorted Z.lt (PatternAnalyzer.gaps l).
Proof.
  unfold PatternAnalyzer.gaps. destruct l; [constructor|].
  apply filter_ascending, seqZ_ascending.
Qed.

Lemma trailing_ascending l d : StronglySorted Z.lt (PatternAnalyzer.trailing l d).
Proof.
  unfold PatternAnalyzer.trailing. destruct l; [constructor|apply seqZ_ascending].
Qed.

(** ** One turn of the warning loop *)

Lemma analyzeSku_Some mostCommonCount consistent sku orders w :
  PatternAnalyzer.analyzeSku mostCommonCount consistent sku orders = Some w →
  PatternAnalyzer.sku w = sku
  ∧ PatternAnalyzer.expectedCount w = mostCommonCount
  ∧ PatternAnalyzer.actualCount w = length orders
  ∧ StronglySorted Z.lt (PatternAnalyzer.missingNumbers w)
  ∧ (PatternAnalyzer.hasGaps w = true ↔ hasGap orders)
  ∧ (hasGap orders
     ∨ consistent = true ∧ (length orders < mostCommonCount)%nat).
Proof.
  unfold PatternAnalyzer.analyzeSku.
  set (sorted := Js.sort (λ a b : Z, a - b) orders).
  assert (sorted ≡ₚ orders) as Hperm by apply sort_perm.
  assert (PatternAnalyzer.gaps sorted ≠ [] ↔ hasGap orders) as Hgap.
  { rewrite gaps_hasGap. split; apply hasGap_perm; [done|by symmetry]. }
  assert (length sorted = length orders) as Hlen by (by rewrite Hperm).
  destruct (PatternAnalyzer.gaps sorted) as [|i found] eqn:Efound; simpl.
  - rewrite andb_true_r. rewrite Hlen.
    destruct (consistent && (length orders <? mostCommonCount)%nat) eqn:Efew;
      [|done].
    intros [= <-]. simpl. apply andb_true_iff in Efew as [-> Hlt%Nat.ltb_lt].
    split_and!; try done.
    + apply trailing_ascending.
    + split; [done|]. intros Hg. by apply Hgap in Hg.
    + by right.
  - rewrite andb_false_r. intros [= <-]. simpl. rewrite Hlen.
    split_and!; try done.
    + rewrite <- Efound. apply gaps_ascending.
    + split; [|done]. intros _. by apply Hgap.
    + left. by apply Hgap.
Qed.

Lemma analyzeSku_warns mostCommonCount consistent sku orders :
  hasGap orders ∨ consistent = true ∧ (length orders < mostCommonCount)%nat →
  is_Some (PatternAnalyzer.analyzeSku mostCommonCount consistent sku orders).
Proof.
  unfold PatternAnalyzer.analyzeSku.
  set (sorted := Js.sort (λ a b : Z, a - b) orders).
  assert (sorted ≡ₚ orders) as Hperm by apply sort_perm.
  assert (PatternAnalyzer.gaps sorted ≠ [] ↔ hasGap orders) as Hgap.
  { rewrite gaps_hasGap. split; apply hasGap_perm; [done|by symmetry]. }
  assert (length sorted = length orders) as Hlen by (by rewrite Hperm).
  intros [Hg|[-> Hlt]].
  - apply Hgap in Hg. destruct (PatternAnalyzer.gaps sorted); [done|]. simpl. eauto.
  - rewrite Hlen. apply Nat.ltb_lt in Hlt. rewrite Hlt. simpl.
    rewrite orb_true_r. eauto.
Qed.

(** ** Warnings of [analyzeImagePattern] *)

Lemma codeCompare_total a b : codeCompare a b ≤ 0 ∨ codeCompare b a ≤ 0.
Proof.
  unfold codeCompare. rewrite (String.compare_antisym b a).
  destruct (String.compare a b); simpl; lia.
Qed.

(** C5, amended. Whenever [analyzeImagePattern] returns an analysis, its
    warnings contain, for every SKU of the valid files that has a gap in
    its sort orders, or whose image count is below [mostCommonCount]
    while the pattern is consistent, a warning with that SKU,
    [expectedCount = mostCommonCount], the SKU's image count as
    [actualCount], ascending [missingNumbers], and [hasGaps] telling
    whether the SKU has a gap; and the warnings are sorted by SKU with
    [localeCompare] (assumed total). *)
Theorem analyzeImagePattern_warnings localeCompare files analysis :
  (∀ a b, localeCompare a b ≤ 0 ∨ localeCompare b a ≤ 0) →
  PatternAnalyzer.analyzeImagePattern localeCompare files = Return (Some analysis) →
  (∀ sku,
     sortOrdersOf files sku ≠ [] →
     hasGap (sortOrdersOf files sku)
     ∨ PatternAnalyzer.isConsistentPattern analysis = true
       ∧ (length (sortOrdersOf files sku)
          < PatternAnalyzer.mostCommonCount analysis)%nat →
     ∃ w,
       w ∈ PatternAnalyzer.warnings analysis
       ∧ PatternAnalyzer.sku w = sku
       ∧ PatternAnalyzer.expectedCount w = PatternAnalyzer.mostCommonCount analysis
       ∧ PatternAnalyzer.actualCount w = length (sortOrdersOf files sku)
       ∧ StronglySorted Z.lt (PatternAnalyzer.missingNumbers w)
       ∧ (PatternAnalyzer.hasGaps w = true ↔ hasGap (sortOrdersOf files sku)))
  ∧ Sorted (λ w1 w2, localeCompare (PatternAnalyzer.sku w1) (PatternAnalyzer.sku w2) ≤ 0)
      (PatternAnalyzer.warnings analysis).
Proof.
  intros Htotal. unfold PatternAnalyzer.analyzeImagePattern, Js.keys.
  set (valid := filter _ files).
  destruct (length valid =? 0)%nat; [done|].
  destruct (PatternAnalyzer.groupSortOrders valid) as [g|e] eqn:Hg; [|done].
  destruct (length (Js.entries g).*1 =? 0)%nat; [done|].
  destruct (PatternAnalyzer.mostCommon _) as [mcc maxF].
  destruct (length (Js.entries g).*1 <? 2)%nat; [done|].
  intros [= <-]. simpl. split.
  - intros sku Hne Hwarn.
    assert ((sku, sortOrdersOf files sku) ∈ Js.entries g) as Hin.
    { apply (groupSortOrders_elem_of valid); [done|].
      unfold valid. by rewrite ordersIn_valid. }
    destruct (analyzeSku_warns mcc _ sku _ Hwarn) as [w Hw].
    exists w. split.
    + apply sort_elem_of, list_elem_of_omap.
      by exists (sku, sortOrdersOf files sku).
    + apply analyzeSku_Some in Hw. tauto.
  - apply (sort_sorted (λ a b, localeCompare (PatternAnalyzer.sku a) (PatternAnalyzer.sku b))).
    intros; apply Htotal.
Qed.

(** C5 on four SKUs with 3, 3, 3 and 2 images: the SKU with two images
    is warned about, with one missing number after its last one. *)
Lemma analyzeImagePattern_warnings_witness :
  ∃ analysis,
    PatternAnalyzer.analyzeImagePattern codeCompare regularFiles
    = Return (Some analysis)
    ∧ ∃ w,
        w ∈ PatternAnalyzer.warnings analysis
        ∧ PatternAnalyzer.sku w = "D"
        ∧ PatternAnalyzer.expectedCount w = 3%nat
        ∧ PatternAnalyzer.actualCount w = 2%nat
        ∧ PatternAnalyzer.missingNumbers w = [3].
Proof.
  eexists. split; [vm_compute; reflexivity|].
  destruct (analyzeImagePattern_warnings codeCompare regularFiles _
              codeCompare_total eq_refl) as [Hwarn _].
  destruct (Hwarn "D") as (w & Hin & Hsku & Hexp & Hact & _).
  - vm_compute. discriminate.
  - right. split; [reflexivity|]. vm_compute. lia.
  - exists w. split; [done|]. split; [done|]. split; [done|]. split; [done|].
    vm_compute in Hin.
    apply list_elem_of_singleton in Hin. by subst w.
Defined.

(** C5 as stated fails: with 2, 2, 1, 3 and 3 images the most common
    count is 2, held by 2 of 5 SKUs only, so the pattern is not consistent
    and the SKU with a single image gets no warning. *)
Lemma analyzeImagePattern_inconsistent_counterexample :
  ∃ analysis,
    PatternAnalyzer.analyzeImagePattern codeCompare unevenFiles
    = Return (Some analysis)
    ∧ sortOrdersOf unevenFiles "C" ≠ []
    ∧ (length (sortOrdersOf unevenFiles "C")
       < PatternAnalyzer.mostCommonCount analysis)%nat
    ∧ ¬ ∃ w, w ∈ PatternAnalyzer.warnings analysis ∧ PatternAnalyzer.sku w = "C".
Proof.
  eexists. split; [vm_compute; reflexivity|]. simpl.
  split; [vm_compute; discriminate|]. split; [vm_compute; lia|].
  intros (w & Hin & _). by apply elem_of_nil in Hin.
Qed.

(** ** The most common count *)

Lemma countFrequency_fold groups (m0 : gmap nat nat) c :
  fold_left PatternAnalyzer.countGroup groups m0 !! c
  = match groupsWithCount groups c with
    | O => m0 !! c
    | S n => Some (default 0%nat (m0 !! c) + S n)%nat
    end.
Proof.
  unfold groupsWithCount.
  revert m0. induction groups as [|g groups IH]; intros m0; [done|].
  cbn [fold_left]. rewrite IH. unfold PatternAnalyzer.countGroup.
  destruct (decide (length g.2 = c)) as [Hc|Hc].
  - rewrite filter_cons_True by done. rewrite Hc, lookup_insert_eq. cbn [length default].
    destruct (length (filter _ groups)); f_equal; unfold id; lia.
  - rewrite filter_cons_False by done. by rewrite lookup_insert_ne.
Qed.

Lemma countFrequency_lookup groups c :
  PatternAnalyzer.countFrequency groups !! c
  = match groupsWithCount groups c with O => None | n => Some n end.
Proof.
  unfold PatternAnalyzer.countFrequency. rewrite countFrequency_fold.
  rewrite lookup_empty. by destruct (groupsWithCount groups c).
Qed.

Lemma frequencyEntries_elem_of m c f :
  (c, f) ∈ PatternAnalyzer.frequencyEntries m ↔ m !! c = Some f.
Proof.
  unfold PatternAnalyzer.frequencyEntries.
  by rewrite sort_elem_of, elem_of_map_to_list.
Qed.

Lemma frequencyEntries_ascending m :
  StronglySorted (λ a b : nat * nat, (a.1 ≤ b.1)%nat)
    (PatternAnalyzer.frequencyEntries m).
Proof.
  unfold PatternAnalyzer.frequencyEntries.
  apply Sorted.Sorted_StronglySorted.
  { intros a b c. lia. }
  eapply Sorted.Sorted_ind
    with (P := Sorted (λ a b : nat * nat, (a.1 ≤ b.1)%nat));
    [constructor|
    |apply (sort_sorted (λ a b : nat * nat, Z.of_nat a.1 - Z.of_nat b.1)); intros; lia].
  intros a l _ IH Hhd. constructor; [done|].
  destruct Hhd as [|b l Hab]; constructor. unfold notAfter in Hab. lia.
Qed.

(** The loop keeps the first entry whose frequency exceeds all earlier
    ones. *)
Lemma mostCommon_fold l c0 f0 c f :
  fold_left PatternAnalyzer.keepMoreFrequent l (c0, f0) = (c, f) →
  (∀ e, e ∈ l → (e.2 ≤ f)%nat)
  ∧ (f0 ≤ f)%nat
  ∧ ((c, f) = (c0, f0)
     ∨ ∃ l1 l2, l = l1 ++ (c, f) :: l2
                ∧ (∀ e, e ∈ l1 → (e.2 < f)%nat)
                ∧ (f0 < f)%nat).
Proof.
  revert c0 f0. induction l as [|[c1 f1] l IH]; intros c0 f0;
    cbn [fold_left PatternAnalyzer.keepMoreFrequent].
  - intros [= -> ->]. split; [by intros e ?%elem_of_nil|]. split; [done|by left].
  - destruct (f0 <? f1)%nat eqn:E.
    + apply Nat.ltb_lt in E. intros H.
      destruct (IH _ _ H) as (Hall & Hle & Hcase).
      split; [|split; [lia|right]].
      * intros e [->|He]%elem_of_cons; [simpl; lia|by apply Hall].
      * destruct Hcase as [[= -> ->]|(l1 & l2 & -> & Hl1 & Hlt)].
        -- exists [], l. split; [done|]. split; [by intros e ?%elem_of_nil|done].
        -- exists ((c1, f1) :: l1), l2. split; [done|]. split; [|lia].
           intros e [->|He]%elem_of_cons; [simpl; lia|by apply Hl1].
    + apply Nat.ltb_ge in E. intros H.
      destruct (IH _ _ H) as (Hall & Hle & Hcase).
      split; [|split; [lia|]].
      * intros e [->|He]%elem_of_cons; [simpl; lia|by apply Hall].
      * destruct Hcase as [Heq|(l1 & l2 & -> & Hl1 & Hlt)]; [by left|right].
        exists ((c1, f1) :: l1), l2. split; [done|]. split; [|lia].
        intros e [->|He]%elem_of_cons; [simpl; lia|by apply Hl1].
Qed.

Lemma mostCommon_groups groups g0 mcc maxF :
  g0 ∈ groups →
  PatternAnalyzer.mostCommon
    (PatternAnalyzer.frequencyEntries (PatternAnalyzer.countFrequency groups))
  = (mcc, maxF) →
  groupsWithCount groups mcc = maxF
  ∧ (∀ count, (groupsWithCount groups count ≤ maxF)%nat)
  ∧ (∀ count, groupsWithCount groups count = maxF → (mcc ≤ count)%nat).
Proof.
  intros Hg0 Hmc. unfold PatternAnalyzer.mostCommon in Hmc.
  set (l := PatternAnalyzer.frequencyEntries _) in *.
  assert (∀ c f, (c, f) ∈ l ↔ groupsWithCount groups c = f ∧ f ≠ O) as Hl.
  { intros c f. unfold l. rewrite frequencyEntries_elem_of, countFrequency_lookup.
    destruct (groupsWithCount groups c) as [|n].
    - split; [done|]. by intros [<- ?].
    - split; [by intros [= <-]|]. by intros [-> _]. }
  assert (groupsWithCount groups (length g0.2) ≠ O) as Hpos.
  { unfold groupsWithCount. intros Hz%length_zero_iff_nil.
    by pose proof (filter_nil_not_elem_of _ _ g0 Hz eq_refl). }
  destruct (mostCommon_fold _ _ _ _ _ Hmc) as (Hall & _ & Hcase).
  assert (maxF ≠ O) as HmaxF.
  { specialize (Hall (length g0.2, groupsWithCount groups (length g0.2))).
    simpl in Hall. intros ->. apply Hpos.
    assert (groupsWithCount groups (length g0.2) ≤ 0)%nat; [|lia].
    apply Hall. by apply Hl. }
  destruct Hcase as [[= -> ->]|(l1 & l2 & Hsplit & Hl1 & _)]; [done|].
  assert ((mcc, maxF) ∈ l) as Hin.
  { rewrite Hsplit. apply elem_of_app. right. left. }
  apply Hl in Hin as [Hmcc _]. split; [done|]. split.
  - intros c. destruct (groupsWithCount groups c) as [|n] eqn:Hc; [lia|].
    apply (Hall (c, S n)). apply Hl. by rewrite Hc.
  - intros c Hc.
    assert ((c, maxF) ∈ l) as Hcin by (by apply Hl).
    rewrite Hsplit in Hcin.
    apply elem_of_app in Hcin as [Hc1|Hc2].
    { specialize (Hl1 _ Hc1). simpl in Hl1. lia. }
    apply elem_of_cons in Hc2 as [[= ->]|Hc2]; [done|].
    pose proof (frequencyEntries_ascending (PatternAnalyzer.countFrequency groups)) as Hs.
    fold l in Hs. rewrite Hsplit in Hs.
    apply StronglySorted_app_1_r, StronglySorted_cons in Hs as [Hs _].
    rewrite Forall_forall in Hs. apply (Hs _ Hc2).
Qed.

Lemma sortOrdersOf_nonempty files k :
  sortOrdersOf files k ≠ [] ↔ k ∈ skusOf files.
Proof.
  unfold sortOrdersOf, skusOf. rewrite elem_of_remove_dups, list_elem_of_fmap.
  split.
  - destruct (filter _ files) as [|f l] eqn:E; [done|]. intros _.
    assert (f ∈ filter (λ f, Types.pf_sku f = k ∧ Types.pf_isValid f) files) as Hf
      by (rewrite E; left).
    apply list_elem_of_filter in Hf as [[Hk Hv] Hf].
    exists f. split; [done|]. by apply list_elem_of_filter.
  - intros (f & -> & [Hv Hf]%list_elem_of_filter) Hnil.
    apply fmap_nil_inv in Hnil.
    by pose proof (filter_nil_not_elem_of _ _ f Hnil (conj eq_refl Hv)).
Qed.

Lemma filter_fmap_pair_length (h : string → list Z) (count : nat) (ks : list string) :
  length (filter (λ g : string * list Z, length g.2 = count) ((λ k, (k, h k)) <$> ks))
  = length (filter (λ k, length (h k) = count) ks).
Proof.
  induction ks as [|k ks IH]; [done|]. csimpl.
  destruct (decide (length (h k) = count)).
  - rewrite !filter_cons_True by done. simpl. by rewrite IH.
  - by rewrite !filter_cons_False by done.
Qed.

(** The groups built by the analyzer are the SKUs of the valid files with
    their sort orders. *)
Lemma groups_of_valid_files files g :
  PatternAnalyzer.groupSortOrders (filter (λ f, Types.pf_isValid f) files) = Return g →
  (Js.entries g).*1 ≡ₚ skusOf files
  ∧ Js.entries g = (λ k, (k, sortOrdersOf files k)) <$> (Js.entries g).*1.
Proof.
  intros Hg.
  assert (∀ k v, (k, v) ∈ Js.entries g ↔ v = sortOrdersOf files k ∧ v ≠ []) as Hin.
  { intros k v. rewrite (groupSortOrders_elem_of _ _ _ _ Hg).
    by rewrite ordersIn_valid. }
  split.
  - apply NoDup_Permutation.
    + apply entries_NoDup. by destruct (groupSortOrders_own _ _ "" Hg).
    + apply NoDup_remove_dups.
    + intros k. rewrite <- sortOrdersOf_nonempty, list_elem_of_fmap. split.
      * intros ([k' v] & -> & Hkv). apply Hin in Hkv as [-> ?]. done.
      * intros Hne. exists (k, sortOrdersOf files k). split; [done|]. by apply Hin.
  - assert (Forall (λ kv, kv.2 = sortOrdersOf files kv.1) (Js.entries g)) as Hall.
    { apply Forall_forall. intros [k v] Hkv. by apply Hin in Hkv as [-> _]. }
    clear Hin Hg. induction Hall as [|[k v] l Hkv _ IH]; [done|].
    simpl in Hkv. csimpl. by rewrite <- IH, Hkv.
Qed.

Lemma groupsWithCount_skus files g count :
  PatternAnalyzer.groupSortOrders (filter (λ f, Types.pf_isValid f) files) = Return g →
  groupsWithCount (Js.entries g) count = skusWithCount files count.
Proof.
  intros Hg. destruct (groups_of_valid_files files g Hg) as [Hperm Heq].
  unfold groupsWithCount, skusWithCount. rewrite Heq.
  rewrite filter_fmap_pair_length.
  by rewrite Hperm.
Qed.

(** C10. Whenever [analyzeImagePattern] returns an analysis, no count
    is the image count of more SKUs than [mostCommonCount] is, and
    [mostCommonCount] is the smallest of the counts that share this
    maximal frequency. *)
Theorem mostCommonCount_smallest localeCompare files analysis :
  PatternAnalyzer.analyzeImagePattern localeCompare files = Return (Some analysis) →
  (∀ count,
     (skusWithCount files count
      ≤ skusWithCount files (PatternAnalyzer.mostCommonCount analysis))%nat)
  ∧ (∀ count,
       (∀ other, (skusWithCount files other ≤ skusWithCount files count)%nat) →
       (PatternAnalyzer.mostCommonCount analysis ≤ count)%nat).
Proof.
  unfold PatternAnalyzer.analyzeImagePattern, Js.keys.
  set (valid := filter _ files).
  destruct (length valid =? 0)%nat; [done|].
  destruct (PatternAnalyzer.groupSortOrders valid) as [g|e] eqn:Hg; [|done].
  destruct (length (Js.entries g).*1 =? 0)%nat eqn:Hlen; [done|].
  destruct (PatternAnalyzer.mostCommon _) as [mcc maxF] eqn:Hmc.
  destruct (length (Js.entries g).*1 <? 2)%nat; [done|].
  intros [= <-]. simpl.
  destruct (Js.entries g) as [|g0 groups] eqn:Hgroups; [done|].
  destruct (mostCommon_groups (g0 :: groups) g0 mcc maxF) as (Hmcc & Hmax & Hmin);
    [left|done|].
  rewrite <- Hgroups in *.
  assert (∀ c, groupsWithCount (Js.entries g) c = skusWithCount files c) as Hcount
    by (intros c; by apply groupsWithCount_skus).
  split.
  - intros count. rewrite <- !Hcount, Hmcc. apply Hmax.
  - intros count Hbest. apply Hmin.
    specialize (Hbest mcc). rewrite <- !Hcount, Hmcc in Hbest.
    specialize (Hmax count). lia.
Qed.

(** C10 on an input where the counts 2 and 3 tie: 2 is chosen. *)
Lemma mostCommonCount_smallest_witness :
  (∀ count, (skusWithCount unevenFiles count ≤ skusWithCount unevenFiles 2)%nat)
  ∧ (∀ count,
       (∀ other, (skusWithCount unevenFiles other ≤ skusWithCount unevenFiles count)%nat) →
       (2 ≤ count)%nat).
Proof.
  apply (mostCommonCount_smallest codeCompare unevenFiles
           {| PatternAnalyzer.mostCommonCount := 2;
              PatternAnalyzer.totalSkus := 5;
              PatternAnalyzer.skusWithExpectedCount := 2;
              PatternAnalyzer.warnings := [];
              PatternAnalyzer.isConsistentPattern := false |}).
  vm_compute. reflexivity.
Defined.

Example unevenFiles_tie :
  skusWithCount unevenFiles 2 = 2%nat ∧ skusWithCount unevenFiles 3 = 2%nat.
Proof. split; reflexivity. Qed.

(** ** The pool of upload tasks *)
Section PoolFacts.
Import ImageQueue.
Context (remote : Remote).

Lemma startNext_width p :
  (length (active p) ≤ MAX_CONCURRENT)%nat →
  (length (active (startNext p)) ≤ MAX_CONCURRENT)%nat.
Proof.
  unfold startNext. destruct (queue p) as [|[i t] q]; [done|].
  destruct (length (active p) <? MAX_CONCURRENT)%nat eqn:E; [|done].
  apply Nat.ltb_lt in E. intros _. simpl. rewrite length_app. simpl. lia.
Qed.

Lemma poolStep_width p :
  (length (active p) ≤ MAX_CONCURRENT)%nat →
  (length (active (poolStep remote p)) ≤ MAX_CONCURRENT)%nat.
Proof.
  intros Hp. unfold poolStep. destruct (active p) as [|r0 rs] eqn:Hactive; [by rewrite Hactive|].
  set (k := (_ `mod` _)%nat).
  destruct (_ !! k) as [r|] eqn:Hk; [|by rewrite Hactive].
  destruct (advance remote (log p) r) as [log' [r'|result]].
  - cbn [active]. by rewrite length_insert.
  - apply startNext_width. cbn [active].
    pose proof (length_delete (r0 :: rs) k (mk_is_Some _ _ Hk)). lia.
Qed.

Lemma iter_startNext_width n p :
  (length (active p) ≤ MAX_CONCURRENT)%nat →
  (length (active (Nat.iter n startNext p)) ≤ MAX_CONCURRENT)%nat.
Proof. intros Hp. induction n; simpl; [done|by apply startNext_width]. Qed.

Lemma dispatch_width tasks log0 :
  (length (active (dispatch tasks log0)) ≤ MAX_CONCURRENT)%nat.
Proof. apply iter_startNext_width. simpl. lia. Qed.

Lemma poolAfter_width n p :
  (length (active p) ≤ MAX_CONCURRENT)%nat →
  (length (active (poolAfter remote n p)) ≤ MAX_CONCURRENT)%nat.
Proof. intros Hp. induction n; simpl; [done|by apply poolStep_width]. Qed.

Lemma startNext_count p :
  length (active (startNext p))
  = (if decide (queue p ≠ [] ∧ length (active p) < MAX_CONCURRENT)%nat
     then S (length (active p)) else length (active p))
  ∧ (length (queue (startNext p)) + length (active (startNext p))
     = length (queue p) + length (active p))%nat.
Proof.
  unfold startNext. destruct (queue p) as [|[i t] q] eqn:Hq.
  { rewrite Hq, decide_False; [done|]. by intros [? _]. }
  destruct (length (active p) <? MAX_CONCURRENT)%nat eqn:E.
  - apply Nat.ltb_lt in E. rewrite decide_True by done.
    cbn [active queue]. rewrite length_app. simpl. lia.
  - apply Nat.ltb_ge in E. rewrite Hq, decide_False; [done|]. intros [_ ?]. lia.
Qed.

(** Dispatching starts as many tasks as the pool has room for. *)
Lemma iter_startNext_count n k p :
  active p = [] → length (queue p) = n → (k ≤ n)%nat →
  length (active (Nat.iter k startNext p)) = (k `min` MAX_CONCURRENT)%nat
  ∧ (length (queue (Nat.iter k startNext p))
     + length (active (Nat.iter k startNext p)) = n)%nat.
Proof.
  intros Ha Hq. induction k as [|k IH]; intros Hk.
  - cbn [Nat.iter nat_rect]. rewrite Ha. simpl. lia.
  - destruct IH as [IHa IHq]; [lia|].
    change (Nat.iter (S k) startNext p) with (startNext (Nat.iter k startNext p)).
    set (P := Nat.iter k startNext p) in *.
    destruct (startNext_count P) as [Hsa Hsq]. rewrite Hsq, Hsa.
    split; [|done]. case_decide as Hd.
    + destruct Hd as [_ Hd]. lia.
    + assert (queue P ≠ []) as Hne.
      { intros Hnil. rewrite Hnil in IHq. simpl in IHq.
        unfold MAX_CONCURRENT in *. lia. }
      assert (¬ (length (active P) < MAX_CONCURRENT)%nat) by tauto. lia.
Qed.

Lemma dispatch_count tasks log0 :
  length (active (dispatch tasks log0))
  = (length tasks `min` MAX_CONCURRENT)%nat
  ∧ (length (queue (dispatch tasks log0))
     = length tasks - MAX_CONCURRENT)%nat.
Proof.
  unfold dispatch.
  destruct (iter_startNext_count (length tasks) (length tasks)
              {| queue := imap pair tasks; active := []; settled := ∅; log := log0 |}
              eq_refl (length_imap _ _) (le_n _)) as [Ha Hq].
  split; [done|]. lia.
Qed.
End PoolFacts.

(** When more than [MAX_CONCURRENT] upload tasks are submitted to the
    pool, [MAX_CONCURRENT] of them are started at once, and after any
    number of answers, in any order the remote side gives them, at most
    [MAX_CONCURRENT] tasks are in flight. *)
Corollary dispatch_fills_pool remote tasks log0 :
  (ImageQueue.MAX_CONCURRENT < length tasks)%nat →
  length (ImageQueue.active (ImageQueue.dispatch tasks log0))
  = ImageQueue.MAX_CONCURRENT
  ∧ ∀ n,
      (length (ImageQueue.active
                 (ImageQueue.poolAfter remote n (ImageQueue.dispatch tasks log0)))
       ≤ ImageQueue.MAX_CONCURRENT)%nat.
Proof.
  intros Hmany. split.
  - destruct (dispatch_count tasks log0) as [-> _]. lia.
  - intros n. apply (poolAfter_width remote n), dispatch_width.
Qed.

Example seven_tasks_two_wait :
  length (ImageQueue.active (ImageQueue.dispatch sevenTasks [])) = 5%nat
  ∧ length (ImageQueue.queue (ImageQueue.dispatch sevenTasks [])) = 2%nat.
Proof. split; vm_compute; reflexivity. Qed.

Lemma sum_list_with_insert {A} (f : A → nat) (l : list A) k x y :
  l !! k = Some x →
  (sum_list_with f (<[k:=y]> l) + f x = sum_list_with f l + f y)%nat.
Proof.
  intros Hk. rewrite insert_take_drop by (by eapply lookup_lt_Some).
  rewrite <- (take_drop_middle l k x Hk) at 3.
  rewrite !sum_list_with_app. simpl. lia.
Qed.

Lemma sum_list_with_delete {A} (f : A → nat) (l : list A) k x :
  l !! k = Some x →
  (sum_list_with f (delete k l) + f x = sum_list_with f l)%nat.
Proof.
  intros Hk. rewrite delete_take_drop.
  rewrite <- (take_drop_middle l k x Hk) at 3.
  rewrite !sum_list_with_app. simpl. lia.
Qed.

Section PoolProgress.
Import ImageQueue.
Context (remote : Remote).

(** An answer adds one event of an upload call to the log and moves the
    task one step on. *)
Lemma advance_shape log0 r :
  ∃ call failure,
    (advance remote log0 r).1 = log0 ++ [Answered call failure]
    ∧ isUploadCall call
    ∧ match (advance remote log0 r).2 with
      | inl r' =>
          index r' = index r ∧ task r' = task r
          ∧ S (answersLeft (stage r')) = answersLeft (stage r)
      | inr result =>
          result = successResult (task r)
          ∨ ∃ e, result = errorResult (task r) e
      end.
Proof.
  unfold advance. destruct (stage r) eqn:Hstage.
  - destruct (createStagedUpload _ _ _); do 2 eexists; cbn [fst snd];
      split_and!; eauto; done.
  - destruct (uploadToStagedTarget _ _ _ _); do 2 eexists; cbn [fst snd];
      split_and!; eauto; done.
  - destruct (createProductMedia _ _ _ _ _); do 2 eexists; cbn [fst snd];
      split_and!; eauto; done.
Qed.

Lemma inFlight_app a b : inFlight (a ++ b) = inFlight a + inFlight b.
Proof. induction a as [|e a IH]; simpl; [done|]. rewrite IH. lia. Qed.

Lemma withinWidth_app n a b :
  withinWidth n (a ++ b) ↔ withinWidth n a ∧ withinWidth (n + inFlight a) b.
Proof.
  revert n. induction a as [|e a IH]; intros n; simpl.
  - rewrite Z.add_0_r. tauto.
  - rewrite IH. replace (n + slotChange e + inFlight a)
      with (n + (slotChange e + inFlight a)) by lia. tauto.
Qed.

(** Appending one event to the events a pool has added to its log. *)
Lemma tracks_snoc events e n :
  Forall isUploadEvent events → withinWidth 0 events →
  isUploadEvent e →
  0 ≤ inFlight events + slotChange e ≤ Z.of_nat MAX_CONCURRENT →
  inFlight events + slotChange e = n →
  Forall isUploadEvent (events ++ [e])
  ∧ withinWidth 0 (events ++ [e])
  ∧ inFlight (events ++ [e]) = n.
Proof.
  intros Hall Hwidth He Hrange Hn. split_and!.
  - apply Forall_app. split; [done|]. by constructor.
  - apply withinWidth_app. split; [done|]. simpl. split; [lia|done].
  - rewrite inFlight_app. simpl. lia.
Qed.

Lemma startNext_tracks log0 p : tracks log0 p → tracks log0 (startNext p).
Proof.
  unfold startNext. destruct (queue p) as [|[i t] q]; [done|].
  destruct (_ <? _)%nat eqn:E; [|done]. apply Nat.ltb_lt in E.
  intros (events & Hlog & Hall & Hwidth & Hcount).
  exists (events ++ [Started i]). cbn [log active].
  split; [by rewrite Hlog, app_assoc|].
  apply tracks_snoc; try done; rewrite ?length_app; simpl; lia.
Qed.

Lemma poolStep_tracks log0 p : tracks log0 p → tracks log0 (poolStep remote p).
Proof.
  unfold poolStep. intros Hp.
  destruct (active p) as [|r0 rs] eqn:Hactive; [done|].
  set (k := (_ `mod` _)%nat).
  destruct (_ !! k) as [r|] eqn:Hk; [|done].
  destruct Hp as (events & Hlog & Hall & Hwidth & Hcount).
  rewrite Hactive in Hcount.
  assert (0 ≤ inFlight events ≤ Z.of_nat MAX_CONCURRENT) as Hrange.
  { destruct events as [|e events] using rev_ind; [simpl; lia|].
    apply withinWidth_app in Hwidth as [_ [Hlast _]].
    rewrite inFlight_app. simpl in *. lia. }
  destruct (advance_shape (log p) r) as (call & failure & Hstep & Hcall & _).
  destruct (advance remote (log p) r) as [log' [r'|result]];
    simpl in Hstep; subst log'.
  - exists (events ++ [Answered call failure]). cbn [log active].
    split; [by rewrite Hlog, app_assoc|].
    apply tracks_snoc; try done; rewrite ?length_insert; simpl in *; lia.
  - apply startNext_tracks.
    destruct (tracks_snoc events (Answered call failure) (inFlight events))
      as (Hall1 & Hwidth1 & Hcount1); try done; simpl; try lia.
    exists ((events ++ [Answered call failure]) ++ [Settled (index r)]).
    cbn [log active]. split; [by rewrite Hlog, !app_assoc|].
    pose proof (length_delete (r0 :: rs) k (mk_is_Some _ _ Hk)) as Hdel.
    apply tracks_snoc; try done; rewrite Hcount1; simpl in *; lia.
Qed.

Lemma poolAfter_tracks log0 n p : tracks log0 p → tracks log0 (poolAfter remote n p).
Proof.
  intros Hp. induction n as [|n IH]; [done|].
  change (poolAfter remote (S n) p) with (poolStep remote (poolAfter remote n p)).
  by apply poolStep_tracks.
Qed.

Lemma dispatch_tracks tasks log0 : tracks log0 (dispatch tasks log0).
Proof.
  unfold dispatch. induction (length tasks) as [|n IH].
  - exists []. cbn. by rewrite app_nil_r.
  - change (Nat.iter (S n) startNext ?p) with (startNext (Nat.iter n startNext p)).
    by apply startNext_tracks.
Qed.

Lemma startNext_settled p : settled (startNext p) = settled p.
Proof.
  unfold startNext. destruct (queue p) as [|[i t] q]; [done|].
  by destruct (_ <? _)%nat.
Qed.

Lemma startNext_workLeft p : workLeft (startNext p) = workLeft p.
Proof.
  unfold startNext, workLeft. destruct (queue p) as [|[i t] q] eqn:Hq; [by rewrite Hq|].
  destruct (_ <? _)%nat; [|by rewrite Hq].
  cbn [queue active]. rewrite sum_list_with_app. simpl. lia.
Qed.

Lemma startNext_covers n p : covers n p → covers n (startNext p).
Proof.
  unfold startNext, covers. destruct (queue p) as [|[i t] q] eqn:Hq; [by rewrite Hq|].
  destruct (_ <? _)%nat; [|by rewrite Hq].
  intros Hp j Hj. cbn [queue active settled].
  destruct (Hp j Hj) as [Hin|[Hin|Hin]];
    [|by right; left; rewrite fmap_app, elem_of_app; left|by do 2 right].
  rewrite fmap_cons in Hin. apply elem_of_cons in Hin as [->|Hin]; [|by left].
  right; left. rewrite fmap_app, elem_of_app. right. simpl. left.
Qed.

Lemma poolStep_saturated p : saturated p → saturated (poolStep remote p).
Proof.
  unfold poolStep, saturated. intros Hp.
  destruct (active p) as [|r0 rs] eqn:Hactive; [by rewrite Hactive|].
  set (k := (_ `mod` _)%nat).
  destruct (_ !! k) as [r|] eqn:Hk; [|by rewrite Hactive].
  destruct (advance remote (log p) r) as [log' [r'|result]].
  - cbn [queue active]. by rewrite length_insert.
  - set (p' := {| queue := queue p |}).
    destruct (startNext_count p') as [Ha Hq]. intros Hne.
    pose proof (length_delete (r0 :: rs) k (mk_is_Some _ _ Hk)) as Hdel.
    assert (queue p ≠ []) as Hqp.
    { intros Hnil. apply Hne. unfold startNext. subst p'. cbn [queue]. by rewrite Hnil. }
    specialize (Hp Hqp). rewrite Ha. subst p'. cbn [queue active] in *.
    unfold MAX_CONCURRENT in *.
    rewrite decide_True; [lia|]. split; [done|]. lia.
Qed.

Lemma poolStep_workLeft p :
  active p ≠ [] → (workLeft (poolStep remote p) < workLeft p)%nat.
Proof.
  unfold poolStep. intros Hne.
  destruct (active p) as [|r0 rs] eqn:Hactive; [done|].
  set (k := (_ `mod` _)%nat).
  assert (k < length (r0 :: rs))%nat as Hlt by (apply Nat.mod_upper_bound; done).
  destruct (lookup_lt_is_Some_2 _ _ Hlt) as [r Hk]. rewrite Hk.
  destruct (advance_shape (log p) r) as (call & failure & _ & _ & Hstep).
  destruct (advance remote (log p) r) as [log' [r'|result]]; simpl in Hstep.
  - unfold workLeft. cbn [queue active]. rewrite Hactive.
    pose proof (sum_list_with_insert (λ r, answersLeft (stage r)) _ k r r' Hk).
    simpl in *. lia.
  - rewrite startNext_workLeft. unfold workLeft. cbn [queue active]. rewrite Hactive.
    pose proof (sum_list_with_delete (λ r, answersLeft (stage r)) _ k r Hk).
    assert (1 ≤ answersLeft (stage r))%nat by (destruct (stage r); simpl; lia).
    simpl in *. lia.
Qed.

Lemma poolStep_covers n p : covers n p → covers n (poolStep remote p).
Proof.
  unfold poolStep. intros Hp.
  destruct (active p) as [|r0 rs] eqn:Hactive; [done|].
  set (k := (_ `mod` _)%nat).
  destruct (_ !! k) as [r|] eqn:Hk; [|done].
  destruct (advance_shape (log p) r) as (call & failure & _ & _ & Hstep).
  destruct (advance remote (log p) r) as [log' [r'|result]]; simpl in Hstep.
  - intros j Hj. cbn [queue active settled].
    destruct (Hp j Hj) as [Hin|[Hin|Hin]]; [by left| |by do 2 right].
    right; left. rewrite Hactive in Hin. rewrite list_fmap_insert.
    destruct Hstep as (Hidx & _). rewrite Hidx.
    rewrite list_insert_id; [done|]. by rewrite list_lookup_fmap, Hk.
  - apply startNext_covers. intros j Hj. cbn [queue active settled].
    destruct (Hp j Hj) as [Hin|[Hin|Hin]]; [by left| |].
    + rewrite Hactive in Hin.
      destruct (decide (j = index r)) as [->|Hjr].
      { do 2 right. rewrite lookup_insert_eq. eauto. }
      right; left. rewrite list_fmap_delete.
      apply list_elem_of_lookup in Hin as [i Hi].
      rewrite delete_take_drop.
      assert (i ≠ k).
      { intros ->. rewrite list_lookup_fmap, Hk in Hi. simpl in Hi. congruence. }
      apply list_elem_of_lookup.
      destruct (decide (i < k)%nat).
      * exists i. rewrite lookup_app_l by (rewrite length_take; apply lookup_lt_Some in Hi; lia).
        by rewrite lookup_take_lt.
      * exists (i - 1)%nat.
        assert (k < length (index <$> r0 :: rs))%nat
          by (rewrite length_fmap; by eapply lookup_lt_Some).
        rewrite lookup_app_r by (rewrite length_take; lia).
        rewrite length_take, lookup_drop. rewrite <- Hi. f_equal. lia.
    + do 2 right. destruct (decide (j = index r)) as [->|Hjr].
      * rewrite lookup_insert_eq. eauto.
      * by rewrite lookup_insert_ne.
Qed.
End PoolProgress.

Section PoolCompletion.
Import ImageQueue.
Context (remote : Remote).

Lemma startNext_wellIndexed tasks p :
  wellIndexed tasks p → wellIndexed tasks (startNext p).
Proof.
  unfold startNext. destruct (queue p) as [|[i t] q] eqn:Hq; [done|].
  destruct (_ <? _)%nat; [|done].
  intros (Hqueue & Hactive & Hsettled). rewrite Hq in Hqueue.
  split_and!; cbn [queue active settled]; [| |done].
  - intros j u Hin. apply Hqueue. by right.
  - intros r [Hr | ->%list_elem_of_singleton]%elem_of_app; [by apply Hactive|].
    simpl. apply Hqueue. left.
Qed.

Lemma poolStep_wellIndexed tasks p :
  wellIndexed tasks p → wellIndexed tasks (poolStep remote p).
Proof.
  unfold poolStep. intros Hp.
  destruct (active p) as [|r0 rs] eqn:Hactive; [done|].
  set (k := (_ `mod` _)%nat).
  destruct (_ !! k) as [r|] eqn:Hk; [|done].
  destruct Hp as (Hqueue & Hact & Hsettled). rewrite Hactive in Hact.
  assert (r ∈ r0 :: rs) as Hr by (apply list_elem_of_lookup; eauto).
  destruct (advance_shape remote (log p) r) as (call & failure & _ & _ & Hstep).
  destruct (advance remote (log p) r) as [log' [r'|result]]; simpl in Hstep.
  - split_and!; cbn [queue active settled]; [done| |done].
    destruct Hstep as (Hidx & Htask & _).
    intros x Hx. apply list_elem_of_lookup in Hx as [i Hx].
    destruct (decide (i = k)) as [->|Hik].
    + rewrite list_lookup_insert_eq in Hx by (by eapply lookup_lt_Some).
      simplify_eq. rewrite Hidx, Htask. by apply Hact.
    + rewrite list_lookup_insert_ne in Hx by done.
      apply Hact, list_elem_of_lookup. eauto.
  - apply startNext_wellIndexed.
    split_and!; cbn [queue active settled]; [done| |].
    + intros x Hx%list_elem_of_delete_inv. by apply Hact.
    + intros i res. destruct (decide (i = index r)) as [->|Hi].
      * rewrite lookup_insert_eq. intros [= <-]. exists (task r).
        split; [by apply Hact|done].
      * rewrite lookup_insert_ne by done. apply Hsettled.
Qed.

Lemma iter_startNext_invariants tasks n p :
  wellIndexed tasks p → covers (length tasks) p →
  wellIndexed tasks (Nat.iter n startNext p)
  ∧ covers (length tasks) (Nat.iter n startNext p)
  ∧ workLeft (Nat.iter n startNext p) = workLeft p.
Proof.
  intros Hw Hc. induction n as [|n (IHw & IHc & IHl)]; [done|].
  change (Nat.iter (S n) startNext p) with (startNext (Nat.iter n startNext p)).
  split_and!.
  - by apply startNext_wellIndexed.
  - by apply startNext_covers.
  - by rewrite startNext_workLeft.
Qed.

Lemma dispatch_invariants tasks log0 :
  wellIndexed tasks (dispatch tasks log0)
  ∧ covers (length tasks) (dispatch tasks log0)
  ∧ saturated (dispatch tasks log0)
  ∧ workLeft (dispatch tasks log0) = (3 * length tasks)%nat.
Proof.
  set (p0 := {| queue := imap pair tasks; active := []; settled := ∅; log := log0 |}).
  destruct (iter_startNext_invariants tasks (length tasks) p0) as (Hw & Hc & Hl).
  { unfold p0. split_and!; cbn [queue active settled].
    - intros i t Hin. apply list_elem_of_lookup in Hin as [j Hj].
      rewrite list_lookup_imap in Hj.
      destruct (tasks !! j) eqn:E; simpl in Hj; by simplify_eq.
    - by intros r ?%elem_of_nil.
    - intros i res. by rewrite lookup_empty. }
  { intros i Hi. left. unfold p0. cbn [queue].
    destruct (lookup_lt_is_Some_2 tasks i Hi) as [t Ht].
    apply list_elem_of_fmap. exists (i, t). split; [done|].
    apply list_elem_of_lookup. exists i. by rewrite list_lookup_imap, Ht. }
  split_and!; try done.
  - destruct (dispatch_count tasks log0) as [Ha Hq]. intros Hne.
    rewrite Ha. destruct (queue (dispatch tasks log0)) eqn:E; [done|].
    simpl in Hq. unfold MAX_CONCURRENT in *. lia.
  - unfold dispatch. fold p0. rewrite Hl. unfold workLeft, p0. cbn [queue active].
    rewrite length_imap. simpl. lia.
Qed.

Lemma poolAfter_invariants tasks n p :
  wellIndexed tasks p → covers (length tasks) p → saturated p →
  wellIndexed tasks (poolAfter remote n p)
  ∧ covers (length tasks) (poolAfter remote n p)
  ∧ saturated (poolAfter remote n p)
  ∧ (workLeft (poolAfter remote n p) ≤ workLeft p - n)%nat.
Proof.
  intros Hw Hc Hs. induction n as [|n (IHw & IHc & IHs & IHl)].
  { split_and!; try done. simpl. lia. }
  change (poolAfter remote (S n) p) with (poolStep remote (poolAfter remote n p)).
  set (q := poolAfter remote n p) in *.
  split_and!.
  - by apply poolStep_wellIndexed.
  - by apply poolStep_covers.
  - by apply poolStep_saturated.
  - destruct (active q) as [|r0 rs] eqn:Hactive.
    + unfold poolStep. rewrite Hactive.
      assert (queue q = []) as Hq.
      { destruct (queue q) eqn:E; [done|]. unfold saturated in IHs.
        rewrite E, Hactive in IHs. by specialize (IHs ltac:(done)). }
      unfold workLeft. rewrite Hq, Hactive. simpl. lia.
    + pose proof (poolStep_workLeft remote q) as Hlt.
      rewrite Hactive in Hlt. specialize (Hlt ltac:(done)). lia.
Qed.

Lemma workLeft_zero p : workLeft p = O → queue p = [] ∧ active p = [].
Proof.
  unfold workLeft. intros H. split.
  - destruct (queue p); [done|]. simpl in H. lia.
  - destruct (active p) as [|r rs]; [done|]. simpl in H.
    destruct (stage r); simpl in H; lia.
Qed.

Lemma omap_lookup_total {A} (R : UploadTask → A → Prop) (m : gmap nat A) tasks k :
  (∀ i t, tasks !! i = Some t → ∃ a, m !! (k + i)%nat = Some a ∧ R t a) →
  Forall2 R tasks (omap (λ i, m !! i) (seq k (length tasks))).
Proof.
  revert k. induction tasks as [|t tasks IH]; intros k Hm; [constructor|].
  destruct (Hm O t eq_refl) as (a & Ha & HR). rewrite Nat.add_0_r in Ha.
  csimpl. rewrite Ha. constructor; [done|]. apply IH.
  intros i u Hi. destruct (Hm (S i) u Hi) as (b & Hb & HRb).
  exists b. split; [|done]. by rewrite <- Hb, Nat.add_succ_r.
Qed.

(** [Promise.all] settles: every task has a result, in the order of
    submission, decided by the answers to its own calls. The log grows by
    events of the upload phase only; they never leave more than
    [MAX_CONCURRENT] tasks in flight, and none at the end. *)
Lemma awaitAll_results tasks log0 :
  Forall2 resultOf tasks (awaitAll remote tasks log0).1
  ∧ ∃ events,
      (awaitAll remote tasks log0).2 = log0 ++ events
      ∧ Forall isUploadEvent events
      ∧ withinWidth 0 events
      ∧ inFlight events = 0.
Proof.
  unfold awaitAll. cbn [fst snd].
  destruct (dispatch_invariants tasks log0) as (Hw0 & Hc0 & Hs0 & Hl0).
  destruct (poolAfter_invariants tasks (3 * length tasks) _ Hw0 Hc0 Hs0)
    as (Hw & Hc & _ & Hl).
  pose proof (poolAfter_tracks remote log0 (3 * length tasks) _
                (dispatch_tracks tasks log0)) as Htracks.
  set (p := poolAfter remote (3 * length tasks) (dispatch tasks log0)) in *.
  destruct (workLeft_zero p) as [Hq Ha]; [lia|].
  split.
  - apply (omap_lookup_total resultOf (settled p) tasks 0).
    intros i t Hi. destruct (Hc i) as [Hin|[Hin|[res Hres]]].
    + by eapply lookup_lt_Some.
    + rewrite Hq in Hin. by apply elem_of_nil in Hin.
    + rewrite Ha in Hin. by apply elem_of_nil in Hin.
    + exists res. split; [done|].
      destruct Hw as (_ & _ & Hsettled).
      destruct (Hsettled i res Hres) as (t' & Ht' & HR). by simplify_eq.
  - destruct Htracks as (events & Hlog & Hall & Hwidth & Hcount).
    exists events. rewrite Ha in Hcount. by split_and!.
Qed.
End PoolCompletion.

(** ** Answers of [deleteProductMedia] do not reach the upload tasks *)
Section Alike.
Import ImageQueue.
Context (r1 r2 : Remote) (Hsame : sameUploads r1 r2).

Lemma calls_app log1 log2 : calls (log1 ++ log2) = calls log1 ++ calls log2.
Proof. unfold calls. apply omap_app. Qed.

Lemma calls_snoc log0 call failure :
  calls (log0 ++ [Answered call failure]) = calls log0 ++ [call].
Proof. by rewrite calls_app. Qed.

Lemma advance_alike log1 log2 x :
  calls log1 = calls log2 →
  (advance r1 log1 x).2 = (advance r2 log2 x).2
  ∧ calls (advance r1 log1 x).1 = calls (advance r2 log2 x).1.
Proof.
  destruct Hsame as (H1 & H2 & H3 & _). intros Hcalls.
  unfold advance. rewrite H1, H2, H3, Hcalls. destruct (stage x).
  - destruct (createStagedUpload _ _ _); cbn [fst snd];
      by rewrite !calls_snoc, Hcalls.
  - destruct (uploadToStagedTarget _ _ _ _); cbn [fst snd];
      by rewrite !calls_snoc, Hcalls.
  - destruct (createProductMedia _ _ _ _ _); cbn [fst snd];
      by rewrite !calls_snoc, Hcalls.
Qed.

Lemma startNext_alike p1 p2 : alike p1 p2 → alike (startNext p1) (startNext p2).
Proof.
  intros Hp. pose proof Hp as (Hq & Ha & Hs & Hl).
  unfold startNext. rewrite <- Hq, <- Ha.
  destruct (queue p1) as [|[i t] q]; [done|].
  destruct (_ <? _)%nat; [|done].
  unfold alike; split_and!; cbn [queue active settled log]; try done.
  by rewrite !calls_app, Hl.
Qed.

Lemma poolStep_alike p1 p2 : alike p1 p2 → alike (poolStep r1 p1) (poolStep r2 p2).
Proof.
  intros Hp. pose proof Hp as (Hq & Ha & Hs & Hl). unfold poolStep.
  destruct Hsame as (_ & _ & _ & Hnext). rewrite <- Ha, <- Hl, <- Hnext.
  destruct (active p1) as [|x xs]; [done|].
  set (k := (_ `mod` _)%nat).
  destruct (_ !! k) as [r|]; [|done].
  destruct (advance_alike (log p1) (log p2) r Hl) as [Hres Hlog].
  destruct (advance r1 (log p1) r) as [log1 [r'|res]];
    destruct (advance r2 (log p2) r) as [log2 [r''|res']]; simplify_eq/=.
  - by unfold alike; split_and!; cbn [queue active settled log].
  - apply startNext_alike.
    unfold alike; split_and!; cbn [queue active settled log]; try congruence.
    by rewrite !calls_app, Hlog.
Qed.

Lemma poolAfter_alike n p1 p2 :
  alike p1 p2 → alike (poolAfter r1 n p1) (poolAfter r2 n p2).
Proof.
  intros Hp. induction n as [|n IH]; [done|].
  change (poolAfter r1 (S n) p1) with (poolStep r1 (poolAfter r1 n p1)).
  change (poolAfter r2 (S n) p2) with (poolStep r2 (poolAfter r2 n p2)).
  by apply poolStep_alike.
Qed.

Lemma dispatch_alike tasks log1 log2 :
  calls log1 = calls log2 → alike (dispatch tasks log1) (dispatch tasks log2).
Proof.
  intros Hl. unfold dispatch. induction (length tasks) as [|n IH].
  - by unfold alike; split_and!.
  - change (Nat.iter (S n) startNext ?p) with (startNext (Nat.iter n startNext p)).
    by apply startNext_alike.
Qed.

Lemma awaitAll_alike tasks log1 log2 :
  calls log1 = calls log2 →
  (awaitAll r1 tasks log1).1 = (awaitAll r2 tasks log2).1.
Proof.
  intros Hl. unfold awaitAll. cbn [fst].
  destruct (poolAfter_alike (3 * length tasks) _ _ (dispatch_alike tasks _ _ Hl))
    as (_ & _ & Hs & _).
  by rewrite Hs.
Qed.
End Alike.

Lemma withDelete_sameUploads reply remote : sameUploads (withDelete reply remote) remote.
Proof. by unfold sameUploads; split_and!. Qed.

(** ** [processProductFiles] *)

Lemma processProductFiles_results remote files product settings log0 :
  ∃ log1,
    (ImageQueue.processProductFiles remote files product settings log0).1
    = (ImageQueue.awaitAll remote (tasksOf files product settings) log1).1
    ∧ ImageQueue.calls log1
      = ImageQueue.calls log0
        ++ (if bool_decide (Types.uploadStrategy settings = Types.Replace)
            then if (0 <? length (Types.mediaIds product))%nat
                 then [ImageQueue.DeleteProductMedia (Types.id product)
                         (Types.mediaIds product)]
                 else []
            else []).
Proof.
  unfold ImageQueue.processProductFiles.
  set (log1 := if bool_decide _ then _ else _).
  exists log1. split.
  - by destruct (ImageQueue.awaitAll _ _ log1).
  - unfold log1. case_bool_decide; [|by rewrite app_nil_r].
    destruct (0 <? _)%nat; [|by rewrite app_nil_r]. apply calls_snoc.
Qed.

(** C7. With the strategy [replace] and a product that has media,
    [processProductFiles] makes one [deleteProductMedia] call, and only
    when it has been answered (with or without failure) are the upload
    tasks submitted to the pool: the group is processed as the uploads
    are on a log that ends with the event of the delete call. Every
    event the group adds after it is the start or the settlement of an
    upload task or the answer to a call of one, so no task starts before
    the delete call is answered and no second delete is made; and the
    results of the files are the same whatever the delete call
    answers. *)
Theorem replace_deletes_once_before_uploads remote files product settings log0 :
  Types.uploadStrategy settings = Types.Replace →
  Types.mediaIds product ≠ [] →
  ImageQueue.processProductFiles remote files product settings log0
  = ImageQueue.awaitAll remote (tasksOf files product settings)
      (log0 ++ [deleteEvent remote log0 product])
  ∧ (∃ uploads,
       (ImageQueue.processProductFiles remote files product settings log0).2
       = log0 ++ deleteEvent remote log0 product :: uploads
       ∧ Forall isUploadEvent uploads)
  ∧ ∀ reply,
      (ImageQueue.processProductFiles (withDelete reply remote)
         files product settings log0).1
      = (ImageQueue.processProductFiles remote files product settings log0).1.
Proof.
  intros Hreplace Hmedia.
  assert ((0 <? length (Types.mediaIds product))%nat = true) as Hlen.
  { apply Nat.ltb_lt. destruct (Types.mediaIds product); [done|simpl; lia]. }
  assert (ImageQueue.processProductFiles remote files product settings log0
          = ImageQueue.awaitAll remote (tasksOf files product settings)
              (log0 ++ [deleteEvent remote log0 product])) as Hgroup.
  { unfold ImageQueue.processProductFiles. fold (tasksOf files product settings).
    rewrite Hreplace, Hlen. rewrite bool_decide_true by done.
    rewrite bool_decide_false by done. cbn [andb]. fold (deleteEvent remote log0 product).
    by destruct (ImageQueue.awaitAll _ _ _). }
  split_and!; [done| |].
  - destruct (awaitAll_results remote (tasksOf files product settings)
                (log0 ++ [deleteEvent remote log0 product]))
      as (_ & es & Hlog & Hes & _).
    exists es. split; [|done]. by rewrite Hgroup, Hlog, <- app_assoc.
  - intros reply.
    destruct (processProductFiles_results (withDelete reply remote)
                files product settings log0) as (l1 & -> & Hl1).
    destruct (processProductFiles_results remote files product settings log0)
      as (l2 & -> & Hl2).
    apply awaitAll_alike; [apply withDelete_sameUploads|congruence].
Qed.

(** C7 on a remote side whose delete call fails. *)
Lemma replace_deletes_once_before_uploads_witness :
  ImageQueue.processProductFiles refusingDelete
    [sampleData "DRESS" 2; sampleData "DRESS" 1] sampleProduct replaceSettings []
  = ImageQueue.awaitAll refusingDelete
      (tasksOf [sampleData "DRESS" 2; sampleData "DRESS" 1] sampleProduct replaceSettings)
      ([] ++ [deleteEvent refusingDelete [] sampleProduct])
  ∧ (∃ uploads,
       (ImageQueue.processProductFiles refusingDelete
          [sampleData "DRESS" 2; sampleData "DRESS" 1] sampleProduct replaceSettings []).2
       = [] ++ deleteEvent refusingDelete [] sampleProduct :: uploads
       ∧ Forall isUploadEvent uploads)
  ∧ ∀ reply,
      (ImageQueue.processProductFiles (withDelete reply refusingDelete)
         [sampleData "DRESS" 2; sampleData "DRESS" 1] sampleProduct replaceSettings []).1
      = (ImageQueue.processProductFiles refusingDelete
           [sampleData "DRESS" 2; sampleData "DRESS" 1] sampleProduct replaceSettings []).1.
Proof.
  apply (replace_deletes_once_before_uploads refusingDelete
           [sampleData "DRESS" 2; sampleData "DRESS" 1] sampleProduct replaceSettings []).
  - reflexivity.
  - simpl. discriminate.
Defined.

(** Every file of a group gets one result, in the order of the sort
    orders, and it is a success or the error of one of its own calls. *)
Corollary processProductFiles_one_result_per_file remote files product settings log0 :
  Forall2 resultOf (tasksOf files product settings)
    (ImageQueue.processProductFiles remote files product settings log0).1.
Proof.
  destruct (processProductFiles_results remote files product settings log0)
    as (log1 & -> & _).
  apply awaitAll_results.
Qed.

(** One file fails to register; its neighbours succeed, and the results
    are in the order of the sort orders although the answers interleave. *)
Example failed_upload_is_isolated :
  (λ r, (Types.filename r, Types.status r, Types.errorDetails r))
    <$> (ImageQueue.processProductFiles pickyRemote
           [sampleData "DRESS" 3; sampleData "DRESS" 1; sampleData "DRESS" 2]
           sampleProduct replaceSettings []).1
  = [ ("DRESS-01.jpg", Types.Success, None);
      ("DRESS-02.jpg", Types.Error, Some "Media creation error: Image is invalid");
      ("DRESS-03.jpg", Types.Success, None) ].
Proof. vm_compute. reflexivity. Qed.

Example answers_interleave :
  ImageQueue.calls
    (ImageQueue.processProductFiles pickyRemote
       [sampleData "DRESS" 1; sampleData "DRESS" 2] sampleProduct plainSettings []).2
  = [ ImageQueue.DeleteProductMedia "gid://shopify/Product/1"
        ["gid://shopify/MediaImage/7"; "gid://shopify/MediaImage/8"];
      ImageQueue.CreateStagedUpload (sampleData "DRESS" 2);
      ImageQueue.CreateStagedUpload (sampleData "DRESS" 1);
      ImageQueue.UploadToStagedTarget
        {| Types.url := "https://upload.example/";
           Types.resourceUrl := "https://upload.example/tmp/DRESS-02.jpg";
           Types.parameters := [] |} (sampleData "DRESS" 2);
      ImageQueue.UploadToStagedTarget
        {| Types.url := "https://upload.example/";
           Types.resourceUrl := "https://upload.example/tmp/DRESS-01.jpg";
           Types.parameters := [] |} (sampleData "DRESS" 1);
      ImageQueue.CreateProductMedia "gid://shopify/Product/1"
        "https://upload.example/tmp/DRESS-02.jpg" None;
      ImageQueue.CreateProductMedia "gid://shopify/Product/1"
        "https://upload.example/tmp/DRESS-01.jpg" None ].
Proof. vm_compute. reflexivity. Qed.

Example refused_delete_still_uploads :
  Types.status
    <$> (ImageQueue.processProductFiles refusingDelete
           [sampleData "DRESS" 2; sampleData "DRESS" 1] sampleProduct replaceSettings []).1
  = [Types.Success; Types.Success]
  ∧ length (ImageQueue.calls
              (ImageQueue.processProductFiles refusingDelete
                 [sampleData "DRESS" 2; sampleData "DRESS" 1] sampleProduct
                 replaceSettings []).2)
    = 7%nat.
Proof. split; vm_compute; reflexivity. Qed.

(** ** The tasks in flight over a whole run *)

Section PoolLog.
Import ImageQueue.
Context (remote : Remote).

Lemma startNext_log_prefix p : log p `prefix_of` log (startNext p).
Proof.
  unfold startNext. destruct (queue p) as [|[i t] q]; [done|].
  destruct (_ <? _)%nat; [|done]. cbn [log]. by apply prefix_app_r.
Qed.

Lemma poolStep_log_prefix p : log p `prefix_of` log (poolStep remote p).
Proof.
  unfold poolStep. destruct (active p) as [|r0 rs]; [done|].
  set (k := (_ `mod` _)%nat).
  destruct (_ !! k) as [r|]; [|done].
  destruct (advance_shape remote (log p) r) as (call & failure & Hstep & _).
  destruct (advance remote (log p) r) as [log' [r'|result]];
    simpl in Hstep; subst log'.
  - cbn [log]. by apply prefix_app_r.
  - etrans; [|apply startNext_log_prefix]. cbn [log].
    by do 2 apply prefix_app_r.
Qed.

Lemma poolAfter_log_prefix n p : log p `prefix_of` log (poolAfter remote n p).
Proof.
  induction n as [|n IH]; [done|].
  change (poolAfter remote (S n) p) with (poolStep remote (poolAfter remote n p)).
  etrans; [apply IH|apply poolStep_log_prefix].
Qed.

(** The part of the log a pool writes: the number of tasks in flight
    stays within the width, no task is left in flight, and with more
    tasks than the width the pool is full once all are submitted. *)
Lemma awaitAll_trace tasks log0 :
  ∃ events,
    (awaitAll remote tasks log0).2 = log0 ++ events
    ∧ withinWidth 0 events
    ∧ inFlight events = 0
    ∧ ((MAX_CONCURRENT < length tasks)%nat →
       ∃ before,
         before `prefix_of` events
         ∧ inFlight before = Z.of_nat MAX_CONCURRENT).
Proof.
  destruct (awaitAll_results remote tasks log0)
    as (_ & events & Hlog & _ & Hwidth & Hcount).
  exists events. split_and!; [done..|]. intros Hmany.
  destruct (dispatch_tracks tasks log0) as (before & Hbefore & _ & _ & Hfull).
  destruct (dispatch_count tasks log0) as [Hactive _].
  exists before. split; [|lia].
  pose proof (poolAfter_log_prefix (3 * length tasks) (dispatch tasks log0)) as Hgrow.
  unfold awaitAll in Hlog. cbn [snd] in Hlog.
  rewrite Hlog, Hbefore in Hgrow. by apply prefix_app_inv in Hgrow.
Qed.
End PoolLog.

Lemma withinWidth_answered n call failure rest :
  withinWidth n (ImageQueue.Answered call failure :: rest)
  ↔ 0 ≤ n ≤ Z.of_nat ImageQueue.MAX_CONCURRENT ∧ withinWidth n rest.
Proof. simpl. by rewrite Z.add_0_r. Qed.

Lemma withinWidth_last n events :
  withinWidth n events → events ≠ [] →
  0 ≤ n + inFlight events ≤ Z.of_nat ImageQueue.MAX_CONCURRENT.
Proof.
  revert n. induction events as [|e events IH]; intros n; [done|].
  intros [Hhead Hrest] _. destruct events as [|e' events].
  - simpl. lia.
  - specialize (IH _ Hrest). change (inFlight (e :: e' :: events))
      with (slotChange e + inFlight (e' :: events)).
    assert (e' :: events ≠ []) as Hne by done. specialize (IH Hne). lia.
Qed.

(** Events that keep the number of tasks in flight within the width do
    so at every point of the log they make. *)
Lemma withinWidth_prefix events before :
  withinWidth 0 events → before `prefix_of` events →
  0 ≤ inFlight before ≤ Z.of_nat ImageQueue.MAX_CONCURRENT.
Proof.
  intros Hwidth [rest ->]. apply withinWidth_app in Hwidth as [Hbefore _].
  destruct before as [|e before]; [simpl; lia|].
  by apply withinWidth_last in Hbefore.
Qed.

(** The events of one SKU group: the call of the strategy before, the
    events of the pool, the call of the strategy after. *)
Lemma processProductFiles_trace remote files product settings log0 :
  ∃ events,
    (ImageQueue.processProductFiles remote files product settings log0).2
    = log0 ++ events
    ∧ withinWidth 0 events
    ∧ inFlight events = 0
    ∧ ((ImageQueue.MAX_CONCURRENT < length files)%nat →
       ∃ before,
         before `prefix_of` events
         ∧ inFlight before = Z.of_nat ImageQueue.MAX_CONCURRENT).
Proof.
  unfold ImageQueue.processProductFiles. fold (tasksOf files product settings).
  set (log1 := if bool_decide (_ = Types.Replace) then _ else _).
  assert (∃ first, log1 = log0 ++ first ∧ withinWidth 0 first ∧ inFlight first = 0)
    as (first & -> & Hfirst & Hnone).
  { unfold log1. case_bool_decide; [|exists []; by rewrite app_nil_r].
    destruct (0 <? _)%nat; [|exists []; by rewrite app_nil_r].
    eexists [_]. split; [done|]. simpl. unfold ImageQueue.MAX_CONCURRENT. lia. }
  destruct (awaitAll_trace remote (tasksOf files product settings) (log0 ++ first))
    as (events & Hlog & Hwidth & Hcount & Hfull).
  destruct (ImageQueue.awaitAll remote _ (log0 ++ first)) as [results log2].
  cbn [snd] in *. subst log2.
  set (log3 := if _ && _ then _ else _).
  assert (∃ last, log3 = ((log0 ++ first) ++ events) ++ last
                  ∧ withinWidth 0 last ∧ inFlight last = 0)
    as (last & -> & Hlast & Hnone').
  { unfold log3.
    destruct (_ && _); [|exists []; by rewrite app_nil_r].
    destruct (0 <? _)%nat; [|exists []; by rewrite app_nil_r].
    eexists [_]. split; [done|]. simpl. unfold ImageQueue.MAX_CONCURRENT. lia. }
  exists (first ++ events ++ last). split_and!.
  - by rewrite <- !app_assoc.
  - apply withinWidth_app. rewrite Hnone. split; [done|].
    apply withinWidth_app. rewrite Hcount. by split.
  - rewrite !inFlight_app. lia.
  - intros Hmany. destruct Hfull as (before & Hprefix & Hfive).
    { unfold tasksOf. by rewrite length_fmap, sort_length. }
    exists (first ++ before). split.
    + apply prefix_app. by apply prefix_app_r.
    + rewrite inFlight_app. lia.
Qed.

(** The events of the loop over the SKU groups. *)
Lemma processGroups_trace remote productMap settings groups acc log0 :
  ∃ events,
    (fold_left (ImageQueue.processGroup remote productMap settings) groups (acc, log0)).2
    = log0 ++ events
    ∧ withinWidth 0 events
    ∧ inFlight events = 0
    ∧ (Types.dryRun settings = false →
       ∀ sku files product,
         (sku, files) ∈ groups → productMap !! sku = Some product →
         (ImageQueue.MAX_CONCURRENT < length files)%nat →
         ∃ before,
           before `prefix_of` events
           ∧ inFlight before = Z.of_nat ImageQueue.MAX_CONCURRENT).
Proof.
  revert acc log0. induction groups as [|[sku files] groups IH]; intros acc log0.
  { exists []. cbn [fold_left snd]. rewrite app_nil_r.
    split_and!; [done..|]. by intros _ ??? ?%elem_of_nil. }
  cbn [fold_left].
  assert (∃ acc' first,
            ImageQueue.processGroup remote productMap settings (acc, log0) (sku, files)
            = (acc', log0 ++ first)
            ∧ withinWidth 0 first ∧ inFlight first = 0
            ∧ (Types.dryRun settings = false →
               ∀ product, productMap !! sku = Some product →
                 (ImageQueue.MAX_CONCURRENT < length files)%nat →
                 ∃ before,
                   before `prefix_of` first
                   ∧ inFlight before = Z.of_nat ImageQueue.MAX_CONCURRENT))
    as (acc' & first & -> & Hfirst & Hnone & Hfull).
  { cbn [ImageQueue.processGroup].
    destruct (productMap !! sku) as [product|].
    2:{ eexists _, []. rewrite app_nil_r. split_and!; [done..|]. by intros _ ?. }
    destruct (Types.dryRun settings).
    { eexists _, []. rewrite app_nil_r. by split_and!. }
    destruct (processProductFiles_trace remote files product settings log0)
      as (first & Hlog & Hfirst & Hnone & Hfull).
    destruct (ImageQueue.processProductFiles remote files product settings log0)
      as [results log']. cbn [snd] in Hlog. subst log'.
    eexists _, first. split_and!; [done..|]. by intros _ ? [= <-]. }
  destruct (IH acc' (log0 ++ first)) as (events & Hlog & Hwidth & Hcount & Hrest).
  exists (first ++ events). split_and!.
  - by rewrite Hlog, app_assoc.
  - apply withinWidth_app. rewrite Hnone. by split.
  - rewrite inFlight_app. lia.
  - intros Hwet sku' files' product [[= -> ->]|Hin]%elem_of_cons Hproduct Hmany.
    + destruct (Hfull Hwet product Hproduct Hmany) as (before & Hprefix & Hfive).
      exists before. split; [|done]. by apply prefix_app_r.
    + destruct (Hrest Hwet sku' files' product Hin Hproduct Hmany)
        as (before & Hprefix & Hfive).
      exists (first ++ before). split; [by apply prefix_app|].
      rewrite inFlight_app. lia.
Qed.

(** C9. In every run of [processUploadQueue], at every point of the log
    the run writes, the number of upload tasks started and not yet
    settled is at most 5. A group of more than 5 files with a product,
    when the run is not a dry run, brings that number to 5. *)
Theorem at_most_five_in_flight remote groupedFiles productMap settings log0 :
  ∃ events,
    (ImageQueue.processUploadQueue remote groupedFiles productMap settings log0).2
    = log0 ++ events
    ∧ (∀ before, before `prefix_of` events → 0 ≤ inFlight before ≤ 5)
    ∧ (Types.dryRun settings = false →
       ∀ sku files product,
         (sku, files) ∈ groupedFiles → productMap !! sku = Some product →
         (5 < length files)%nat →
         ∃ before, before `prefix_of` events ∧ inFlight before = 5).
Proof.
  unfold ImageQueue.processUploadQueue.
  destruct (processGroups_trace remote productMap settings
              (Js.entries groupedFiles) [] log0)
    as (events & Hlog & Hwidth & _ & Hfull).
  exists events. split_and!; [done| |].
  - intros before Hprefix. by apply (withinWidth_prefix events).
  - intros Hwet sku files product Hin Hproduct Hmany.
    apply (Hfull Hwet sku files product); [|done..]. by apply entries_elem_of.
Qed.


(** C9 on a run with a group of seven files. *)
Lemma at_most_five_in_flight_witness :
  ∃ events,
    (ImageQueue.processUploadQueue pickyRemote sampleGroups sampleProducts
       plainSettings []).2
    = [] ++ events
    ∧ (∀ before, before `prefix_of` events → 0 ≤ inFlight before ≤ 5)
    ∧ ∃ before, before `prefix_of` events ∧ inFlight before = 5.
Proof.
  destruct (at_most_five_in_flight pickyRemote sampleGroups sampleProducts
              plainSettings [])
    as (events & Hlog & Hbound & Hfull).
  exists events. split_and!; [done..|].
  apply (Hfull eq_refl "DRESS" sevenFiles sampleProduct).
  - by apply elem_of_cons; left.
  - reflexivity.
  - simpl. lia.
Defined.

(** The same run, start by start: five files start, the two queued
    ones start as slots are released, and the file of the second group
    starts when the first group is done. *)
Example sample_run_in_flight :
  filter (λ e, slotChange e ≠ 0)
    (ImageQueue.processUploadQueue pickyRemote sampleGroups sampleProducts
       plainSettings []).2
  = [ ImageQueue.Started 0; ImageQueue.Started 1; ImageQueue.Started 2;
      ImageQueue.Started 3; ImageQueue.Started 4;
      ImageQueue.Settled 1; ImageQueue.Started 5;
      ImageQueue.Settled 3; ImageQueue.Started 6;
      ImageQueue.Settled 0; ImageQueue.Settled 2; ImageQueue.Settled 4;
      ImageQueue.Settled 6; ImageQueue.Settled 5;
      ImageQueue.Started 0; ImageQueue.Settled 0 ]
  ∧ foldr Z.max 0
      (inFlightAfterEach 0
         (ImageQueue.processUploadQueue pickyRemote sampleGroups sampleProducts
            plainSettings []).2)
    = 5.
Proof. split; vm_compute; reflexivity. Qed.

(** ** Dry runs *)

Lemma processGroups_dryRun remote productMap settings groups acc log0 :
  Types.dryRun settings = true →
  (fold_left (ImageQueue.processGroup remote productMap settings) groups (acc, log0)).2
  = log0
  ∧ (∀ r, r ∈ acc →
          r ∈ (fold_left (ImageQueue.processGroup remote productMap settings)
                 groups (acc, log0)).1)
  ∧ ∀ sku files file product,
      (sku, files) ∈ groups → file ∈ files → productMap !! sku = Some product →
      ImageQueue.dryRunResult product file
      ∈ (fold_left (ImageQueue.processGroup remote productMap settings)
           groups (acc, log0)).1.
Proof.
  intros Hdry. revert acc. induction groups as [|[sku files] groups IH]; intros acc.
  { split_and!; [done|done|]. by intros ???? ?%elem_of_nil. }
  cbn [fold_left ImageQueue.processGroup]. rewrite Hdry.
  set (acc' := match productMap !! sku with
               | Some product => (acc ++ (ImageQueue.dryRunResult product <$> files), log0)
               | None => (acc ++ (ImageQueue.skippedResult sku <$> files), log0)
               end).
  assert (∃ more, acc' = (acc ++ more, log0)
                  ∧ ∀ product, productMap !! sku = Some product →
                               more = ImageQueue.dryRunResult product <$> files)
    as (more & -> & Hmore).
  { unfold acc'. destruct (productMap !! sku) as [product|];
      eexists; (split; [done|]); [by intros ? [= <-]|done]. }
  destruct (IH (acc ++ more)) as (Hlog & Hacc & Hgroups).
  split_and!; [done| |].
  - intros r Hr. apply Hacc, elem_of_app. by left.
  - intros sku' files' file product [[= -> ->]|Hin]%elem_of_cons Hfile Hproduct.
    + apply Hacc, elem_of_app. right. rewrite (Hmore _ Hproduct).
      by apply list_elem_of_fmap_2.
    + by eapply Hgroups.
Qed.

(** C8. With [dryRun = true], whatever the strategy, [processUploadQueue]
    makes no call (the log is left as it was), and every file of a group
    whose SKU has a product yields a result with status [dry-run],
    [productFound = true] and the title and id of the product. *)
Theorem dry_run_issues_no_call remote groupedFiles productMap settings log0 :
  Types.dryRun settings = true →
  (ImageQueue.processUploadQueue remote groupedFiles productMap settings log0).2 = log0
  ∧ ∀ sku files file product,
      (sku, files) ∈ groupedFiles → file ∈ files → productMap !! sku = Some product →
      ∃ r,
        r ∈ (ImageQueue.processUploadQueue remote groupedFiles productMap settings log0).1
        ∧ Types.filename r = Types.originalFilename file
        ∧ Types.detectedSku r = Types.sku file
        ∧ Types.status r = Types.DryRun
        ∧ Types.productFound r = true
        ∧ Types.productTitle r = Some (Types.title product)
        ∧ Types.productId r = Some (Types.id product).
Proof.
  intros Hdry. unfold ImageQueue.processUploadQueue.
  destruct (processGroups_dryRun remote productMap settings
              (Js.entries groupedFiles) [] log0 Hdry) as (Hlog & _ & Hgroups).
  split; [done|]. intros sku files file product Hin Hfile Hproduct.
  exists (ImageQueue.dryRunResult product file). split; [|done].
  eapply Hgroups; [|done|done]. by apply entries_elem_of.
Qed.

(** C8 on one group of two files. *)
Lemma dry_run_issues_no_call_witness :
  (ImageQueue.processUploadQueue refusingDelete
     [("DRESS", [sampleData "DRESS" 1; sampleData "DRESS" 2])]
     {[ "DRESS" := sampleProduct ]} dryRunSettings []).2 = []
  ∧ ∀ sku files file product,
      (sku, files) ∈ [("DRESS", [sampleData "DRESS" 1; sampleData "DRESS" 2])] →
      file ∈ files →
      ({[ "DRESS" := sampleProduct ]} : gmap string Types.ProductData) !! sku = Some product →
      ∃ r,
        r ∈ (ImageQueue.processUploadQueue refusingDelete
               [("DRESS", [sampleData "DRESS" 1; sampleData "DRESS" 2])]
               {[ "DRESS" := sampleProduct ]} dryRunSettings []).1
        ∧ Types.filename r = Types.originalFilename file
        ∧ Types.detectedSku r = Types.sku file
        ∧ Types.status r = Types.DryRun
        ∧ Types.productFound r = true
        ∧ Types.productTitle r = Some (Types.title product)
        ∧ Types.productId r = Some (Types.id product).
Proof.
  apply (dry_run_issues_no_call refusingDelete
           [("DRESS", [sampleData "DRESS" 1; sampleData "DRESS" 2])]
           {[ "DRESS" := sampleProduct ]} dryRunSettings []).
  reflexivity.
Defined.

(** ** Alt text *)

Lemma processOneUpload_advance remote log0 task :
  ImageQueue.processOneUpload remote log0 task
  = match ImageQueue.advance remote log0
            {| ImageQueue.index := 0; ImageQueue.task := task;
               ImageQueue.stage := ImageQueue.Requested |} with
    | (log1, inr result) => (result, log1)
    | (log1, inl r1) =>
        match ImageQueue.advance remote log1 r1 with
        | (log2, inr result) => (result, log2)
        | (log2, inl r2) =>
            match ImageQueue.advance remote log2 r2 with
            | (log3, inr result) => (result, log3)
            | (log3, inl _) => (ImageQueue.successResult task, log3)
            end
        end
    end.
Proof.
  unfold ImageQueue.processOneUpload, ImageQueue.advance. cbn.
  destruct (ImageQueue.createStagedUpload _ _ _); [|done]. cbn.
  destruct (ImageQueue.uploadToStagedTarget _ _ _ _); [|done]. cbn.
  by destruct (ImageQueue.createProductMedia _ _ _ _ _).
Qed.

(** Which event of a short log is meant. *)
Ltac pick_event Hin :=
  cbn [app] in Hin; rewrite ?elem_of_cons, ?elem_of_nil in Hin;
  repeat (destruct Hin as [Hin|Hin]); by simplify_eq.

(** C6, amended. For a task with [seoOptimization = true], every
    [createProductMedia] call of [processOneUpload] carries the alt text
    [<productTitle> - <customOrDefault>], where [customOrDefault] is
    [altTextByPosition[sortOrder]] when that key is present with a
    non-empty text, and otherwise ["View "] followed by the sort order
    padded to two digits; a task that succeeds has made this call. *)
Theorem registration_alt_text remote log0 task :
  Types.seoOptimization (ImageQueue.settings task) = true →
  let sortOrder := Types.sortOrder (ImageQueue.file task) in
  let customOrDefault :=
    match customText (ImageQueue.settings task) sortOrder with
    | Some text => if decide (text = "") then defaultAltSuffix sortOrder else text
    | None => defaultAltSuffix sortOrder
    end in
  ∃ events,
    (ImageQueue.processOneUpload remote log0 task).2 = log0 ++ events
    ∧ (∀ productId resourceUrl altText failure,
         ImageQueue.Answered
           (ImageQueue.CreateProductMedia productId resourceUrl altText) failure
         ∈ events →
         altText
         = Some (Types.title (ImageQueue.product task) +:+ " - " +:+ customOrDefault))
    ∧ (Types.status (ImageQueue.processOneUpload remote log0 task).1 = Types.Success →
       ∃ resourceUrl,
         ImageQueue.Answered
           (ImageQueue.CreateProductMedia (Types.id (ImageQueue.product task)) resourceUrl
              (Some (Types.title (ImageQueue.product task) +:+ " - " +:+ customOrDefault)))
           None
         ∈ events).
Proof.
  intros Hseo sortOrder customOrDefault.
  assert (ImageQueue.altTextOf task
          = Some (Types.title (ImageQueue.product task) +:+ " - " +:+ customOrDefault))
    as Halt.
  { unfold ImageQueue.altTextOf. rewrite Hseo. do 2 f_equal.
    unfold customOrDefault, customText, ImageQueue.orElse, defaultAltSuffix.
    fold sortOrder.
    destruct (Types.altTextByPosition (ImageQueue.settings task) ≫= _) as [text|];
      [|done].
    by case_bool_decide; case_decide. }
  unfold ImageQueue.processOneUpload. rewrite Halt.
  destruct (ImageQueue.createStagedUpload _ _ _) as [target|e1].
  2:{ eexists. split; [done|]. split; [|done].
      intros ???? Hin. pick_event Hin. }
  destruct (ImageQueue.uploadToStagedTarget _ _ _ _) as [[]|e2].
  2:{ eexists. split; [by rewrite <- app_assoc|]. split; [|done].
      intros ???? Hin. pick_event Hin. }
  destruct (ImageQueue.createProductMedia _ _ _ _ _) as [mediaId|e3].
  - eexists. split; [by rewrite <- !app_assoc|]. split.
    + intros ???? Hin. pick_event Hin.
    + intros _. exists (Types.resourceUrl target). cbn. by do 2 right; left.
  - eexists. split; [by rewrite <- !app_assoc|]. split; [|done].
    intros ???? Hin. pick_event Hin.
Qed.

(** C6 for position 1, which has the custom text ["Front"]. *)
Lemma registration_alt_text_witness :
  ∃ events,
    (ImageQueue.processOneUpload obligingRemote [] (sampleTask 1)).2 = [] ++ events
    ∧ (∀ productId resourceUrl altText failure,
         ImageQueue.Answered
           (ImageQueue.CreateProductMedia productId resourceUrl altText) failure
         ∈ events →
         altText = Some ("Dress" +:+ " - " +:+ "Front"))
    ∧ (Types.status (ImageQueue.processOneUpload obligingRemote [] (sampleTask 1)).1
       = Types.Success →
       ∃ resourceUrl,
         ImageQueue.Answered
           (ImageQueue.CreateProductMedia "gid://shopify/Product/1" resourceUrl
              (Some ("Dress" +:+ " - " +:+ "Front")))
           None
         ∈ events).
Proof.
  apply (registration_alt_text obligingRemote [] (sampleTask 1)).
  reflexivity.
Defined.

(** C6 as stated fails: position 2 is present in the mapping with the
    empty text, and the alt text registered is ["Dress - View 02"], not
    ["Dress - "]. *)
Lemma empty_custom_text_counterexample :
  Types.seoOptimization (ImageQueue.settings (sampleTask 2)) = true
  ∧ customText (ImageQueue.settings (sampleTask 2)) 2 = Some ""
  ∧ ¬ (∀ productId resourceUrl altText failure,
         ImageQueue.Answered (ImageQueue.CreateProductMedia productId resourceUrl altText) failure
         ∈ (ImageQueue.processOneUpload obligingRemote [] (sampleTask 2)).2 →
         altText
         = Some (Types.title (ImageQueue.product (sampleTask 2)) +:+ " - "
                 +:+ match customText (ImageQueue.settings (sampleTask 2)) 2 with
                     | Some text => text
                     | None => defaultAltSuffix 2
                     end)).
Proof.
  split; [reflexivity|]. split; [reflexivity|]. intros H.
  specialize (H "gid://shopify/Product/1" "https://upload.example/tmp/image"
                (Some "Dress - View 02") None).
  assert (Some "Dress - View 02" = Some "Dress - ") as Habsurd; [|discriminate Habsurd].
  apply H. vm_compute. do 2 right. left.
Qed.

Example default_alt_suffixes :
  defaultAltSuffix 1 = "View 01"
  ∧ defaultAltSuffix 12 = "View 12"
  ∧ defaultAltSuffix 123 = "View 123".
Proof. repeat split. Qed.

(** ** Summaries and the response of [action] *)

Lemma countStatus_cons s r results :
  ImageQueue.countStatus s (r :: results)
  = ((if decide (Types.status r = s) then 1 else 0)
     + ImageQueue.countStatus s results)%nat.
Proof.
  unfold ImageQueue.countStatus. case_decide.
  - by rewrite filter_cons_True.
  - by rewrite filter_cons_False.
Qed.

Lemma length_by_status results :
  length results
  = (ImageQueue.countStatus Types.Success results
     + ImageQueue.countStatus Types.Error results
     + ImageQueue.countStatus Types.Skipped results
     + ImageQueue.countStatus Types.DryRun results)%nat.
Proof.
  induction results as [|r results IH]; [done|].
  rewrite !countStatus_cons. cbn [length]. rewrite IH.
  destruct (Types.status r); repeat case_decide; try done; lia.
Qed.

Lemma countStatus_invalid s files :
  ImageQueue.countStatus s (Route.invalidResult <$> files)
  = if decide (Types.Error = s) then length files else O.
Proof.
  induction files as [|f files IH]; [by case_decide|].
  rewrite fmap_cons, countStatus_cons, IH. cbn [Route.invalidResult Types.status length].
  by case_decide.
Qed.

Lemma filter_none_complement {A} (P : A → Prop) `{∀ x, Decision (P x)} (l : list A) :
  length (filter P l) = O → length (filter (λ x, ¬ P x) l) = length l.
Proof.
  intros Hnone. rewrite <- (filter_app_complement P l) at 2.
  rewrite length_app. lia.
Qed.

(** The three ways [action] answers. *)
Lemma action_cases remote catalog request :
  (∃ e, Route.action remote catalog request = Route.failureResponse e)
  ∨ (∃ invalid,
       Route.action remote catalog request
       = {| Types.success := false;
            Types.results := Route.invalidResult <$> invalid;
            Types.summary := {| Types.total := length (Route.invalidResult <$> invalid);
                                Types.successful := 0;
                                Types.failed := length (Route.invalidResult <$> invalid);
                                Types.skipped := 0;
                                Types.dryRunCount := None |} |}
       ∧ ∃ formData metas,
           request = Return formData
           ∧ Route.filesDataField formData = Route.Parsed metas
           ∧ length invalid = length metas)
  ∨ (∃ allResults,
       Route.action remote catalog request
       = {| Types.success :=
              (Types.failed (ImageQueue.generateSummary allResults) =? 0)%nat;
            Types.results := allResults;
            Types.summary := ImageQueue.generateSummary allResults |}).
Proof.
  unfold Route.action, Route.attempt.
  destruct request as [formData|e]; [|left; eauto].
  destruct (Route.settingsField formData) as [|message|settings]; [left; eauto..|].
  destruct (Route.filesDataField formData) as [|message|metas] eqn:Hfiles;
    [left; eauto..|].
  set (parsed := imap _ metas).
  destruct (length (filter _ parsed) =? 0)%nat eqn:Hvalid.
  - right; left. eexists. split; [done|].
    exists formData, metas. split; [done|]. split; [done|].
    apply Nat.eqb_eq in Hvalid.
    rewrite (filter_none_complement _ _ Hvalid). apply length_imap.
  - destruct (FileParser.groupFilesBySku _) as [groupedFiles|message]; [|left; eauto].
    destruct (ImageQueue.processUploadQueue _ _ _ _ _) as [uploadResults log1].
    right; right. eauto.
Qed.

(** C1, amended. For every run whose submitted list of files is not
    empty, the [success] flag of the response is true if and only if the
    [failed] count of its summary is 0. *)
Theorem success_iff_nothing_failed remote catalog request :
  (∀ formData,
     request = Return formData → Route.filesDataField formData ≠ Route.Parsed []) →
  Types.success (Route.action remote catalog request) = true
  ↔ Types.failed (Types.summary (Route.action remote catalog request)) = 0%nat.
Proof.
  intros Hfiles.
  destruct (action_cases remote catalog request)
    as [[e ->]|[(invalid & -> & formData & metas & Hreq & Hmetas & Hlen)|[allResults ->]]];
    cbn.
  - done.
  - split; [done|]. rewrite length_fmap, Hlen. intros Hnone.
    apply length_zero_iff_nil in Hnone. subst metas.
    by destruct (Hfiles formData Hreq).
  - apply Nat.eqb_eq.
Qed.

(** C1 on a run with two valid files and an invalid one. *)
Lemma success_iff_nothing_failed_witness :
  Types.success
    (Route.action obligingRemote sampleCatalog
       (requestOf replaceSettings [validMeta "DRESS" 1; validMeta "SHIRT" 1; invalidMeta]))
  = true
  ↔ Types.failed
      (Types.summary
         (Route.action obligingRemote sampleCatalog
            (requestOf replaceSettings [validMeta "DRESS" 1; validMeta "SHIRT" 1; invalidMeta])))
    = 0%nat.
Proof.
  apply (success_iff_nothing_failed obligingRemote sampleCatalog
           (requestOf replaceSettings [validMeta "DRESS" 1; validMeta "SHIRT" 1; invalidMeta])).
  intros formData [= <-]. simpl. discriminate.
Defined.

(** C1 as stated fails on a run without files: nothing failed, and
    [success] is false. *)
Lemma no_files_counterexample :
  ¬ (Types.success (Route.action obligingRemote sampleCatalog (requestOf replaceSettings []))
     = true
     ↔ Types.failed
         (Types.summary
            (Route.action obligingRemote sampleCatalog (requestOf replaceSettings [])))
       = 0%nat).
Proof. intros [_ H]. specialize (H eq_refl). vm_compute in H. discriminate H. Qed.

Example sample_run :
  Route.action obligingRemote sampleCatalog
    (requestOf replaceSettings [validMeta "DRESS" 1; validMeta "SHIRT" 1; invalidMeta])
  = {| Types.success := false;
       Types.results :=
         [ Route.invalidResult (Route.toParsedFileData [] 2 invalidMeta);
           ImageQueue.successResult
             {| ImageQueue.file := Route.toParsedFileData [] 0 (validMeta "DRESS" 1);
                ImageQueue.product := sampleProduct;
                ImageQueue.settings := replaceSettings |};
           ImageQueue.skippedResult "SHIRT"
             (Route.toParsedFileData [] 1 (validMeta "SHIRT" 1)) ];
       Types.summary := {| Types.total := 3; Types.successful := 1; Types.failed := 1;
                           Types.skipped := 1; Types.dryRunCount := Some 0%nat |} |}.
Proof. vm_compute. reflexivity. Qed.

(** C2, amended. For every run, the summary of the response satisfies
    [total = successful + failed + skipped + dryRun] with an absent
    [dryRun] counted as 0; [total] is the number of results, and
    [successful], [failed], [skipped] and [dryRun] (0 when absent) are the
    numbers of results with status success, error, skipped and
    dry-run. *)
Theorem summary_adds_up remote catalog request :
  let response := Route.action remote catalog request in
  let s := Types.summary response in
  Types.total s
  = (Types.successful s + Types.failed s + Types.skipped s
     + default 0 (Types.dryRunCount s))%nat
  ∧ Types.total s = length (Types.results response)
  ∧ Types.successful s = ImageQueue.countStatus Types.Success (Types.results response)
  ∧ Types.failed s = ImageQueue.countStatus Types.Error (Types.results response)
  ∧ Types.skipped s = ImageQueue.countStatus Types.Skipped (Types.results response)
  ∧ default 0%nat (Types.dryRunCount s)
    = ImageQueue.countStatus Types.DryRun (Types.results response).
Proof.
  cbn zeta.
  destruct (action_cases remote catalog request)
    as [[e ->]|[(invalid & -> & _)|[allResults ->]]];
    cbn [Types.summary Types.results Types.total Types.successful Types.failed
         Types.skipped Types.dryRunCount Route.failureResponse
         ImageQueue.generateSummary default].
  - by vm_compute.
  - rewrite !countStatus_invalid, length_fmap.
    repeat case_decide; try done. split_and!; try done; lia.
  - split_and!; try done. apply length_by_status.
Qed.

(** C2 as stated fails on a run whose only file is invalid: the summary
    of the early return has no [dryRun] count. *)
Lemma absent_dry_run_count_counterexample :
  ¬ summaryBalanced
      (Types.summary
         (Route.action obligingRemote sampleCatalog (requestOf replaceSettings [invalidMeta]))).
Proof. intros (d & Hd & _). vm_compute in Hd. discriminate Hd. Qed.

(** * Further properties of the sources *)

(** ** Extensions and file names *)

Lemma occurs_append c a b : Js.occurs c (a +:+ b) = Js.occurs c a || Js.occurs c b.
Proof.
  induction a as [|c' a IH]; [done|]. rewrite append_cons. simpl.
  by rewrite IH, orb_assoc.
Qed.

Lemma isExtension_proper ext :
  FileParser.isExtension ext = true ↔ properExtension ext.
Proof.
  unfold properExtension. induction ext as [|c ext IH].
  { split; [done|]. by intros [? _]. }
  cbn [FileParser.isExtension Js.occurs].
  destruct (Ascii.eqb c "/"), (Ascii.eqb c "."); simpl;
    try (split; [done|by intros (_ & ? & ?)]).
  destruct ext as [|c' ext]; [done|].
  rewrite bool_decide_false by done. rewrite orb_false_l, IH.
  split; [by intros (_ & ? & ?)|by intros (_ & ? & ?)].
Qed.

Lemma removeExtension_append base ext :
  properExtension ext →
  FileParser.removeExtension (base +:+ "." +:+ ext) = base.
Proof.
  intros Hext. induction base as [|c base IH].
  - rewrite append_empty. change ("." +:+ ext) with (String "." ext). simpl.
    apply isExtension_proper in Hext. by rewrite Hext.
  - rewrite append_cons. simpl. rewrite IH.
    destruct (FileParser.isExtension (base +:+ "." +:+ ext)) eqn:E;
      [|by rewrite andb_false_r].
    apply isExtension_proper in E as (_ & Hdot & _).
    rewrite occurs_append in Hdot. apply orb_false_iff in Hdot as [_ Hdot].
    done.
Qed.

Lemma removeExtension_cases filename :
  FileParser.removeExtension filename = filename
  ∨ ∃ ext,
      properExtension ext
      ∧ filename = FileParser.removeExtension filename +:+ "." +:+ ext.
Proof.
  induction filename as [|c name IH]; [by left|]. simpl.
  destruct (Ascii.eqb_spec c ".") as [->|Hc]; simpl.
  - destruct (FileParser.isExtension name) eqn:E.
    + right. exists name. split; [by apply isExtension_proper|done].
    + destruct IH as [->|(ext & Hext & Hname)]; [by left|].
      right. exists ext. split; [done|]. rewrite append_cons. by rewrite <- Hname.
  - destruct IH as [->|(ext & Hext & Hname)]; [by left|].
    right. exists ext. split; [done|]. rewrite append_cons. by rewrite <- Hname.
Qed.

Lemma length_append_dot base ext :
  String.length (base +:+ "." +:+ ext) = S (String.length base + String.length ext).
Proof. rewrite !length_append. simpl. lia. Qed.

(** X1. [parseFilename] strips exactly one proper extension: the name
    without extension is [base] when the name is [base], a dot and a
    non-empty text without dot or slash, and it is the whole name when
    the name has no such ending (no dot, a dot at the very end, or a
    slash after the last dot). *)
Theorem removeExtension_strips_last_extension filename base :
  FileParser.removeExtension filename = base
  ↔ (∃ ext, properExtension ext ∧ filename = base +:+ "." +:+ ext)
    ∨ (filename = base ∧ ¬ hasExtension filename).
Proof.
  split.
  - intros <-. destruct (removeExtension_cases filename) as [Hsame|(ext & Hext & Hname)].
    + right. split; [done|]. intros (b & ext & Hext & Hname).
      rewrite Hname, (removeExtension_append b ext Hext) in Hsame.
      apply (f_equal String.length) in Hsame.
      rewrite length_append_dot in Hsame. lia.
    + left. by exists ext.
  - intros [(ext & Hext & ->)|[-> Hnone]]; [by apply removeExtension_append|].
    destruct (removeExtension_cases base) as [Hsame|(ext & Hext & Hname)]; [done|].
    destruct Hnone. by exists (FileParser.removeExtension base), ext.
Qed.

Example removeExtension_edge_cases :
  FileParser.removeExtension "DRESS-01.final.jpg" = "DRESS-01.final"
  ∧ FileParser.removeExtension "V1.2-03" = "V1"
  ∧ FileParser.removeExtension "DRESS-01." = "DRESS-01."
  ∧ FileParser.removeExtension ".jpg" = "".
Proof. repeat split. Qed.

(** ** More on [parseFilename] *)

Lemma occurs_rev_app c s t :
  Js.occurs c (String.rev_app s t) = Js.occurs c s || Js.occurs c t.
Proof.
  revert t. induction s as [|c' s IH]; intros t; simpl; [done|].
  rewrite IH. simpl. destruct (Ascii.eqb c' c), (Js.occurs c s); simpl; try done.
Qed.

Lemma occurs_trimStart c s :
  Js.occurs c (Js.trimStart s) = true → Js.occurs c s = true.
Proof.
  induction s as [|c' s IH]; simpl; [done|].
  destruct (Js.isWhiteSpace c'); [|done].
  intros H. rewrite (IH H). by rewrite orb_true_r.
Qed.

Lemma occurs_trim c s : Js.occurs c s = false → Js.occurs c (Js.trim s) = false.
Proof.
  intros Hs. apply not_true_is_false. intros H.
  unfold Js.trim, Js.trimEnd, String.rev in H.
  rewrite occurs_rev_app, orb_false_r in H.
  apply occurs_trimStart in H. rewrite occurs_rev_app, orb_false_r in H.
  apply occurs_trimStart in H. congruence.
Qed.

Lemma digitValue_range c : Js.isDigit c = true → 0 ≤ Js.digitValue c ≤ 9.
Proof.
  unfold Js.isDigit, Js.digitValue. intros [H1 H2]%andb_true_iff.
  apply N.leb_le in H1, H2. lia.
Qed.

Lemma digitsValue_nonneg acc s : 0 ≤ acc → 0 ≤ Js.digitsValue acc s.
Proof.
  revert acc. induction s as [|c s IH]; intros acc Hacc; simpl; [done|].
  destruct (Js.isDigit c) eqn:Hc; [|done].
  apply IH. pose proof (digitValue_range c Hc). lia.
Qed.

(** A text without hyphen is never read as a negative number. *)
Lemma parseInt_nonneg s n :
  Js.occurs "-" s = false → Js.parseInt s = Some n → 0 ≤ n.
Proof.
  intros Hs. unfold Js.parseInt.
  destruct (Js.trimStart s) as [|c t] eqn:Et; [done|].
  assert (c ≠ "-"%char) as Hc.
  { intros ->. assert (Js.occurs "-" (Js.trimStart s) = true) as H
      by (by rewrite Et).
    apply occurs_trimStart in H. congruence. }
  assert (∀ t', 0 ≤ Js.digitsValue 0 t') as Hpos.
  { intros t'. by apply digitsValue_nonneg. }
  destruct (Ascii.eqb_spec c "-") as [|_]; [done|].
  destruct (Ascii.eqb_spec c "+") as [->|Hplus].
  - destruct t as [|c' t']; [done|]. destruct (Js.isDigit c'); [|done].
    intros [= <-]. apply Z.mul_nonneg_nonneg; [lia|apply (Hpos (String c' t'))].
  - assert (match String c t with
            | String "-"%char r => (-1, r)
            | String "+"%char r => (1, r)
            | _ => (1, String c t)
            end = (1, String c t)) as ->.
    { destruct c as [[] [] [] [] [] [] [] []]; try done. }
    destruct (Js.isDigit c); [|done].
    intros [= <-]. apply Z.mul_nonneg_nonneg; [lia|apply (Hpos (String c t))].
Qed.

(** X2. [parseFilename] never fails with "Sort number cannot be
    negative": the text after the last hyphen holds no hyphen, so
    [parseInt] cannot read a negative number from it. *)
Theorem parseFilename_never_negative filename :
  FileParser.parseFilename filename ≠ Raise FileParser.NegativeSortNumber.
Proof.
  unfold FileParser.parseFilename.
  set (name := FileParser.removeExtension filename).
  set (i := Js.lastIndexOf "-" name).
  pose proof (lastIndexOf_lower "-" name) as Hlow. fold i in Hlow.
  destruct (i =? -1) eqn:E1; [done|]. apply Z.eqb_neq in E1.
  destruct (i =? 0) eqn:E0; [done|].
  case_bool_decide as Hsku; [done|].
  destruct (Js.parseInt _) as [n|] eqn:Hparse; [|done].
  destruct (n <? 0) eqn:Hneg; [|done]. apply Z.ltb_lt in Hneg.
  destruct (lastIndexOf_split "-" name) as [_ Hafter]; [fold i; lia|].
  fold i in Hafter. apply occurs_trim in Hafter.
  pose proof (parseInt_nonneg _ _ Hafter Hparse). lia.
Qed.

(** X3. [parseFilename] fails with "No hyphen found" exactly when the
    name without its extension holds no hyphen, and with "SKU cannot be
    empty" exactly when it holds one and the text before the last one is
    blank. *)
Theorem parseFilename_separator_failures filename :
  (FileParser.parseFilename filename = Raise FileParser.NoSeparator
   ↔ Js.occurs "-" (FileParser.removeExtension filename) = false)
  ∧ (FileParser.parseFilename filename = Raise FileParser.EmptySku
     ↔ ∃ before after,
         splitsAtLastHyphen filename before after ∧ Js.trim before = "").
Proof.
  unfold FileParser.parseFilename.
  set (name := FileParser.removeExtension filename).
  set (i := Js.lastIndexOf "-" name).
  pose proof (lastIndexOf_lower "-" name) as Hlow. fold i in Hlow.
  pose proof (lastIndexOf_absent "-" name) as Habsent. fold i in Habsent.
  assert (i ≠ -1 → splitsAtLastHyphen filename
                     (Js.substring 0 i name) (Js.substringFrom (i + 1) name))
    as Hfound.
  { intros Hi. apply splitsAtLastHyphen_found; fold name; fold i; lia. }
  assert (∀ before after, splitsAtLastHyphen filename before after →
            i = Z.of_nat (String.length before)
            ∧ Js.substring 0 i name = before) as Hindex.
  { intros before after Hsplit.
    destruct (splitsAtLastHyphen_index _ _ _ Hsplit) as (Hi & Hb & _).
    fold name in Hi, Hb. fold i in Hi. by rewrite <- Hi in Hb. }
  destruct (i =? -1) eqn:E1.
  { apply Z.eqb_eq in E1. split; [by rewrite <- Habsent|].
    split; [done|]. intros (before & after & Hsplit & _).
    destruct (Hindex _ _ Hsplit) as [Hi _]. lia. }
  apply Z.eqb_neq in E1. specialize (Hfound E1).
  assert (Js.occurs "-" name ≠ false) as Hocc by (by rewrite <- Habsent).
  destruct (i =? 0) eqn:E0.
  { apply Z.eqb_eq in E0. split; [done|]. split; [|done]. intros _.
    eexists _, _. split; [done|]. rewrite E0. unfold Js.substring. simpl.
    by destruct name. }
  apply Z.eqb_neq in E0. case_bool_decide as Hsku.
  { split; [done|]. split; [|done]. intros _. by eexists _, _. }
  assert (¬ ∃ before after,
              splitsAtLastHyphen filename before after ∧ Js.trim before = "")
    as Hnone.
  { intros (before & after & Hsplit & Hblank).
    destruct (Hindex _ _ Hsplit) as [_ Hb]. by rewrite Hb in Hsku. }
  destruct (Js.parseInt _) as [n|]; [destruct (n <? 0)|]; by split.
Qed.

Lemma parseFilename_of_split filename before after n :
  splitsAtLastHyphen filename before after →
  Js.trim before ≠ "" →
  Js.parseInt (Js.trim after) = Some n →
  FileParser.parseFilename filename
  = Return {| FileParser.sku := Js.toUpperCase (Js.trim before);
              FileParser.sortOrder := n |}.
Proof.
  intros Hsplit Hsku Hparse.
  pose proof (parseInt_nonneg _ _ (occurs_trim _ _ (proj2 Hsplit)) Hparse) as Hn.
  unfold FileParser.parseFilename.
  destruct (splitsAtLastHyphen_index _ _ _ Hsplit) as (-> & -> & ->).
  destruct before as [|c before]; [done|].
  replace (Z.of_nat (String.length (String c before)) =? -1) with false
    by (symmetry; apply Z.eqb_neq; simpl; lia).
  replace (Z.of_nat (String.length (String c before)) =? 0) with false
    by (symmetry; apply Z.eqb_neq; simpl; lia).
  rewrite bool_decide_false by done. rewrite Hparse.
  by replace (n <? 0) with false by (symmetry; apply Z.ltb_ge; lia).
Qed.

(** X4. A name that splits at its last hyphen into a text that is not
    blank and a text that [parseInt] reads as [n] is accepted by
    [parseFilename], with the trimmed, upper-cased text as SKU and [n]
    as sort order. *)
Theorem parseFilename_accepts filename before after n :
  splitsAtLastHyphen filename before after →
  Js.trim before ≠ "" →
  Js.parseInt (Js.trim after) = Some n →
  FileParser.parseFilename filename
  = Return {| FileParser.sku := Js.toUpperCase (Js.trim before);
              FileParser.sortOrder := n |}.
Proof. apply parseFilename_of_split. Qed.

(** X4 at a name with blanks around the hyphen and text after the
    number. *)
Lemma parseFilename_accepts_witness :
  FileParser.parseFilename "red dress - 7 (copy).png"
  = Return {| FileParser.sku := Js.toUpperCase (Js.trim "red dress ");
              FileParser.sortOrder := 7 |}.
Proof.
  apply (parseFilename_accepts "red dress - 7 (copy).png" "red dress " " 7 (copy)" 7).
  - split; reflexivity.
  - vm_compute. discriminate.
  - reflexivity.
Defined.

(** ** Decimal numerals *)

Lemma append_assoc a b c : (a +:+ b) +:+ c = a +:+ (b +:+ c).
Proof. induction a as [|x a IH]; [done|]. rewrite !append_cons. by rewrite IH. Qed.

Lemma append_nil_r a : a +:+ "" = a.
Proof. induction a as [|x a IH]; [done|]. rewrite append_cons. by rewrite IH. Qed.


















(** ** Files as the drop zone parses them *)

Lemma upperChar_idempotent c : Js.upperChar (Js.upperChar c) = Js.upperChar c.
Proof. by destruct c as [[] [] [] [] [] [] [] []]. Qed.

Lemma toUpperCase_idempotent s : Js.toUpperCase (Js.toUpperCase s) = Js.toUpperCase s.
Proof.
  induction s as [|c s IH]; [done|]. simpl. by rewrite upperChar_idempotent, IH.
Qed.

Lemma toUpperCase_empty s : Js.toUpperCase s = "" → s = "".
Proof. by destruct s. Qed.

Lemma message_not_empty e : FileParser.message e ≠ "".
Proof. by destruct e. Qed.

(** What [parseFilename] returns, in the terms of its input. *)
Lemma parseFilename_result filename r :
  FileParser.parseFilename filename = Return r →
  ∃ text,
    text ≠ ""
    ∧ FileParser.sku r = Js.toUpperCase text
    ∧ 0 ≤ FileParser.sortOrder r.
Proof.
  unfold FileParser.parseFilename.
  destruct (_ =? -1); [done|]. destruct (_ =? 0); [done|].
  case_bool_decide as Hsku; [done|].
  destruct (Js.parseInt _) as [n|]; [|done].
  destruct (n <? 0) eqn:Hneg; [done|]. apply Z.ltb_ge in Hneg.
  intros [= <-]. eexists. by split_and!.
Qed.

Lemma validateFile_valid file :
  FileParser.valid (FileParser.validateFile file) = true
  ↔ Types.type file ∈ FileParser.ALLOWED_TYPES
    ∧ Types.size file ≤ FileParser.MAX_SIZE
    ∧ Types.size file ≠ 0.
Proof.
  unfold FileParser.validateFile. case_bool_decide as Htype; simpl.
  2:{ split; [done|]. by intros [? _]. }
  destruct (FileParser.MAX_SIZE <? Types.size file) eqn:Hmax; simpl.
  { apply Z.ltb_lt in Hmax. split; [done|]. intros (_ & ? & _). lia. }
  apply Z.ltb_ge in Hmax.
  destruct (Types.size file =? 0) eqn:Hzero; simpl.
  { apply Z.eqb_eq in Hzero. split; [done|]. by intros (_ & _ & ?). }
  apply Z.eqb_neq in Hzero. by split.
Qed.

Lemma validateFile_error file :
  FileParser.valid (FileParser.validateFile file) = false →
  ∃ message,
    FileParser.error (FileParser.validateFile file) = Some message ∧ message ≠ "".
Proof.
  unfold FileParser.validateFile. case_bool_decide as Htype; simpl.
  2:{ intros _. eexists. split; [done|]. done. }
  destruct (_ <? _); simpl; [intros _; eexists; split; done|].
  destruct (_ =? _); simpl; [intros _; eexists; split; done|done].
Qed.

(** X6. [parseAndValidateFile] accepts a file exactly when its type is
    one of the five allowed ones, its size is not 0 and at most 20 MB
    (20 971 520 bytes, the limit included), and [parseFilename] accepts
    its name. *)
Theorem parseAndValidateFile_accepts file :
  Types.pf_isValid (FileParser.parseAndValidateFile file) = true
  ↔ Types.type file ∈ FileParser.ALLOWED_TYPES
    ∧ Types.size file ≤ 20971520
    ∧ Types.size file ≠ 0
    ∧ ∃ r, FileParser.parseFilename (Types.name file) = Return r.
Proof.
  pose proof (validateFile_valid file) as Hvalid.
  change FileParser.MAX_SIZE with 20971520 in Hvalid.
  unfold FileParser.parseAndValidateFile.
  destruct (FileParser.valid (FileParser.validateFile file)); simpl.
  - destruct Hvalid as [Hvalid _]. specialize (Hvalid eq_refl).
    destruct (FileParser.parseFilename (Types.name file)) as [r|e]; simpl.
    + split; [intros _|done]. destruct Hvalid as (? & ? & ?). split_and!; eauto.
    + split; [done|]. by intros (_ & _ & _ & r & ?).
  - split; [done|]. intros (? & ? & ? & _).
    destruct Hvalid as [_ Hvalid]. by specialize (Hvalid ltac:(done)).
Qed.

(** X7. A parsed file keeps the name and the file it was parsed from.
    When it is valid it carries no error, a SKU that is not empty and
    holds no lower-case letter, and a sort order that is not negative,
    both as [parseFilename] returns them; when it is not valid it
    carries the empty SKU, the sort order 0 and an error text. *)
Theorem parseAndValidateFile_shape file :
  let parsed := FileParser.parseAndValidateFile file in
  Types.pf_originalFilename parsed = Types.name file
  ∧ Types.pf_file parsed = file
  ∧ (Types.pf_isValid parsed = true →
     Types.pf_error parsed = None
     ∧ FileParser.parseFilename (Types.name file)
       = Return {| FileParser.sku := Types.pf_sku parsed;
                   FileParser.sortOrder := Types.pf_sortOrder parsed |}
     ∧ Types.pf_sku parsed ≠ ""
     ∧ Js.toUpperCase (Types.pf_sku parsed) = Types.pf_sku parsed
     ∧ 0 ≤ Types.pf_sortOrder parsed)
  ∧ (Types.pf_isValid parsed = false →
     Types.pf_sku parsed = ""
     ∧ Types.pf_sortOrder parsed = 0
     ∧ ∃ message, Types.pf_error parsed = Some message ∧ message ≠ "").
Proof.
  unfold FileParser.parseAndValidateFile.
  pose proof (validateFile_error file) as Herror.
  destruct (FileParser.valid (FileParser.validateFile file)); simpl.
  - destruct (FileParser.parseFilename (Types.name file)) as [r|e] eqn:Hparse; simpl.
    + destruct (parseFilename_result _ _ Hparse) as (text & Htext & Hsku & Hn).
      split_and!; try done. intros _. split_and!; try done.
      * by destruct r.
      * rewrite Hsku. by intros ?%toUpperCase_empty.
      * rewrite Hsku. apply toUpperCase_idempotent.
    + split_and!; try done. intros _. split_and!; try done.
      eexists. split; [done|]. apply message_not_empty.
  - split_and!; try done. intros _. split_and!; try done. by apply Herror.
Qed.





(** A SKU that is the name of an inherited property, as only a file
    list not made by [parseFiles] can hold, makes the analysis throw. *)
Example analyzeImagePattern_inherited_sku :
  PatternAnalyzer.analyzeImagePattern codeCompare
    [sampleFile "constructor" 1; sampleFile "B" 1]
  = Raise "skuGroups[file.sku].push is not a function".
Proof. reflexivity. Qed.

(** ** [groupFilesBySku] and [getUniqueSKUs] *)

Lemma fold_pushFile_raise files e :
  fold_left FileParser.pushFile files (Raise e) = Raise e.
Proof. induction files as [|f files IH]; simpl; [done|apply IH]. Qed.

Lemma fold_pushFile files g g' :
  fold_left FileParser.pushFile files (Return g) = Return g' →
  NoDup g.*1 →
  NoDup g'.*1
  ∧ ∀ k, Js.own k g'
         = match Js.own k g with
           | Some v => Some (v ++ validFilesOf files k)
           | None => match validFilesOf files k with
                     | [] => None
                     | v => Some v
                     end
           end.
Proof.
  revert g. induction files as [|f files IH]; intros g; simpl.
  - intros [= <-] Hnd. split; [done|]. intros k.
    destruct (Js.own k g); [by rewrite app_nil_r|done].
  - destruct (Types.isValid f) eqn:Hvalid; simpl.
    2:{ intros Hfold Hnd. destruct (IH _ Hfold Hnd) as [Hnd' Hown].
        split; [done|]. intros k. rewrite Hown. unfold validFilesOf.
        rewrite filter_cons_False; [done|]. intros [? _]. congruence. }
    destruct (Js.isInherited (Types.sku f)).
    { by rewrite fold_pushFile_raise. }
    intros Hfold Hnd.
    destruct (IH _ Hfold (update_NoDup _ _ _ Hnd)) as [Hnd' Hown].
    split; [done|]. intros k. rewrite Hown, own_update.
    unfold validFilesOf. case_decide as Hk.
    + rewrite filter_cons_True by done. subst k.
      destruct (Js.own (Types.sku f) g); simpl; [by rewrite <- app_assoc|done].
    + rewrite filter_cons_False; [by destruct (Js.own k g)|]. by intros [_ ?].
Qed.

Lemma fold_pushFile_returns files g :
  Forall (λ f, Types.isValid f = true → Js.isInherited (Types.sku f) = false) files →
  ∃ g', fold_left FileParser.pushFile files (Return g) = Return g'.
Proof.
  intros Hall. revert g. induction Hall as [|f files Hf _ IH]; intros g; simpl.
  - by exists g.
  - destruct (Types.isValid f); simpl; [|apply IH]. rewrite Hf by done. apply IH.
Qed.

Lemma fold_pushFile_inherited files g f :
  f ∈ files → Types.isValid f = true → Js.isInherited (Types.sku f) = true →
  ∃ e, fold_left FileParser.pushFile files (Return g) = Raise e.
Proof.
  intros Hin Hvalid Hkey. revert g.
  induction files as [|f' files IH]; intros g; [by apply elem_of_nil in Hin|].
  simpl. apply elem_of_cons in Hin as [<-|Hin].
  - rewrite Hvalid, Hkey. simpl. rewrite fold_pushFile_raise. eauto.
  - destruct (negb (Types.isValid f')); [by apply IH|].
    destruct (Js.isInherited (Types.sku f')); [|by apply IH].
    rewrite fold_pushFile_raise. eauto.
Qed.

Lemma own_fmap_values {V W} (h : V → W) k (o : Js.Dict V) :
  Js.own k ((λ g, (g.1, h g.2)) <$> o) = h <$> Js.own k o.
Proof.
  unfold Js.own. induction o as [|[k0 v] o IH]; [done|]. csimpl.
  case_bool_decide; [done|]. apply IH.
Qed.

Lemma keys_fmap_values {V W} (h : V → W) (o : Js.Dict V) :
  ((λ g, (g.1, h g.2)) <$> o).*1 = o.*1.
Proof. induction o as [|[k0 v] o IH]; [done|]. csimpl. by rewrite IH. Qed.

Lemma Sorted_weaken {A} (R R' : A → A → Prop) l :
  (∀ a b, R a b → R' a b) → Sorted R l → Sorted R' l.
Proof.
  intros HR Hl. induction Hl as [|x l _ IH Hhd]; constructor; [done|].
  destruct Hhd; constructor; auto.
Qed.

Lemma sort_ascending files : ascending (Js.sort FileParser.compareSortOrder files).
Proof.
  apply (Sorted_weaken (notAfter FileParser.compareSortOrder)).
  - intros a b. unfold notAfter, FileParser.compareSortOrder. lia.
  - apply sort_sorted. intros a b. unfold FileParser.compareSortOrder. lia.
Qed.

(** What [groupFilesBySku] returns. *)
Lemma groupFilesBySku_own files grouped :
  FileParser.groupFilesBySku files = Return grouped →
  NoDup grouped.*1
  ∧ ∀ sku, Js.own sku grouped
           = match validFilesOf files sku with
             | [] => None
             | group => Some (Js.sort FileParser.compareSortOrder group)
             end.
Proof.
  unfold FileParser.groupFilesBySku.
  destruct (fold_left _ files (Return [])) as [g|e] eqn:Hfold; [|done].
  intros [= <-]. destruct (fold_pushFile files [] g Hfold) as [Hnd Hown].
  { constructor. }
  rewrite keys_fmap_values. split; [done|]. intros sku.
  rewrite own_fmap_values, Hown. simpl. by destruct (validFilesOf files sku).
Qed.

(** X9. When [groupFilesBySku] returns, every SKU that has a valid file
    has one group and no other key has one; the group of a SKU holds
    the valid files of that SKU, each once, in ascending order of their
    sort orders. *)
Theorem groupFilesBySku_groups files grouped :
  FileParser.groupFilesBySku files = Return grouped →
  NoDup grouped.*1
  ∧ (∀ sku, sku ∈ grouped.*1 ↔ validFilesOf files sku ≠ [])
  ∧ (∀ sku group,
       (sku, group) ∈ grouped →
       group ≡ₚ validFilesOf files sku ∧ ascending group).
Proof.
  intros Hgrouped. destruct (groupFilesBySku_own files grouped Hgrouped) as [Hnd Hown].
  split; [done|]. split.
  - intros sku. specialize (Hown sku). split.
    + intros Hin Hnil. rewrite Hnil in Hown. by apply own_None in Hown.
    + intros Hne. destruct (decide (sku ∈ grouped.*1)) as [|Hout]; [done|].
      apply own_None in Hout. rewrite Hout in Hown.
      by destruct (validFilesOf files sku).
  - intros sku group Hin. apply (elem_of_own _ _ _ Hnd) in Hin.
    rewrite Hown in Hin. destruct (validFilesOf files sku) as [|f l] eqn:E; [done|].
    injection Hin as <-.
    split; [apply (sort_perm _ (f :: l))|apply (sort_ascending (f :: l))].
Qed.

(** X9 on three files of one SKU and one of another. *)
Lemma groupFilesBySku_groups_witness :
  NoDup [("DRESS", [sampleData "DRESS" 1; sampleData "DRESS" 2; sampleData "DRESS" 3]);
         ("SHIRT", [sampleData "SHIRT" 1])].*1
  ∧ (∀ sku,
       sku ∈ [("DRESS", [sampleData "DRESS" 1; sampleData "DRESS" 2; sampleData "DRESS" 3]);
              ("SHIRT", [sampleData "SHIRT" 1])].*1
       ↔ validFilesOf [sampleData "DRESS" 3; sampleData "SHIRT" 1;
                       sampleData "DRESS" 1; sampleData "DRESS" 2] sku ≠ [])
  ∧ (∀ sku group,
       (sku, group)
       ∈ [("DRESS", [sampleData "DRESS" 1; sampleData "DRESS" 2; sampleData "DRESS" 3]);
          ("SHIRT", [sampleData "SHIRT" 1])] →
       group ≡ₚ validFilesOf [sampleData "DRESS" 3; sampleData "SHIRT" 1;
                              sampleData "DRESS" 1; sampleData "DRESS" 2] sku
       ∧ ascending group).
Proof.
  apply (groupFilesBySku_groups
           [sampleData "DRESS" 3; sampleData "SHIRT" 1;
            sampleData "DRESS" 1; sampleData "DRESS" 2]).
  vm_compute. reflexivity.
Defined.

(** X10. [groupFilesBySku] throws exactly when some valid file has a
    SKU that is the name of a property inherited from
    [Object.prototype] (such as [constructor] or [toString]): the lookup
    finds the inherited value, no array is created, and [push] is not a
    function. *)
Theorem groupFilesBySku_throws files :
  (∃ e, FileParser.groupFilesBySku files = Raise e)
  ↔ ∃ f, f ∈ files ∧ Types.isValid f = true ∧ Js.isInherited (Types.sku f) = true.
Proof.
  unfold FileParser.groupFilesBySku. split.
  - intros [e He].
    destruct (decide (Exists (λ f, Types.isValid f = true
                                   ∧ Js.isInherited (Types.sku f) = true) files))
      as [Hex|Hnone].
    { apply Exists_exists in Hex as (f & ? & ? & ?). eauto. }
    apply not_Exists_Forall in Hnone; [|apply _].
    destruct (fold_pushFile_returns files []) as [g Hg].
    { eapply Forall_impl; [exact Hnone|]. intros f Hf Hvalid. simpl in Hf.
      destruct (Js.isInherited (Types.sku f)); [|done]. destruct Hf. done. }
    by rewrite Hg in He.
  - intros (f & Hin & Hvalid & Hkey).
    destruct (fold_pushFile_inherited files [] f Hin Hvalid Hkey) as [e He].
    rewrite He. eauto.
Qed.

Lemma getUniqueSKUs_fold files skus0 :
  NoDup skus0 →
  let skus :=
    fold_left (λ skus file,
                 if Types.isValid file && negb (bool_decide (Types.sku file = ""))
                 then if bool_decide (Types.sku file ∈ skus) then skus
                      else skus ++ [Types.sku file]
                 else skus)
              files skus0 in
  NoDup skus
  ∧ ∀ sku, sku ∈ skus
           ↔ sku ∈ skus0
             ∨ sku ≠ "" ∧ ∃ f, f ∈ files ∧ Types.isValid f = true ∧ Types.sku f = sku.
Proof.
  revert skus0. induction files as [|f files IH]; intros skus0 Hnd; simpl.
  { split; [done|]. intros sku. split; [by left|].
    intros [?|(_ & f & ?%elem_of_nil & _)]; done. }
  set (skus1 := if _ && _ then _ else _).
  assert (NoDup skus1
          ∧ ∀ sku, sku ∈ skus1
                   ↔ sku ∈ skus0
                     ∨ sku ≠ "" ∧ Types.isValid f = true ∧ Types.sku f = sku)
    as [Hnd1 Hin1].
  { unfold skus1. destruct (Types.isValid f); simpl.
    2:{ split; [done|]. intros sku. split; [by left|]. by intros [?|(_ & ? & _)]. }
    case_bool_decide as Hempty; simpl.
    { split; [done|]. intros sku. split; [by left|].
      intros [?|(? & _ & ?)]; [done|congruence]. }
    case_bool_decide as Hseen.
    { split; [done|]. intros sku. split; [by left|].
      by intros [?|(_ & _ & <-)]. }
    split.
    - apply NoDup_app. split_and!; [done| |apply NoDup_singleton].
      by intros x Hx ->%list_elem_of_singleton.
    - intros sku. rewrite elem_of_app, list_elem_of_singleton. split.
      + intros [? | ->]; [by left|by right].
      + intros [?|(_ & _ & <-)]; [by left|by right]. }
  destruct (IH skus1 Hnd1) as [Hnd' Hin']. split; [done|].
  intros sku. rewrite Hin', Hin1. split.
  - intros [[?|(? & ? & ?)]|(? & f' & ? & ? & ?)]; [by left| |].
    + right. split; [done|]. exists f. split; [left|done].
    + right. split; [done|]. exists f'. split; [by right|done].
  - intros [?|(? & f' & [->|?]%elem_of_cons & ? & ?)]; [by do 2 left| |].
    + left. by right.
    + right. split; [done|]. by exists f'.
Qed.

(** X11. [getUniqueSKUs] returns every SKU of a valid file that is not
    the empty text, each once, and nothing else. *)
Theorem getUniqueSKUs_distinct files :
  NoDup (FileParser.getUniqueSKUs files)
  ∧ ∀ sku, sku ∈ FileParser.getUniqueSKUs files
           ↔ sku ≠ "" ∧ validFilesOf files sku ≠ [].
Proof.
  destruct (getUniqueSKUs_fold files []) as [Hnd Hin]; [constructor|].
  split; [done|]. intros sku. unfold FileParser.getUniqueSKUs. rewrite Hin.
  split.
  - intros [?%elem_of_nil|(Hne & f & Hf & Hvalid & Hsku)]; [done|].
    split; [done|]. intros Hnil.
    by pose proof (filter_nil_not_elem_of _ _ f Hnil (conj Hvalid Hsku)).
  - intros [Hne Hsome]. right. split; [done|].
    destruct (validFilesOf files sku) as [|f l] eqn:E; [done|].
    assert (f ∈ validFilesOf files sku) as Hf by (rewrite E; left).
    apply list_elem_of_filter in Hf as [[??] ?]. by exists f.
Qed.

(** ** The figures and the warnings of the pattern analysis *)

Lemma skusOf_no_valid files :
  filter (λ f, Types.pf_isValid f) files = [] → skusOf files = [].
Proof. unfold skusOf. by intros ->. Qed.

(** The two ways [analyzeImagePattern] returns. *)
Lemma analyzeImagePattern_cases localeCompare files result :
  PatternAnalyzer.analyzeImagePattern localeCompare files = Return result →
  (result = None ∧ (length (skusOf files) < 2)%nat)
  ∨ ∃ g mostCommonCount maxFrequency,
      PatternAnalyzer.groupSortOrders (filter (λ f, Types.pf_isValid f) files)
      = Return g
      ∧ (2 ≤ length (skusOf files))%nat
      ∧ PatternAnalyzer.mostCommon
          (PatternAnalyzer.frequencyEntries
             (PatternAnalyzer.countFrequency (Js.entries g)))
        = (mostCommonCount, maxFrequency)
      ∧ result
        = Some {|
            PatternAnalyzer.mostCommonCount := mostCommonCount;
            PatternAnalyzer.totalSkus := length (skusOf files);
            PatternAnalyzer.skusWithExpectedCount := maxFrequency;
            PatternAnalyzer.warnings :=
              Js.sort (λ a b, localeCompare (PatternAnalyzer.sku a)
                                            (PatternAnalyzer.sku b))
                (omap (λ g, PatternAnalyzer.analyzeSku mostCommonCount
                              (length (skusOf files) <=? 2 * maxFrequency)%nat
                              g.1 g.2)
                      (Js.entries g));
            PatternAnalyzer.isConsistentPattern :=
              (length (skusOf files) <=? 2 * maxFrequency)%nat |}.
Proof.
  unfold PatternAnalyzer.analyzeImagePattern, Js.keys.
  set (valid := filter _ files).
  destruct (length valid =? 0)%nat eqn:Hvalid.
  { apply Nat.eqb_eq, nil_length_inv in Hvalid. intros [= <-]. left.
    rewrite skusOf_no_valid by done. simpl. split; [done|lia]. }
  destruct (PatternAnalyzer.groupSortOrders valid) as [g|e] eqn:Hg; [|done].
  destruct (groups_of_valid_files files g Hg) as [Hperm _].
  assert (length (Js.entries g).*1 = length (skusOf files)) as Hlen
    by (by rewrite Hperm).
  rewrite !Hlen.
  destruct (length (skusOf files) =? 0)%nat eqn:Hnone.
  { apply Nat.eqb_eq in Hnone. intros [= <-]. left. split; [done|lia]. }
  destruct (PatternAnalyzer.mostCommon _) as [mcc maxF] eqn:Hmc.
  destruct (length (skusOf files) <? 2)%nat eqn:Hfew.
  { apply Nat.ltb_lt in Hfew. intros [= <-]. by left. }
  apply Nat.ltb_ge in Hfew. intros [= <-]. right. by exists g, mcc, maxF.
Qed.

(** X12. When [analyzeImagePattern] returns, it returns [null] exactly
    when the valid files have fewer than 2 distinct SKUs. *)
Theorem analyzeImagePattern_null localeCompare files result :
  PatternAnalyzer.analyzeImagePattern localeCompare files = Return result →
  result = None ↔ (length (skusOf files) < 2)%nat.
Proof.
  intros Hresult.
  destruct (analyzeImagePattern_cases _ _ _ Hresult)
    as [[-> Hfew]|(g & mcc & maxF & _ & Hmany & _ & ->)]; [done|].
  split; [done|lia].
Qed.

(** X12 on the files of one SKU. *)
Lemma analyzeImagePattern_null_witness :
  (None : option PatternAnalyzer.PatternAnalysis) = None
  ↔ (length (skusOf [sampleFile "A" 1; sampleFile "A" 3]) < 2)%nat.
Proof.
  apply (analyzeImagePattern_null codeCompare [sampleFile "A" 1; sampleFile "A" 3]).
  reflexivity.
Defined.

(** X13. In an analysis that [analyzeImagePattern] returns, [totalSkus]
    is the number of distinct SKUs of the valid files,
    [skusWithExpectedCount] is the number of SKUs that have exactly
    [mostCommonCount] images, and [isConsistentPattern] tells whether
    these are at least half of the SKUs. *)
Theorem analyzeImagePattern_figures localeCompare files analysis :
  PatternAnalyzer.analyzeImagePattern localeCompare files = Return (Some analysis) →
  PatternAnalyzer.totalSkus analysis = length (skusOf files)
  ∧ PatternAnalyzer.skusWithExpectedCount analysis
    = skusWithCount files (PatternAnalyzer.mostCommonCount analysis)
  ∧ (PatternAnalyzer.isConsistentPattern analysis = true
     ↔ (PatternAnalyzer.totalSkus analysis
        ≤ 2 * PatternAnalyzer.skusWithExpectedCount analysis)%nat).
Proof.
  intros Hresult.
  destruct (analyzeImagePattern_cases _ _ _ Hresult)
    as [[? _]|(g & mcc & maxF & Hg & Hmany & Hmc & [= ->])]; [done|].
  simpl. destruct (groups_of_valid_files files g Hg) as [Hperm _].
  destruct (Js.entries g) as [|g0 groups] eqn:Hgroups.
  { apply Permutation_nil_l in Hperm. rewrite <- Hperm in Hmany. simpl in Hmany. lia. }
  destruct (mostCommon_groups (g0 :: groups) g0 mcc maxF) as (Hmcc & _); [left|done|].
  rewrite <- Hgroups in Hmcc. rewrite (groupsWithCount_skus files g mcc Hg) in Hmcc.
  split; [done|]. split; [done|]. apply Nat.leb_le.
Qed.

(** X13 on four SKUs with 3, 3, 3 and 2 images. *)
Lemma analyzeImagePattern_figures_witness :
  4%nat = length (skusOf regularFiles)
  ∧ 3%nat = skusWithCount regularFiles 3
  ∧ (true = true ↔ (4 ≤ 2 * 3)%nat).
Proof.
  apply (analyzeImagePattern_figures codeCompare regularFiles
           {| PatternAnalyzer.mostCommonCount := 3;
              PatternAnalyzer.totalSkus := 4;
              PatternAnalyzer.skusWithExpectedCount := 3;
              PatternAnalyzer.warnings :=
                [ {| PatternAnalyzer.sku := "D";
                     PatternAnalyzer.expectedCount := 3;
                     PatternAnalyzer.actualCount := 2;
                     PatternAnalyzer.missingNumbers := [3];
                     PatternAnalyzer.hasGaps := false |} ];
              PatternAnalyzer.isConsistentPattern := true |}).
  vm_compute. reflexivity.
Defined.

Lemma analyzeSku_sku mostCommonCount consistent sku orders w :
  PatternAnalyzer.analyzeSku mostCommonCount consistent sku orders = Some w →
  PatternAnalyzer.sku w = sku.
Proof.
  unfold PatternAnalyzer.analyzeSku. destruct (_ || _); [|done]. by intros [= <-].
Qed.

Lemma warnings_skus mostCommonCount consistent (groups : list (string * list Z)) :
  (PatternAnalyzer.sku
     <$> omap (λ g, PatternAnalyzer.analyzeSku mostCommonCount consistent g.1 g.2) groups)
  `sublist_of` groups.*1.
Proof.
  induction groups as [|[k v] groups IH]; [done|]. csimpl.
  destruct (PatternAnalyzer.analyzeSku _ _ k v) as [w|] eqn:Hw; csimpl.
  - rewrite (analyzeSku_sku _ _ _ _ _ Hw). by apply sublist_skip.
  - by apply sublist_cons.
Qed.

(** X14. The analysis warns about a SKU at most once, and only with
    reason: every warning is for a SKU of the valid files whose sort
    orders have a gap, or whose image count is below [mostCommonCount]
    while the pattern is consistent; it carries that image count, and
    [hasGaps] tells whether there is a gap. *)
Theorem analyzeImagePattern_warnings_justified localeCompare files analysis :
  PatternAnalyzer.analyzeImagePattern localeCompare files = Return (Some analysis) →
  NoDup (PatternAnalyzer.sku <$> PatternAnalyzer.warnings analysis)
  ∧ ∀ w,
      w ∈ PatternAnalyzer.warnings analysis →
      let orders := sortOrdersOf files (PatternAnalyzer.sku w) in
      orders ≠ []
      ∧ PatternAnalyzer.expectedCount w = PatternAnalyzer.mostCommonCount analysis
      ∧ PatternAnalyzer.actualCount w = length orders
      ∧ (PatternAnalyzer.hasGaps w = true ↔ hasGap orders)
      ∧ (hasGap orders
         ∨ PatternAnalyzer.isConsistentPattern analysis = true
           ∧ (length orders < PatternAnalyzer.mostCommonCount analysis)%nat).
Proof.
  intros Hresult.
  destruct (analyzeImagePattern_cases _ _ _ Hresult)
    as [[? _]|(g & mcc & maxF & Hg & Hmany & Hmc & [= ->])]; [done|].
  cbn [PatternAnalyzer.warnings PatternAnalyzer.mostCommonCount
       PatternAnalyzer.isConsistentPattern].
  split.
  - rewrite sort_perm. eapply sublist_NoDup; [|apply warnings_skus].
    apply entries_NoDup. by destruct (groupSortOrders_own _ _ "" Hg).
  - intros w Hw. apply sort_elem_of, list_elem_of_omap in Hw as ([k v] & Hkv & Hsku).
    simpl in Hsku. apply (groupSortOrders_elem_of _ _ _ _ Hg) in Hkv as [-> Hne].
    rewrite ordersIn_valid in *.
    apply analyzeSku_Some in Hsku as (-> & ? & ? & _ & ? & ?). by split_and!.
Qed.

(** X14 on four SKUs with 3, 3, 3 and 2 images. *)
Lemma analyzeImagePattern_warnings_justified_witness :
  ∃ analysis,
    PatternAnalyzer.analyzeImagePattern codeCompare regularFiles = Return (Some analysis)
    ∧ NoDup (PatternAnalyzer.sku <$> PatternAnalyzer.warnings analysis)
    ∧ ∀ w, w ∈ PatternAnalyzer.warnings analysis →
           PatternAnalyzer.actualCount w
           = length (sortOrdersOf regularFiles (PatternAnalyzer.sku w)).
Proof.
  eexists. split; [vm_compute; reflexivity|].
  destruct (analyzeImagePattern_warnings_justified codeCompare regularFiles _ eq_refl)
    as [Hnd Hw].
  split; [done|]. intros w Hin. by destruct (Hw w Hin) as (_ & _ & ? & _).
Defined.

Lemma analyzeSku_missing mostCommonCount consistent sku orders w :
  orders ≠ [] →
  PatternAnalyzer.analyzeSku mostCommonCount consistent sku orders = Some w →
  if PatternAnalyzer.hasGaps w
  then ∀ i, i ∈ PatternAnalyzer.missingNumbers w
            ↔ (∃ lo hi, lo ∈ orders ∧ hi ∈ orders ∧ lo < i < hi) ∧ i ∉ orders
  else ∃ last,
         last ∈ orders
         ∧ (∀ x, x ∈ orders → x ≤ last)
         ∧ PatternAnalyzer.missingNumbers w
           = seqZ (last + 1) (Z.of_nat mostCommonCount - Z.of_nat (length orders)).
Proof.
  intros Hne. unfold PatternAnalyzer.analyzeSku.
  set (sorted := Js.sort (λ a b : Z, a - b) orders).
  assert (sorted ≡ₚ orders) as Hperm by apply sort_perm.
  assert (length sorted = length orders) as Hlen by (by rewrite Hperm).
  assert (∀ i, i ∈ PatternAnalyzer.gaps sorted
               ↔ (∃ lo hi, lo ∈ orders ∧ hi ∈ orders ∧ lo < i < hi) ∧ i ∉ orders)
    as Hgaps.
  { intros i. rewrite gaps_elem_of. by setoid_rewrite Hperm. }
  destruct (PatternAnalyzer.gaps sorted) as [|i found] eqn:Efound; simpl.
  - rewrite andb_true_r, Hlen.
    destruct (consistent && (length orders <? mostCommonCount)%nat) eqn:Efew;
      [|done].
    intros [= <-]. simpl. unfold PatternAnalyzer.trailing.
    destruct sorted as [|x l] eqn:Esorted.
    { destruct orders; [done|]. simpl in Hlen. lia. }
    destruct (maxOf_spec x l) as [Hin Hmax]. exists (PatternAnalyzer.maxOf x l).
    split; [by rewrite <- Hperm|]. split; [|done].
    intros y Hy. apply Hmax. by rewrite Hperm.
  - rewrite andb_false_r. intros [= <-]. simpl. apply Hgaps.
Qed.

(** X15. The missing numbers of a warning: when the SKU has a gap,
    they are exactly the numbers that lie between two of its sort orders
    and are not among them (nothing is added after the last one, also
    when the SKU is short of images); when it has no gap, they are the
    [expectedCount - actualCount] numbers that follow its last sort
    order. *)
Theorem analyzeImagePattern_missing_numbers localeCompare files analysis w :
  PatternAnalyzer.analyzeImagePattern localeCompare files = Return (Some analysis) →
  w ∈ PatternAnalyzer.warnings analysis →
  let orders := sortOrdersOf files (PatternAnalyzer.sku w) in
  if PatternAnalyzer.hasGaps w
  then ∀ i, i ∈ PatternAnalyzer.missingNumbers w
            ↔ (∃ lo hi, lo ∈ orders ∧ hi ∈ orders ∧ lo < i < hi) ∧ i ∉ orders
  else ∃ last,
         last ∈ orders
         ∧ (∀ x, x ∈ orders → x ≤ last)
         ∧ PatternAnalyzer.missingNumbers w
           = seqZ (last + 1)
               (Z.of_nat (PatternAnalyzer.expectedCount w)
                - Z.of_nat (PatternAnalyzer.actualCount w)).
Proof.
  intros Hresult Hw.
  destruct (analyzeImagePattern_cases _ _ _ Hresult)
    as [[? _]|(g & mcc & maxF & Hg & Hmany & Hmc & [= ->])]; [done|].
  cbn [PatternAnalyzer.warnings] in Hw.
  apply sort_elem_of, list_elem_of_omap in Hw as ([k v] & Hkv & Hsku).
  simpl in Hsku. apply (groupSortOrders_elem_of _ _ _ _ Hg) in Hkv as [-> Hne].
  rewrite ordersIn_valid in *.
  pose proof (analyzeSku_missing _ _ _ _ _ Hne Hsku) as Hmissing.
  apply analyzeSku_Some in Hsku as (-> & -> & -> & _). exact Hmissing.
Qed.

(** X15 on four SKUs with 3, 3, 3 and 2 images: the one missing number
    of SKU D is 3. *)
Lemma analyzeImagePattern_missing_numbers_witness :
  ∃ last,
    last ∈ sortOrdersOf regularFiles "D"
    ∧ (∀ x, x ∈ sortOrdersOf regularFiles "D" → x ≤ last)
    ∧ [3] = seqZ (last + 1) (Z.of_nat 3 - Z.of_nat 2).
Proof.
  apply (analyzeImagePattern_missing_numbers codeCompare regularFiles
           {| PatternAnalyzer.mostCommonCount := 3;
              PatternAnalyzer.totalSkus := 4;
              PatternAnalyzer.skusWithExpectedCount := 3;
              PatternAnalyzer.warnings :=
                [ {| PatternAnalyzer.sku := "D";
                     PatternAnalyzer.expectedCount := 3;
                     PatternAnalyzer.actualCount := 2;
                     PatternAnalyzer.missingNumbers := [3];
                     PatternAnalyzer.hasGaps := false |} ];
              PatternAnalyzer.isConsistentPattern := true |}
           {| PatternAnalyzer.sku := "D";
              PatternAnalyzer.expectedCount := 3;
              PatternAnalyzer.actualCount := 2;
              PatternAnalyzer.missingNumbers := [3];
              PatternAnalyzer.hasGaps := false |}).
  - vm_compute. reflexivity.
  - left.
Defined.

(** A SKU with the images 1, 2 and 5 among SKUs with five images: the
    gap is reported, the two images missing at the end are not. *)
Example gap_hides_missing_tail :
  PatternAnalyzer.analyzeSku 5 true "A" [1; 2; 5]
  = Some {| PatternAnalyzer.sku := "A";
            PatternAnalyzer.expectedCount := 5;
            PatternAnalyzer.actualCount := 3;
            PatternAnalyzer.missingNumbers := [3; 4];
            PatternAnalyzer.hasGaps := true |}.
Proof. reflexivity. Qed.

(** ** [formatMissingNumbers] *)

Lemma formatLoop_runs start end_ rest runs :
  PatternAnalyzer.formatLoop start end_ rest
    ((λ r, PatternAnalyzer.formatRun r.1 r.2) <$> runs)
  = (λ r, PatternAnalyzer.formatRun r.1 r.2) <$> runsLoop start end_ rest runs.
Proof.
  revert start end_ runs. induction rest as [|n rest IH]; intros start end_ runs; simpl.
  - by rewrite fmap_app.
  - destruct (n =? end_ + 1); [apply IH|]. rewrite <- IH. by rewrite fmap_app.
Qed.

Lemma runsLoop_app start end_ rest runs :
  runsLoop start end_ rest runs = runs ++ runsLoop start end_ rest [].
Proof.
  revert start end_ runs. induction rest as [|n rest IH]; intros start end_ runs; simpl.
  - done.
  - destruct (n =? end_ + 1); [apply IH|].
    rewrite IH, (IH _ _ [(start, end_)]). by rewrite app_assoc.
Qed.

Lemma runsLoop_head start end_ rest :
  ∃ last tail, runsLoop start end_ rest [] = (start, last) :: tail.
Proof.
  revert end_. induction rest as [|n rest IH]; intros end_; simpl; [by eexists _, _|].
  destruct (n =? end_ + 1); [apply IH|]. rewrite runsLoop_app. by eexists _, _.
Qed.

Lemma runsLoop_spec start end_ rest :
  start ≤ end_ →
  mjoin (expandRun <$> runsLoop start end_ rest []) = expandRun (start, end_) ++ rest
  ∧ Forall (λ r, r.1 ≤ r.2) (runsLoop start end_ rest [])
  ∧ Sorted (λ r1 r2, r2.1 ≠ r1.2 + 1) (runsLoop start end_ rest []).
Proof.
  revert start end_. induction rest as [|n rest IH]; intros start end_ Hle; simpl.
  { rewrite app_nil_r. split; [done|]. split; [by repeat constructor|].
    by repeat constructor. }
  destruct (n =? end_ + 1) eqn:Hn.
  - apply Z.eqb_eq in Hn. subst n.
    destruct (IH start (end_ + 1)) as (Hjoin & Hall & Hsorted); [lia|].
    split; [|done]. rewrite Hjoin. unfold expandRun. simpl.
    replace (end_ + 1 - start + 1) with ((end_ - start + 1) + 1) by lia.
    rewrite seqZ_app by lia. rewrite <- app_assoc. f_equal.
    replace (start + (end_ - start + 1)) with (end_ + 1) by lia.
    unfold seqZ. simpl. f_equal.
  - apply Z.eqb_neq in Hn. rewrite runsLoop_app. csimpl.
    destruct (IH n n) as (Hjoin & Hall & Hsorted); [lia|].
    split_and!.
    + f_equal. rewrite Hjoin. unfold expandRun. simpl.
      replace (n - n + 1) with 1 by lia. unfold seqZ. simpl. f_equal.
    + by constructor.
    + constructor; [done|].
      destruct (runsLoop_head n n rest) as (last & tail & ->). by constructor.
Qed.

(** X16. [formatMissingNumbers] writes the numbers as runs: the text is
    the runs joined by a comma and a blank, every run written as its
    first number, or as its first and last number with a hyphen between
    them (each in at least two digits); the runs, one after the other,
    are exactly the numbers given, in their order, and no run could be
    joined to the next one. *)
Theorem formatMissingNumbers_runs numbers :
  ∃ runs,
    PatternAnalyzer.formatMissingNumbers numbers
    = Js.join ", " ((λ r, PatternAnalyzer.formatRun r.1 r.2) <$> runs)
    ∧ mjoin (expandRun <$> runs) = numbers
    ∧ Forall (λ r, r.1 ≤ r.2) runs
    ∧ Sorted (λ r1 r2, r2.1 ≠ r1.2 + 1) runs.
Proof.
  destruct numbers as [|n rest].
  { exists []. by repeat split. }
  exists (runsLoop n n rest []).
  destruct (runsLoop_spec n n rest) as (Hjoin & Hall & Hsorted); [lia|].
  split_and!; try done.
  - destruct rest as [|m rest]; [simpl; unfold PatternAnalyzer.formatRun;
                                  by rewrite Z.eqb_refl|].
    unfold PatternAnalyzer.formatMissingNumbers.
    by rewrite <- formatLoop_runs.
  - rewrite Hjoin. unfold expandRun. simpl. replace (n - n + 1) with 1 by lia.
    unfold seqZ. simpl. f_equal.
Qed.

Example formatMissingNumbers_samples :
  PatternAnalyzer.formatMissingNumbers [] = ""
  ∧ PatternAnalyzer.formatMissingNumbers [4] = "04"
  ∧ PatternAnalyzer.formatMissingNumbers [1; 2; 3; 5; 7; 8; 10] = "01-03, 05, 07-08, 10"
  ∧ PatternAnalyzer.formatMissingNumbers [99; 100; 101] = "99-101".
Proof. repeat split. Qed.

(** ** The calls of a group by strategy *)

Lemma calls_upload_events events :
  Forall isUploadEvent events → Forall isUploadCall (ImageQueue.calls events).
Proof.
  intros Hall. induction Hall as [|e events He _ IH]; [constructor|].
  destruct e as [call failure| |]; csimpl; [by constructor|done..].
Qed.

(** X17. The calls [processProductFiles] adds to those made before: one
    [deleteProductMedia] call first when the strategy is [replace] and
    the product has media; then the calls of the upload tasks; and one
    [reorderProductMedia] call last, with the number of uploads that
    succeeded, when the strategy is [prepend], the product has media and
    at least one upload succeeded. The strategy [append] adds upload
    calls only. *)
Theorem processProductFiles_calls_by_strategy remote files product settings log0 :
  let run := ImageQueue.processProductFiles remote files product settings log0 in
  let successes := ImageQueue.countStatus Types.Success run.1 in
  ∃ uploads,
    Forall isUploadCall uploads
    ∧ ImageQueue.calls run.2
      = ImageQueue.calls log0
        ++ (if decide (Types.uploadStrategy settings = Types.Replace
                       ∧ Types.mediaIds product ≠ [])
            then [ImageQueue.DeleteProductMedia (Types.id product)
                    (Types.mediaIds product)]
            else [])
        ++ uploads
        ++ (if decide (Types.uploadStrategy settings = Types.Prepend
                       ∧ Types.mediaIds product ≠ [] ∧ successes ≠ O)
            then [ImageQueue.ReorderProductMedia (Types.id product) successes]
            else []).
Proof.
  unfold ImageQueue.processProductFiles. fold (tasksOf files product settings).
  assert ((0 <? length (Types.mediaIds product))%nat
          = bool_decide (Types.mediaIds product ≠ [])) as ->.
  { destruct (Types.mediaIds product); [done|]. by rewrite bool_decide_true. }
  set (log1 := if bool_decide (_ = Types.Replace) then _ else _).
  set (first := if decide (_ = Types.Replace ∧ _) then _ else _).
  assert (ImageQueue.calls log1 = ImageQueue.calls log0 ++ first) as Hfirst.
  { unfold log1, first. case_bool_decide as Hreplace.
    - case_bool_decide as Hmedia.
      + rewrite decide_True by done. apply calls_snoc.
      + rewrite decide_False by (by intros [_ ?]). by rewrite app_nil_r.
    - rewrite decide_False by (by intros [? _]). by rewrite app_nil_r. }
  destruct (awaitAll_results remote (tasksOf files product settings) log1)
    as (_ & events & Hlog & Hevents & _).
  destruct (ImageQueue.awaitAll remote _ log1) as [results log2].
  cbn [fst snd] in *. subst log2.
  exists (ImageQueue.calls events). split; [by apply calls_upload_events|].
  fold (ImageQueue.countStatus Types.Success results).
  assert ((0 <? ImageQueue.countStatus Types.Success results)%nat
          = bool_decide (ImageQueue.countStatus Types.Success results ≠ O)) as ->.
  { destruct (ImageQueue.countStatus _ _); [done|]. by rewrite bool_decide_true. }
  case_bool_decide as Hprepend; simpl.
  2:{ rewrite decide_False by (by intros [? _]).
      by rewrite app_nil_r, calls_app, Hfirst, <- app_assoc. }
  case_bool_decide as Hmedia; simpl.
  2:{ rewrite decide_False by (by intros (_ & ? & _)).
      by rewrite app_nil_r, calls_app, Hfirst, <- app_assoc. }
  case_bool_decide as Hsuccess.
  - rewrite decide_True by done.
    rewrite calls_snoc, calls_app, Hfirst. by rewrite <- !app_assoc.
  - rewrite decide_False by (by intros (_ & _ & ?)).
    by rewrite app_nil_r, calls_app, Hfirst, <- app_assoc.
Qed.

(** A group of two files under each strategy. *)
Example calls_by_strategy_samples :
  let callsOf strategy :=
    (λ c, match c with
          | ImageQueue.DeleteProductMedia _ _ => "delete"
          | ImageQueue.ReorderProductMedia _ n => "reorder " +:+ Js.toString (Z.of_nat n)
          | _ => "upload"
          end)
      <$> ImageQueue.calls
            (ImageQueue.processProductFiles obligingRemote
               [sampleData "DRESS" 1; sampleData "DRESS" 2] sampleProduct
               {| Types.dryRun := false; Types.uploadStrategy := strategy;
                  Types.seoOptimization := false;
                  Types.altTextByPosition := None |} []).2 in
  callsOf Types.Replace
  = ["delete"; "upload"; "upload"; "upload"; "upload"; "upload"; "upload"]
  ∧ callsOf Types.Prepend
    = ["upload"; "upload"; "upload"; "upload"; "upload"; "upload"; "reorder 2"]
  ∧ callsOf Types.Append
    = ["upload"; "upload"; "upload"; "upload"; "upload"; "upload"].
Proof. repeat split. Qed.

(** ** The results of a group *)

Lemma resultOf_reportsUpload file product settings result :
  resultOf {| ImageQueue.file := file; ImageQueue.product := product;
              ImageQueue.settings := settings |} result →
  reportsUpload product file result.
Proof.
  unfold reportsUpload. intros [->|[e ->]]; simpl.
  - split_and!; try done. by left.
  - split_and!; try done. right. split; [done|]. by eexists.
Qed.

(** X18. [processProductFiles] returns one result per file of the
    group, in ascending order of the sort orders whatever the order of
    the files and of the answers; every result names its file and the
    product, and is a success without error text or an error with
    one. *)
Theorem processProductFiles_results_in_order remote files product settings log0 :
  ∃ sorted,
    sorted ≡ₚ files
    ∧ ascending sorted
    ∧ Forall2 (reportsUpload product) sorted
        (ImageQueue.processProductFiles remote files product settings log0).1.
Proof.
  exists (Js.sort FileParser.compareSortOrder files).
  split; [apply sort_perm|]. split; [apply sort_ascending|].
  destruct (processProductFiles_results remote files product settings log0)
    as (log1 & -> & _).
  destruct (awaitAll_results remote (tasksOf files product settings) log1)
    as [Hresults _].
  unfold tasksOf in Hresults at 1. rewrite Forall2_fmap_l in Hresults.
  eapply Forall2_impl; [exact Hresults|].
  intros file result. apply resultOf_reportsUpload.
Qed.

(** ** One upload task *)

(** X19. [processOneUpload] makes its calls in order (the staged
    target is asked for, the bytes are sent to the target received, the
    image is registered with the resource URL of that target) and stops
    at the first call that fails: between one and three calls are
    answered, only the last of them can have failed, its failure is the
    error of the result, and the result is a success only after three
    calls without failure. *)
Theorem processOneUpload_stops_at_first_failure remote log0 task :
  let run := ImageQueue.processOneUpload remote log0 task in
  ∃ events,
    run.2 = log0 ++ events
    ∧ (1 ≤ length events ≤ 3)%nat
    ∧ (∀ i e, events !! i = Some e → (S i < length events)%nat → failureOf e = None)
    ∧ match last events ≫= failureOf with
      | Some thrown => run.1 = ImageQueue.errorResult task thrown
      | None => run.1 = ImageQueue.successResult task ∧ length events = 3%nat
      end
    ∧ match ImageQueue.createStagedUpload remote (ImageQueue.calls log0)
              (ImageQueue.file task) with
      | Return target =>
          ImageQueue.calls events
          `prefix_of`
          [ ImageQueue.CreateStagedUpload (ImageQueue.file task);
            ImageQueue.UploadToStagedTarget target (ImageQueue.file task);
            ImageQueue.CreateProductMedia (Types.id (ImageQueue.product task))
              (Types.resourceUrl target) (ImageQueue.altTextOf task) ]
      | Raise _ =>
          ImageQueue.calls events
          = [ImageQueue.CreateStagedUpload (ImageQueue.file task)]
      end.
Proof.
  intros run. subst run. unfold ImageQueue.processOneUpload.
  assert (∀ events : list ImageQueue.Event,
            (length events ≤ 3)%nat →
            Forall (λ e, failureOf e = None) (removelast events) →
            ∀ i e, events !! i = Some e → (S i < length events)%nat →
                   failureOf e = None) as Hbefore.
  { intros events _ Hall i e Hi Hlt. rewrite Forall_forall in Hall. apply Hall.
    destruct events as [|e' events] using rev_ind; [done|].
    rewrite removelast_last. rewrite length_app in Hlt. simpl in Hlt.
    rewrite lookup_app_l in Hi by lia. by eapply list_elem_of_lookup_2. }
  destruct (ImageQueue.createStagedUpload _ _ _) as [target|e1].
  2:{ eexists [_]. cbn [fst snd]. split; [done|]. split; [simpl; lia|].
      split; [apply Hbefore; [simpl; lia|constructor]|]. by split. }
  destruct (ImageQueue.uploadToStagedTarget _ _ _ _) as [[]|e2].
  2:{ eexists [_; _]. cbn [fst snd]. split; [by rewrite <- app_assoc|].
      split; [simpl; lia|].
      split; [apply Hbefore; [simpl; lia|by repeat constructor]|].
      split; [done|]. by eexists [_]. }
  destruct (ImageQueue.createProductMedia _ _ _ _ _) as [mediaId|e3].
  - eexists [_; _; _]. cbn [fst snd]. split; [by rewrite <- !app_assoc|].
    split; [simpl; lia|].
    split; [apply Hbefore; [simpl; lia|by repeat constructor]|].
    split; [done|]. by exists [].
  - eexists [_; _; _]. cbn [fst snd]. split; [by rewrite <- !app_assoc|].
    split; [simpl; lia|].
    split; [apply Hbefore; [simpl; lia|by repeat constructor]|].
    split; [done|]. by exists [].
Qed.

(** A task whose bytes are refused makes two calls and never registers
    the image. *)
Example refused_bytes_stop_the_task :
  let remote :=
    {| ImageQueue.createStagedUpload := λ _ _, Return sampleTarget;
       ImageQueue.uploadToStagedTarget := λ _ _ _,
         Raise (ImageQueue.ErrorObject "Failed to upload file: 403 Forbidden");
       ImageQueue.createProductMedia := λ _ _ _ _, Return "gid://shopify/MediaImage/9";
       ImageQueue.deleteProductMedia := λ _ _ _, Return ();
       ImageQueue.reorderProductMedia := λ _ _ _, Return ();
       ImageQueue.nextToSettle := λ _, O |} in
  ImageQueue.processOneUpload remote [] (sampleTask 1)
  = (ImageQueue.errorResult (sampleTask 1)
       (ImageQueue.ErrorObject "Failed to upload file: 403 Forbidden"),
     [ ImageQueue.Answered (ImageQueue.CreateStagedUpload (sampleData "DRESS" 1)) None;
       ImageQueue.Answered
         (ImageQueue.UploadToStagedTarget sampleTarget (sampleData "DRESS" 1))
         (Some (ImageQueue.ErrorObject "Failed to upload file: 403 Forbidden")) ]).
Proof. reflexivity. Qed.

(** ** The loop over the SKU groups *)

Lemma processProductFiles_names remote files product settings log0 :
  Types.filename <$> (ImageQueue.processProductFiles remote files product settings log0).1
  ≡ₚ Types.originalFilename <$> files.
Proof.
  destruct (processProductFiles_results remote files product settings log0)
    as (log1 & -> & _).
  destruct (awaitAll_results remote (tasksOf files product settings) log1)
    as [Hresults _].
  unfold tasksOf in Hresults at 1. rewrite Forall2_fmap_l in Hresults.
  rewrite <- (sort_perm FileParser.compareSortOrder files) at 2.
  assert (∀ (l : list Types.ParsedFileData) results,
            Forall2 (resultOf ∘ (λ file, {| ImageQueue.file := file;
                                            ImageQueue.product := product;
                                            ImageQueue.settings := settings |}))
              l results →
            Types.filename <$> results = Types.originalFilename <$> l) as Hnames.
  { intros l results Hall. induction Hall as [|file r l results Hr _ IH]; [done|].
    csimpl. rewrite IH. f_equal. by destruct Hr as [->|[e ->]]. }
  by rewrite (Hnames _ _ Hresults).
Qed.

(** The results of the loop, group by group. *)
Lemma processGroups_results remote productMap settings groups acc log0 :
  let run :=
    fold_left (ImageQueue.processGroup remote productMap settings) groups (acc, log0) in
  Types.filename <$> run.1
  ≡ₚ (Types.filename <$> acc) ++ (Types.originalFilename <$> mjoin groups.*2)
  ∧ (∀ r, r ∈ acc → r ∈ run.1)
  ∧ (∀ sku files file,
       (sku, files) ∈ groups → file ∈ files → productMap !! sku = None →
       ImageQueue.skippedResult sku file ∈ run.1)
  ∧ ((∀ sku, sku ∈ groups.*1 → productMap !! sku = None) →
     run.2 = log0
     ∧ run.1 = acc ++ mjoin ((λ g, ImageQueue.skippedResult g.1 <$> g.2) <$> groups)).
Proof.
  intros run. subst run.
  revert acc log0. induction groups as [|[sku files] groups IH]; intros acc log0.
  { cbn. rewrite !app_nil_r. split_and!; try done.
    by intros ??? ?%elem_of_nil. }
  cbn [fold_left].
  assert (∃ more log1,
            ImageQueue.processGroup remote productMap settings (acc, log0) (sku, files)
            = (acc ++ more, log1)
            ∧ Types.filename <$> more ≡ₚ Types.originalFilename <$> files
            ∧ (productMap !! sku = None →
               more = ImageQueue.skippedResult sku <$> files ∧ log1 = log0))
    as (more & log1 & -> & Hnames & Hskipped).
  { cbn [ImageQueue.processGroup].
    destruct (productMap !! sku) as [product|].
    2:{ eexists _, _. split; [done|]. split; [|done].
        by rewrite <- list_fmap_compose. }
    destruct (Types.dryRun settings).
    { eexists _, _. split; [done|]. split; [|done].
      by rewrite <- list_fmap_compose. }
    pose proof (processProductFiles_names remote files product settings log0) as Hp.
    destruct (ImageQueue.processProductFiles remote files product settings log0)
      as [results log']. eexists _, _. split; [done|]. by split. }
  destruct (IH (acc ++ more) log1) as (Hperm & Hacc & Hmissing & Hnone).
  split_and!.
  - rewrite Hperm. csimpl. rewrite !fmap_app, Hnames. by rewrite <- app_assoc.
  - intros r Hr. apply Hacc, elem_of_app. by left.
  - intros sku' files' file [[= -> ->]|Hin]%elem_of_cons Hfile Hproduct.
    + apply Hacc, elem_of_app. right. destruct (Hskipped Hproduct) as [-> _].
      by apply list_elem_of_fmap_2.
    + by eapply Hmissing.
  - intros Hall. destruct (Hskipped (Hall sku ltac:(left))) as [-> ->].
    destruct Hnone as [-> ->].
    { intros sku' Hin. apply Hall. by right. }
    split; [done|]. csimpl. by rewrite <- app_assoc.
Qed.

(** X20. The files of a SKU group without product are each reported as
    skipped, with the text "No product found with SKU:" and the key of
    the group; and a run in which no group has a product reports nothing
    else and makes no call. *)
Theorem missing_product_skips_group remote groupedFiles productMap settings log0 :
  let run :=
    ImageQueue.processUploadQueue remote groupedFiles productMap settings log0 in
  (∀ sku files file,
     (sku, files) ∈ groupedFiles → file ∈ files → productMap !! sku = None →
     ∃ r,
       r ∈ run.1
       ∧ Types.filename r = Types.originalFilename file
       ∧ Types.detectedSku r = Types.sku file
       ∧ Types.productFound r = false
       ∧ Types.status r = Types.Skipped
       ∧ Types.errorDetails r = Some ("No product found with SKU: " +:+ sku))
  ∧ ((∀ sku, sku ∈ groupedFiles.*1 → productMap !! sku = None) →
     run.2 = log0 ∧ Forall (λ r, Types.status r = Types.Skipped) run.1).
Proof.
  intros run. subst run. unfold ImageQueue.processUploadQueue.
  destruct (processGroups_results remote productMap settings
              (Js.entries groupedFiles) [] log0) as (_ & _ & Hmissing & Hnone).
  split.
  - intros sku files file Hin Hfile Hproduct.
    exists (ImageQueue.skippedResult sku file). split; [|done].
    eapply Hmissing; [|done|done]. by apply entries_elem_of.
  - intros Hall. destruct Hnone as [Hlog Hresults].
    { intros sku Hsku. apply Hall. by rewrite <- (entries_perm groupedFiles). }
    split; [done|]. rewrite Hresults. simpl.
    apply Forall_forall. intros r Hr.
    apply list_elem_of_join in Hr as (rs & Hr & Hrs).
    apply list_elem_of_fmap in Hrs as ([sku files] & -> & _).
    by apply list_elem_of_fmap in Hr as (file & -> & _).
Qed.

(** ** The catalog queries *)

Lemma queryProducts_step (catalog : ShopifyMedia.Catalog)
    (productMap : gmap string Types.ProductData) k sku :
  match catalog k with
  | Return (Some product) => <[k := product]> productMap
  | Return None => productMap
  | Raise _ => productMap
  end !! sku
  = if decide (k = sku)
    then match catalog sku with
         | Return (Some product) => Some product
         | _ => productMap !! sku
         end
    else productMap !! sku.
Proof.
  case_decide as Hk.
  - subst k. destruct (catalog sku) as [[product|]|]; try done.
    by rewrite lookup_insert_eq.
  - destruct (catalog k) as [[product|]|]; try done. by rewrite lookup_insert_ne.
Qed.

Lemma queryProducts_fold (catalog : ShopifyMedia.Catalog) skus
    (productMap : gmap string Types.ProductData) sku :
  fold_left (λ (productMap : gmap string Types.ProductData) sku,
               match catalog sku with
               | Return (Some product) => <[sku := product]> productMap
               | Return None => productMap
               | Raise _ => productMap
               end)
            skus productMap !! sku
  = if decide (sku ∈ skus)
    then match catalog sku with
         | Return (Some product) => Some product
         | _ => productMap !! sku
         end
    else productMap !! sku.
Proof.
  revert productMap. induction skus as [|k skus IH]; intros productMap; simpl.
  { done. }
  rewrite IH, queryProducts_step.
  destruct (decide (k = sku)) as [->|Hne].
  - rewrite (decide_True (P := sku ∈ sku :: skus)) by left.
    case_decide; [|done]. by destruct (catalog sku) as [[product|]|].
  - destruct (decide (sku ∈ skus)) as [Hin|Hout].
    + by rewrite decide_True by (by right).
    + rewrite decide_False; [done|]. intros [?|?]%elem_of_cons; done.
Qed.

(** X21. [queryProductsBySKUs] maps a SKU to a product exactly when the
    SKU was asked for and the query returned that product; a query that
    finds nothing or throws leaves the SKU without entry, and the SKUs
    after it are still asked. *)
Theorem queryProductsBySKUs_lookup catalog skus sku :
  ShopifyMedia.queryProductsBySKUs catalog skus !! sku
  = if decide (sku ∈ skus)
    then match catalog sku with
         | Return (Some product) => Some product
         | Return None | Raise _ => None
         end
    else None.
Proof.
  unfold ShopifyMedia.queryProductsBySKUs. rewrite queryProducts_fold.
  rewrite lookup_empty. case_decide; [|done].
  by destruct (catalog sku) as [[product|]|].
Qed.

(** ** The report of [action] *)

Lemma update_join {V} k (x : V) (o : Js.Dict (list V)) :
  mjoin (Js.update k (λ group, default [] group ++ [x]) o).*2 ≡ₚ mjoin o.*2 ++ [x].
Proof.
  induction o as [|[k0 v] o IH]; [done|]. cbn [Js.update].
  case_bool_decide; csimpl.
  - rewrite <- !app_assoc. f_equiv. apply Permutation_app_comm.
  - by rewrite IH, app_assoc.
Qed.

Lemma fold_pushFile_join files g g' :
  fold_left FileParser.pushFile files (Return g) = Return g' →
  mjoin g'.*2 ≡ₚ mjoin g.*2 ++ filter (λ f, Types.isValid f) files.
Proof.
  revert g. induction files as [|f files IH]; intros g; simpl.
  { intros [= <-]. by rewrite app_nil_r. }
  destruct (Types.isValid f) eqn:Hvalid; simpl.
  2:{ intros Hfold. rewrite (IH _ Hfold). rewrite filter_cons_False; [done|].
      intros Hv%Is_true_true. congruence. }
  destruct (Js.isInherited (Types.sku f)).
  { by rewrite fold_pushFile_raise. }
  intros Hfold. rewrite (IH _ Hfold), update_join.
  rewrite filter_cons_True by (by apply Is_true_true). by rewrite <- app_assoc.
Qed.

Lemma join_sorted_values (o : Js.Dict (list Types.ParsedFileData)) :
  mjoin ((λ g, (g.1, Js.sort FileParser.compareSortOrder g.2)) <$> o).*2
  ≡ₚ mjoin o.*2.
Proof.
  induction o as [|[k v] o IH]; [done|]. csimpl. by rewrite IH, sort_perm.
Qed.

(** The groups hold the valid files, each once. *)
Lemma groupFilesBySku_join files grouped :
  FileParser.groupFilesBySku files = Return grouped →
  mjoin (Js.entries grouped).*2 ≡ₚ filter (λ f, Types.isValid f) files.
Proof.
  unfold FileParser.groupFilesBySku.
  destruct (fold_left _ files (Return [])) as [g|e] eqn:Hfold; [|done].
  intros [= <-]. rewrite entries_perm, join_sorted_values.
  by rewrite (fold_pushFile_join files [] g Hfold).
Qed.

Lemma toParsedFileData_fields blobs metas :
  Types.originalFilename <$> imap (Route.toParsedFileData blobs) metas
  = Route.m_originalFilename <$> metas
  ∧ Forall2 (λ meta f, Types.isValid f = Route.m_isValid meta
                       ∧ Types.sku f = Route.m_sku meta)
      metas (imap (Route.toParsedFileData blobs) metas).
Proof.
  revert blobs. induction metas as [|meta metas IH] using rev_ind; intros blobs;
    [by split|].
  rewrite imap_app, !fmap_app. destruct (IH blobs) as [-> Hall].
  split; [done|]. apply Forall2_app; [done|]. by repeat constructor.
Qed.

(** What [action] does with a form that it can read. *)
Lemma attempt_returns remote catalog formData settings metas :
  Route.settingsField formData = Route.Parsed settings →
  Route.filesDataField formData = Route.Parsed metas →
  (∀ meta, meta ∈ metas → Route.m_isValid meta = true →
           Js.isInherited (Route.m_sku meta) = false) →
  ∃ response log,
    Route.attempt remote catalog (Return formData) = Return (response, log)
    ∧ Types.filename <$> Types.results response ≡ₚ Route.m_originalFilename <$> metas
    ∧ Types.total (Types.summary response) = length (Types.results response)
    ∧ ((∃ meta, meta ∈ metas ∧ Route.m_isValid meta = true) →
       Types.summary response = ImageQueue.generateSummary (Types.results response)
       ∧ Types.success response
         = (Types.failed (Types.summary response) =? 0)%nat).
Proof.
  intros Hsettings Hfiles Hkeys. unfold Route.attempt. rewrite Hsettings, Hfiles.
  destruct (toParsedFileData_fields (Route.fileBlobs formData) metas)
    as [Hnames Hfields].
  set (parsed := imap _ metas) in *.
  assert (Types.filename
            <$> (Route.invalidResult <$> filter (λ f, ¬ Types.isValid f) parsed)
          = Types.originalFilename <$> filter (λ f, ¬ Types.isValid f) parsed)
    as Hinvalid by (by rewrite <- list_fmap_compose).
  destruct (length (filter (λ f, Types.isValid f) parsed) =? 0)%nat eqn:Hvalid.
  { apply Nat.eqb_eq, nil_length_inv in Hvalid. eexists _, _. split; [done|].
    cbn [Types.results]. split_and!; [|done|].
    - rewrite Hinvalid, <- Hnames.
      rewrite <- (filter_app_complement (λ f, Types.isValid f) parsed) at 2.
      by rewrite Hvalid.
    - intros (meta & Hmeta & Hmvalid). exfalso.
      apply list_elem_of_lookup in Hmeta as [i Hi].
      destruct (Forall2_lookup_l _ _ _ _ _ Hfields Hi) as (f & Hf & Hfvalid & _).
      apply (filter_nil_not_elem_of _ _ f Hvalid).
      + apply Is_true_true. congruence.
      + by eapply list_elem_of_lookup_2. }
  destruct (FileParser.groupFilesBySku (filter (λ f, Types.isValid f) parsed))
    as [groupedFiles|message] eqn:Hgrouped.
  2:{ exfalso.
      destruct (fold_pushFile_returns (filter (λ f, Types.isValid f) parsed) [])
        as [g Hg].
      { apply Forall_forall. intros f [_ Hf]%list_elem_of_filter Hfv.
        apply list_elem_of_lookup in Hf as [i Hi].
        destruct (Forall2_lookup_r _ _ _ _ _ Hfields Hi)
          as (meta & Hmeta & Hfvalid & Hsku).
        rewrite Hsku. apply Hkeys; [by eapply list_elem_of_lookup_2|].
        congruence. }
      unfold FileParser.groupFilesBySku in Hgrouped. by rewrite Hg in Hgrouped. }
  pose proof (groupFilesBySku_join _ _ Hgrouped) as Hjoin.
  rewrite list_filter_filter in Hjoin.
  destruct (processGroups_results remote
              (ShopifyMedia.queryProductsBySKUs catalog
                 (FileParser.getUniqueSKUs (filter (λ f, Types.isValid f) parsed)))
              settings (Js.entries groupedFiles) [] []) as (Hperm & _).
  fold (ImageQueue.processUploadQueue remote groupedFiles
          (ShopifyMedia.queryProductsBySKUs catalog
             (FileParser.getUniqueSKUs (filter (λ f, Types.isValid f) parsed)))
          settings []) in Hperm.
  destruct (ImageQueue.processUploadQueue _ _ _ _ _) as [uploadResults log1].
  eexists _, _. split; [done|]. cbn [Types.results Types.summary Types.success].
  split_and!; [|done..].
  rewrite fmap_app, Hinvalid. cbn [fst] in Hperm. rewrite Hperm. simpl.
  rewrite Hjoin, <- Hnames.
  rewrite <- (filter_app_complement (λ f, Types.isValid f) parsed) at 3.
  rewrite (Permutation_app_comm (_ <$> filter (λ f, ¬ Types.isValid f) parsed)).
  rewrite fmap_app. f_equiv. f_equiv.
  erewrite list_filter_iff; [done|]. intros f. tauto.
Qed.

(** X22. Whatever the catalog and the media API answer, a form that
    [action] can read, in which no valid file has a SKU that names an
    inherited property, is answered with one result per submitted file:
    the file names of the results are those of the submitted files, each
    as often as it was submitted, and the total of the summary is their
    number. *)
Theorem action_reports_every_file remote catalog formData settings metas :
  Route.settingsField formData = Route.Parsed settings →
  Route.filesDataField formData = Route.Parsed metas →
  (∀ meta, meta ∈ metas → Route.m_isValid meta = true →
           Js.isInherited (Route.m_sku meta) = false) →
  let response := Route.action remote catalog (Return formData) in
  Types.filename <$> Types.results response ≡ₚ Route.m_originalFilename <$> metas
  ∧ Types.total (Types.summary response) = length metas.
Proof.
  intros Hsettings Hfiles Hkeys response. subst response. unfold Route.action.
  destruct (attempt_returns remote catalog formData settings metas
              Hsettings Hfiles Hkeys) as (response & log & -> & Hnames & Htotal & _).
  split; [done|]. rewrite Htotal.
  by rewrite <- (length_fmap Types.filename), Hnames, length_fmap.
Qed.

(** X22 on two valid files and an invalid one, with a media API that
    refuses an image. *)
Lemma action_reports_every_file_witness :
  let response :=
    Route.action pickyRemote sampleCatalog
      (Return {| Route.settingsField := Route.Parsed replaceSettings;
                 Route.filesDataField :=
                   Route.Parsed [validMeta "DRESS" 2; invalidMeta; validMeta "SHIRT" 1];
                 Route.fileBlobs := [] |}) in
  Types.filename <$> Types.results response
  ≡ₚ Route.m_originalFilename <$> [validMeta "DRESS" 2; invalidMeta; validMeta "SHIRT" 1]
  ∧ Types.total (Types.summary response)
    = length [validMeta "DRESS" 2; invalidMeta; validMeta "SHIRT" 1].
Proof.
  apply (action_reports_every_file pickyRemote sampleCatalog _ replaceSettings
           [validMeta "DRESS" 2; invalidMeta; validMeta "SHIRT" 1]).
  - reflexivity.
  - reflexivity.
  - intros meta Hmeta _. rewrite !elem_of_cons, elem_of_nil in Hmeta.
    destruct Hmeta as [->|[->|[->|[]]]]; reflexivity.
Defined.

(** A valid file whose SKU is the name of an inherited property, which
    [parseFilename] never returns but a crafted form can hold, makes
    [action] answer with its [catch] response. *)
Example inherited_sku_fails_the_request :
  Route.action obligingRemote sampleCatalog
    (requestOf dryRunSettings [validMeta "DRESS" 1; validMeta "toString" 1])
  = Route.failureResponse
      (ImageQueue.ErrorObject "grouped[file.sku].push is not a function").
Proof. reflexivity. Qed.

(** ** From the dropped files to the report *)




Example dropped_files_report :
  (λ r, (Types.filename r, Types.detectedSku r, Types.status r))
    <$> Types.results
          (Route.action pickyRemote sampleCatalog
             (Return {| Route.settingsField := Route.Parsed plainSettings;
                        Route.filesDataField :=
                          Route.Parsed
                            (Route.toFileMeta
                               <$> FileParser.parseFiles
                                     [ {| Types.name := "dress-01.jpg";
                                          Types.type := "image/jpeg";
                                          Types.size := 1024 |};
                                       {| Types.name := "notes.txt";
                                          Types.type := "text/plain";
                                          Types.size := 12 |};
                                       {| Types.name := "shirt-02.png";
                                          Types.type := "image/png";
                                          Types.size := 2048 |} ]);
                        Route.fileBlobs := [] |}))
  = [ ("notes.txt", "", Types.Error);
      ("dress-01.jpg", "DRESS", Types.Success);
      ("shirt-02.png", "SHIRT", Types.Skipped) ].
Proof. vm_compute. reflexivity. Qed.

(** ** Alt texts from the settings card to the upload *)

Lemma storedText_edit settings position value k :
  storedText (SettingsCard.handleAltTextChange settings position value) k
  = if decide (k = position)
    then if decide (Js.trim value = "") then None else Some (Js.trim value)
    else storedText settings k.
Proof.
  unfold storedText, SettingsCard.handleAltTextChange. cbn [Types.altTextByPosition].
  cbn [mbind option_bind].
  assert (default ∅ (Types.altTextByPosition settings) !! k
          = Types.altTextByPosition settings ≫= (λ m, m !! k)) as Hold.
  { destruct (Types.altTextByPosition settings); [done|]. apply lookup_empty. }
  destruct (decide (k = position)) as [->|Hk].
  - case_bool_decide as Hblank.
    + rewrite decide_True by done. apply lookup_delete_eq.
    + rewrite decide_False by done. apply lookup_insert_eq.
  - rewrite <- Hold. case_bool_decide as Hblank.
    + by rewrite lookup_delete_ne.
    + by rewrite lookup_insert_ne.
Qed.

(** X24. After an edit of the text of a position in the settings card,
    with SEO optimization on, the alt text of an upload at that position
    is the product title, [" - "] and the trimmed text typed, or the
    default ["View NN"] when the text typed is blank; the alt text of an
    upload at any other position is what it was before the edit. *)
Theorem alt_text_follows_the_edit settings position value file product :
  Types.seoOptimization settings = true →
  let task s :=
    {| ImageQueue.file := file; ImageQueue.product := product;
       ImageQueue.settings := s |} in
  let edited := SettingsCard.handleAltTextChange settings position value in
  (Types.sortOrder file = position →
   ImageQueue.altTextOf (task edited)
   = Some (Types.title product +:+ " - "
           +:+ (if decide (Js.trim value = "") then defaultAltSuffix position
                else Js.trim value)))
  ∧ (Types.sortOrder file ≠ position →
     ImageQueue.altTextOf (task edited) = ImageQueue.altTextOf (task settings)).
Proof.
  intros Hseo task edited.
  assert (∀ s, Types.seoOptimization s = true →
               ImageQueue.altTextOf (task s)
               = Some (Types.title product +:+ " - "
                       +:+ ImageQueue.orElse (storedText s (Types.sortOrder file))
                             (defaultAltSuffix (Types.sortOrder file)))) as Halt.
  { intros s Hs. unfold ImageQueue.altTextOf. cbn [task ImageQueue.settings
      ImageQueue.file ImageQueue.product]. by rewrite Hs. }
  rewrite !Halt by done. unfold edited. rewrite storedText_edit. split.
  - intros ->. rewrite decide_True by done. case_decide as Hblank; [done|].
    simpl. by rewrite bool_decide_false.
  - intros Hne. by rewrite decide_False.
Qed.

(** X24 for the text [" Front "] typed for position 1. *)
Lemma alt_text_follows_the_edit_witness :
  let task s :=
    {| ImageQueue.file := sampleData "DRESS" 1; ImageQueue.product := sampleProduct;
       ImageQueue.settings := s |} in
  let edited := SettingsCard.handleAltTextChange replaceSettings 1 " Front " in
  (Types.sortOrder (sampleData "DRESS" 1) = 1 →
   ImageQueue.altTextOf (task edited)
   = Some (Types.title sampleProduct +:+ " - "
           +:+ (if decide (Js.trim " Front " = "") then defaultAltSuffix 1
                else Js.trim " Front ")))
  ∧ (Types.sortOrder (sampleData "DRESS" 1) ≠ 1 →
     ImageQueue.altTextOf (task edited) = ImageQueue.altTextOf (task replaceSettings)).
Proof.
  apply (alt_text_follows_the_edit replaceSettings 1 " Front "
           (sampleData "DRESS" 1) sampleProduct).
  reflexivity.
Defined.

Lemma afterEdits_snoc settings edits edit :
  afterEdits settings (edits ++ [edit])
  = SettingsCard.handleAltTextChange (afterEdits settings edits) edit.1 edit.2.
Proof. unfold afterEdits. by rewrite foldl_app. Qed.

(** X25. However the texts of the settings card are edited, the text
    stored for a position is the trimmed text of the last edit of that
    position, or none when that text was blank; a position never edited
    keeps what it had. So no edit ever stores an empty text. *)
Theorem edits_keep_last_text settings edits position :
  storedText (afterEdits settings edits) position
  = match last (filter (λ edit, edit.1 = position) edits) with
    | Some edit => if decide (Js.trim edit.2 = "") then None else Some (Js.trim edit.2)
    | None => storedText settings position
    end.
Proof.
  induction edits as [|edit edits IH] using rev_ind; [done|].
  rewrite afterEdits_snoc, storedText_edit, filter_app.
  case_decide as Hk.
  - rewrite filter_cons_True by done. by rewrite filter_nil, last_snoc.
  - rewrite filter_cons_False by done. by rewrite filter_nil, app_nil_r.
Qed.

Example edits_sample :
  storedText
    (afterEdits plainSettings [(1, "Front"); (2, "Back"); (1, "  "); (2, " Label ")]) 1
  = None
  ∧ storedText
      (afterEdits plainSettings [(1, "Front"); (2, "Back"); (1, "  "); (2, " Label ")]) 2
    = Some "Label".
Proof. split; reflexivity. Qed.

(** ** The text fields of the settings card *)



(** ** The CSV report *)

Lemma append_snoc cell c v : (cell +:+ String c "") +:+ v = cell +:+ String c v.
Proof. by rewrite append_assoc. Qed.

Lemma readCsv_plain v tail cell row :
  Js.occurs "," v = false → Js.occurs Js.lineFeed v = false →
  Js.occurs Js.quote v = false →
  readCsv (v +:+ tail) false cell row = readCsv tail false (cell +:+ v) row.
Proof.
  revert cell. induction v as [|c v IH]; intros cell; simpl.
  { intros _ _ _. by rewrite append_nil_r. }
  intros [Hc1 Hv1]%orb_false_iff [Hc2 Hv2]%orb_false_iff [Hc3 Hv3]%orb_false_iff.
  rewrite Hc1, Hc2, Hc3. rewrite IH by done. by rewrite append_snoc.
Qed.

Lemma readCsv_quoted v tail cell row :
  match tail with String c _ => Ascii.eqb c Js.quote = false | EmptyString => True end →
  readCsv (CsvExport.doubleQuotes v +:+ String Js.quote tail) true cell row
  = readCsv tail false (cell +:+ v) row.
Proof.
  intros Htail. revert cell. induction v as [|c v IH]; intros cell.
  - rewrite append_nil_r. cbn [CsvExport.doubleQuotes]. rewrite append_empty.
    cbn [readCsv]. rewrite Ascii.eqb_refl.
    destruct tail as [|c' rest]; [done|]. by rewrite Htail.
  - cbn [CsvExport.doubleQuotes]. destruct (Ascii.eqb c Js.quote) eqn:Hc.
    + apply Ascii.eqb_eq in Hc. subst c. rewrite !append_cons. cbn [readCsv].
      rewrite !Ascii.eqb_refl. rewrite IH. by rewrite append_snoc.
    + rewrite append_cons. cbn [readCsv]. rewrite Hc, IH. by rewrite append_snoc.
Qed.

(** The reader takes a cell written by [escapeCSV] for what it was. *)
Lemma readCsv_cell v tail row :
  match tail with
  | String c _ => Ascii.eqb c "," = true ∨ Ascii.eqb c Js.lineFeed = true
  | EmptyString => True
  end →
  readCsv (CsvExport.escapeCSV v +:+ tail) false "" row = readCsv tail false v row.
Proof.
  intros Htail. unfold CsvExport.escapeCSV.
  destruct (Js.occurs "," v) eqn:H1; [|destruct (Js.occurs Js.lineFeed v) eqn:H2;
    [|destruct (Js.occurs Js.quote v) eqn:H3]]; simpl.
  4:{ by rewrite readCsv_plain. }
  all: rewrite append_assoc, append_cons, append_empty; cbn [readCsv];
    change (Ascii.eqb Js.quote Js.quote) with true; cbv iota;
    rewrite readCsv_quoted; [done|];
    destruct tail as [|c rest]; [done|];
    destruct Htail as [->%Ascii.eqb_eq| ->%Ascii.eqb_eq]; done.
Qed.

Lemma readCsv_line cells tail row :
  cells ≠ [] →
  match tail with
  | String c _ => Ascii.eqb c Js.lineFeed = true
  | EmptyString => True
  end →
  readCsv (Js.join "," (CsvExport.escapeCSV <$> cells) +:+ tail) false "" row
  = match tail with
    | String _ rest => (row ++ cells) :: readCsv rest false "" []
    | EmptyString => [row ++ cells]
    end.
Proof.
  intros Hcells Htail. revert row.
  induction cells as [|v cells IH]; intros row; [done|].
  destruct cells as [|v' cells].
  - cbn [fmap list_fmap Js.join]. rewrite readCsv_cell.
    + destruct tail as [|c rest]; [done|]. cbn [readCsv].
      apply Ascii.eqb_eq in Htail. subst c. done.
    + destruct tail as [|c rest]; [done|]. by right.
  - change (Js.join "," (CsvExport.escapeCSV <$> v :: v' :: cells))
      with (CsvExport.escapeCSV v +:+ ","
            +:+ Js.join "," (CsvExport.escapeCSV <$> v' :: cells)).
    rewrite !append_assoc. rewrite readCsv_cell by (by left).
    rewrite append_cons, append_empty. cbn [readCsv].
    change (Ascii.eqb "," Js.quote) with false. change (Ascii.eqb "," ",") with true.
    cbv iota. rewrite IH by done.
    destruct tail; by rewrite <- app_assoc.
Qed.

Lemma readCsv_lines (rows : list (list string)) :
  rows ≠ [] → Forall (λ cells, cells ≠ []) rows →
  readCsv (Js.join (String Js.lineFeed "")
             ((λ cells, Js.join "," (CsvExport.escapeCSV <$> cells)) <$> rows))
    false "" []
  = rows.
Proof.
  intros Hrows Hall. induction Hall as [|cells rows Hcells Hall IH]; [done|].
  destruct rows as [|cells' rows].
  - cbn [fmap list_fmap Js.join].
    rewrite <- (append_nil_r (Js.join "," _)). by rewrite readCsv_line.
  - change (Js.join (String Js.lineFeed "")
              ((λ cells, Js.join "," (CsvExport.escapeCSV <$> cells))
                 <$> cells :: cells' :: rows))
      with (Js.join "," (CsvExport.escapeCSV <$> cells) +:+ String Js.lineFeed ""
            +:+ Js.join (String Js.lineFeed "")
                  ((λ cells, Js.join "," (CsvExport.escapeCSV <$> cells))
                     <$> cells' :: rows)).
    rewrite append_cons, append_empty, readCsv_line by done.
    simpl app. by rewrite IH.
Qed.

(** X27. The CSV text that [generateCSV] writes reads back, cell by
    cell, as the header row followed by one row of six cells per result,
    whatever commas, double quotes and line feeds the cells hold. *)
Theorem generateCSV_reads_back results :
  readCsv (CsvExport.generateCSV results) false "" []
  = CsvExport.headers :: (CsvExport.row <$> results).
Proof.
  unfold CsvExport.generateCSV. apply readCsv_lines; [done|].
  constructor; [done|]. apply Forall_forall.
  by intros cells (result & -> & _)%list_elem_of_fmap.
Qed.

Example generateCSV_sample :
  CsvExport.generateCSV
    [ ImageQueue.successResult (sampleTask 1);
      ImageQueue.errorResult (sampleTask 2) (ImageQueue.ErrorObject "bad, very bad") ]
  = "Filename,Detected SKU,Product Found,Product Title,Status,Error Details"
    +:+ String Js.lineFeed "DRESS-01.jpg,DRESS,Yes,Dress,Success,"
    +:+ String Js.lineFeed "DRESS-02.jpg,DRESS,Yes,Dress,Error,"
    +:+ String Js.quote "bad, very bad" +:+ String Js.quote "".
Proof. reflexivity. Qed.

(** ** The order in which the pool starts the tasks *)

Lemma startsOf_app a b : startsOf (a ++ b) = startsOf a ++ startsOf b.
Proof. apply omap_app. Qed.

Lemma settlesOf_app a b : settlesOf (a ++ b) = settlesOf a ++ settlesOf b.
Proof. apply omap_app. Qed.

Lemma startedFirst_prepend a b :
  settlesOf a = [] → startedFirst b → startedFirst (a ++ b).
Proof.
  intros Ha Hb. induction a as [|e a IH]; [done|].
  assert (settlesOf a = [] ∧ ∀ i, e ≠ ImageQueue.Settled i) as [Ha' He].
  { destruct e; csimpl in Ha; try done; by split. }
  intros before i after Heq. destruct before as [|e' before].
  { simpl in Heq. injection Heq as Hhead _. by destruct (He i). }
  simpl in Heq. injection Heq as <- Heq.
  pose proof (IH Ha' before i after Heq) as Hin.
  unfold startsOf. csimpl. destruct e; try done. by right.
Qed.

Lemma startedFirst_snoc events e :
  startedFirst events →
  (∀ i, e = ImageQueue.Settled i → i ∈ startsOf events) →
  startedFirst (events ++ [e]).
Proof.
  intros Hevents He before i after Heq.
  destruct after as [|e' after] using rev_ind.
  - apply app_inj_tail in Heq as [-> ->]. by apply He.
  - clear IHafter. rewrite app_comm_cons, app_assoc in Heq.
    apply app_inj_tail in Heq as [-> _]. by eapply Hevents.
Qed.

Section PoolOrder.
Import ImageQueue.
Context (remote : Remote).

Lemma startNext_inOrder n log0 p : inOrder n log0 p → inOrder n log0 (startNext p).
Proof.
  unfold startNext. destruct (queue p) as [|[i t] q] eqn:Hqueue; [done|].
  destruct (_ <? _)%nat; [|done].
  intros (events & k & Hlog & Hk & Hstarts & Hq & Hperm & Hfirst).
  rewrite Hqueue in Hq. csimpl in Hq.
  destruct (n - k)%nat as [|m] eqn:Hm; [done|]. injection Hq as -> Hq.
  exists (events ++ [Started k]), (S k). cbn [log queue active]. split_and!.
  - by rewrite Hlog, app_assoc.
  - lia.
  - by rewrite startsOf_app, Hstarts, seq_S.
  - rewrite Hq. f_equal. lia.
  - rewrite settlesOf_app, seq_S. change (settlesOf [Started k]) with (@nil nat).
    by rewrite app_nil_r, fmap_app, app_assoc, Hperm.
  - apply startedFirst_snoc; [done|]. by intros i [=].
Qed.

Lemma poolStep_inOrder n log0 p : inOrder n log0 p → inOrder n log0 (poolStep remote p).
Proof.
  unfold poolStep. intros Hp.
  destruct (active p) as [|r0 rs] eqn:Hactive; [done|].
  set (j := (_ `mod` _)%nat).
  destruct (_ !! j) as [r|] eqn:Hj; [|done].
  destruct Hp as (events & k & Hlog & Hk & Hstarts & Hq & Hperm & Hfirst).
  rewrite Hactive in Hperm.
  destruct (advance_shape remote (log p) r) as (call & failure & Hstep & _ & Hnext).
  destruct (advance remote (log p) r) as [log' [r'|result]];
    simpl in Hstep; subst log'.
  - destruct Hnext as (Hindex & _).
    exists (events ++ [Answered call failure]), k. cbn [log queue active].
    split_and!; try done.
    + by rewrite Hlog, app_assoc.
    + rewrite startsOf_app. simpl. by rewrite app_nil_r.
    + rewrite settlesOf_app. simpl. rewrite app_nil_r.
      rewrite list_fmap_insert, Hindex, list_insert_id; [done|].
      by rewrite list_lookup_fmap, Hj.
    + apply startedFirst_snoc; [done|]. by intros i [=].
  - apply startNext_inOrder.
    exists ((events ++ [Answered call failure]) ++ [Settled (index r)]), k.
    cbn [log queue active]. split_and!; try done.
    + by rewrite Hlog, !app_assoc.
    + rewrite !startsOf_app. simpl. by rewrite !app_nil_r.
    + rewrite !settlesOf_app.
      change (settlesOf [Answered call failure]) with (@nil nat).
      change (settlesOf [Settled (index r)]) with [index r].
      rewrite app_nil_r, <- Hperm, <- app_assoc. f_equiv. symmetry.
      etrans; [apply fmap_Permutation, (delete_Permutation _ j r Hj)|done].
    + apply startedFirst_snoc.
      * apply startedFirst_snoc; [done|]. by intros i [=].
      * intros i [= <-]. rewrite startsOf_app. simpl. rewrite app_nil_r, Hstarts.
        rewrite <- Hperm. apply elem_of_app. right.
        apply list_elem_of_fmap_2. by eapply list_elem_of_lookup_2.
Qed.

Lemma poolAfter_inOrder n log0 m p :
  inOrder n log0 p → inOrder n log0 (poolAfter remote m p).
Proof.
  intros Hp. induction m as [|m IH]; [done|].
  change (poolAfter remote (S m) p) with (poolStep remote (poolAfter remote m p)).
  by apply poolStep_inOrder.
Qed.

Lemma dispatch_inOrder tasks log0 :
  inOrder (length tasks) log0 (dispatch tasks log0).
Proof.
  unfold dispatch.
  assert (inOrder (length tasks) log0
            {| queue := imap pair tasks; active := []; settled := ∅; log := log0 |})
    as Hstart.
  { exists [], O. cbn [log queue active]. rewrite app_nil_r, Nat.sub_0_r.
    split_and!; try done; [lia| |].
    - apply list_eq. intros i. rewrite list_lookup_fmap, list_lookup_imap.
      destruct (tasks !! i) as [t|] eqn:Ht; simpl.
      + by rewrite lookup_seq_lt by (by eapply lookup_lt_Some).
      + by rewrite lookup_seq_ge by (by apply lookup_ge_None).
    - intros before i after Heq. by destruct before. }
  induction (length tasks) as [|m IH] at 2; [done|].
  change (Nat.iter (S m) startNext ?p) with (startNext (Nat.iter m startNext p)).
  by apply startNext_inOrder.
Qed.

(** The upload phase of a group, event by event. *)
Lemma awaitAll_inOrder tasks log0 :
  ∃ events,
    (awaitAll remote tasks log0).2 = log0 ++ events
    ∧ Forall isUploadEvent events
    ∧ startsOf events = seq 0 (length tasks)
    ∧ settlesOf events ≡ₚ seq 0 (length tasks)
    ∧ startedFirst events.
Proof.
  destruct (awaitAll_results remote tasks log0) as (_ & events & Hlog & Hall & _).
  unfold awaitAll in *. cbn [snd] in *.
  destruct (dispatch_invariants tasks log0) as (Hw0 & Hc0 & Hs0 & Hl0).
  destruct (poolAfter_invariants remote tasks (3 * length tasks) _ Hw0 Hc0 Hs0)
    as (_ & _ & _ & Hl).
  destruct (poolAfter_inOrder (length tasks) log0 (3 * length tasks) _
              (dispatch_inOrder tasks log0))
    as (events' & k & Hlog' & Hk & Hstarts & Hq & Hperm & Hfirst).
  set (p := poolAfter remote (3 * length tasks) (dispatch tasks log0)) in *.
  destruct (workLeft_zero p) as [Hqueue Hactive]; [lia|].
  rewrite Hlog in Hlog'. apply app_inv_head in Hlog'. subst events'.
  rewrite Hqueue in Hq. rewrite Hactive in Hperm. simpl in Hperm.
  rewrite app_nil_r in Hperm.
  assert (k = length tasks) as ->.
  { destruct (length tasks - k)%nat eqn:E; [lia|done]. }
  by exists events.
Qed.
End PoolOrder.

Lemma startedFirst_append a b :
  startedFirst a → settlesOf b = [] → startedFirst (a ++ b).
Proof.
  intros Ha. induction b as [|e b IH] using rev_ind; [by rewrite app_nil_r|].
  rewrite settlesOf_app. intros [Hb He]%app_eq_nil. rewrite app_assoc.
  apply startedFirst_snoc; [by apply IH|].
  intros i ->. done.
Qed.

(** X28. In every group, the pool starts each upload task once, in the
    order in which the tasks were submitted (position [i] stands for the
    [i]-th task, and the tasks are made from the sorted files), and each
    task settles once, after it was started, whatever the order in which
    the calls are answered. *)
Theorem uploads_start_in_order remote files product settings log0 :
  ∃ events,
    (ImageQueue.processProductFiles remote files product settings log0).2
    = log0 ++ events
    ∧ startsOf events = seq 0 (length files)
    ∧ settlesOf events ≡ₚ seq 0 (length files)
    ∧ startedFirst events.
Proof.
  unfold ImageQueue.processProductFiles. fold (tasksOf files product settings).
  set (log1 := if bool_decide (_ = Types.Replace) then _ else _).
  assert (∃ first, log1 = log0 ++ first ∧ startsOf first = [] ∧ settlesOf first = [])
    as (first & -> & Hfirst1 & Hfirst2).
  { unfold log1. case_bool_decide; [|exists []; by rewrite app_nil_r].
    destruct (0 <? _)%nat; [|exists []; by rewrite app_nil_r].
    by eexists [_]. }
  destruct (awaitAll_inOrder remote (tasksOf files product settings) (log0 ++ first))
    as (events & Hlog & _ & Hstarts & Hsettles & Hnested).
  assert (length (tasksOf files product settings) = length files) as Hlen.
  { unfold tasksOf. by rewrite length_fmap, sort_length. }
  rewrite Hlen in *.
  destruct (ImageQueue.awaitAll remote _ (log0 ++ first)) as [results log2].
  cbn [snd] in *. subst log2.
  set (log3 := if _ && _ then _ else _).
  assert (∃ last, log3 = ((log0 ++ first) ++ events) ++ last
                  ∧ startsOf last = [] ∧ settlesOf last = [])
    as (last & -> & Hlast1 & Hlast2).
  { unfold log3. destruct (_ && _); [|exists []; by rewrite app_nil_r].
    destruct (0 <? _)%nat; [|exists []; by rewrite app_nil_r].
    by eexists [_]. }
  exists (first ++ events ++ last). split_and!.
  - by rewrite <- !app_assoc.
  - by rewrite !startsOf_app, Hfirst1, Hlast1, app_nil_r.
  - by rewrite !settlesOf_app, Hfirst2, Hlast2, app_nil_r.
  - apply startedFirst_prepend; [done|]. by apply startedFirst_append.
Qed.

Example starts_and_settles_of_seven :
  startsOf
    (ImageQueue.processProductFiles pickyRemote sevenFiles sampleProduct
       plainSettings []).2
  = [0; 1; 2; 3; 4; 5; 6]%nat
  ∧ settlesOf
      (ImageQueue.processProductFiles pickyRemote sevenFiles sampleProduct
         plainSettings []).2
    = [1; 3; 0; 2; 4; 6; 5]%nat.
Proof. split; vm_compute; reflexivity. Qed.

